(** * Listing reconciliation core of the scraper: store, upsert, retirement, run
    coordinator.

    Shallow embedding of [scraper/src/db.js] (class [Database]) and of
    [scraper/src/index.js] ([runScrape]) together with the accumulation loop of
    [RealtorScraper.scrape].  SQL tables are lists of rows in insertion
    order; every [Database] method is a function on the tables, run through a
    small state-and-error monad whose environment says when each store call
    happens and whether the store rejects it. *)

From stdpp Require Import base tactics option list strings pretty gmap sorting.
From Stdlib Require Import ZArith Lia Ascii.

Local Open Scope Z_scope.

(** ** JavaScript values *)

(** A JS number-or-null is [option Z]; [if (v)] is false for [null] and [0]. *)
Definition truthy (v : option Z) : bool :=
  match v with
  | Some n => negb (n =? 0)
  | None => false
  end.

(** [a !== b] on number-or-null values. *)
Definition strict_ne (a b : option Z) : bool := negb (bool_decide (a = b)).

(** [v || null] on a number-or-null value. *)
Definition or_null (v : option Z) : option Z := if truthy v then v else None.

(** [if (s)] on a string: only the empty string is falsy. *)
Definition truthy_str (s : string) : bool :=
  match s with
  | EmptyString => false
  | String _ _ => true
  end.

(** ** Data model *)

(** The snapshot object handed to [upsertListing] ([data] in the source).
    Coordinates are double precision in the source; they are carried here as
    fixed-point integers, nothing below computes with them. *)
Record Snapshot := mkSnapshot {
  detailUrl : string;
  price : option Z;
  street : string;
  town : option string;
  province : option string;
  beds : Z;
  baths : Z;
  sqft : option Z;
  lat : option Z;
  lng : option Z;
  imageUrls : option (list string);
  listedAt : option Z
}.

(** Row of table [listings]. *)
Record Listing := mkListing {
  l_id : Z;
  l_realtor_url : string;
  l_price : option Z;
  l_street : string;
  l_town : option string;
  l_province : option string;
  l_beds : Z;
  l_baths : Z;
  l_sqft : option Z;
  l_lat : option Z;
  l_lng : option Z;
  l_image_urls : option (list string);
  l_listed_at : option Z;
  l_first_seen_at : Z;
  l_last_seen_at : Z;
  l_is_active : bool;
  l_created_at : Z;
  l_updated_at : Z
}.

(** Row of table [price_history]. *)
Record PricePoint := mkPricePoint {
  ph_id : Z;
  ph_listing_id : Z;
  ph_price : Z;
  ph_recorded_at : Z
}.

(** Column [scrape_runs.status]. *)
Inductive RunStatus := running | completed | failed.

(** Row of table [scrape_runs]. *)
Record ScrapeRun := mkScrapeRun {
  sr_id : Z;
  sr_started_at : Z;
  sr_finished_at : option Z;
  sr_listings_found : Z;
  sr_listings_new : Z;
  sr_listings_updated : Z;
  sr_price_changes : Z;
  sr_status : RunStatus;
  sr_error : option string
}.

(** Column [alerts.alert_type] (the CHECK constraint of the schema). *)
Inductive AlertType := new_listing | price_drop | price_increase.

(** Row of table [alerts]. *)
Record Alert := mkAlert {
  a_id : Z;
  a_user_id : Z;
  a_listing_id : Z;
  a_saved_search_id : option Z;
  a_alert_type : AlertType;
  a_old_price : option Z;
  a_new_price : option Z;
  a_sent_at : option Z;
  a_read_at : option Z;
  a_created_at : Z
}.

(** Row of table [favorites] (the columns the core can see). *)
Record Favorite := mkFavorite {
  f_user_id : Z;
  f_listing_id : Z
}.

(** The database: the tables and the last value of each SERIAL sequence.
    Ids only have to be fresh: that a rolled-back insert still uses up a
    sequence value is not modelled. *)
Record Db := mkDb {
  listings : list Listing;
  listings_seq : Z;
  price_history : list PricePoint;
  price_history_seq : Z;
  scrape_runs : list ScrapeRun;
  scrape_runs_seq : Z;
  alerts : list Alert;
  alerts_seq : Z;
  favorites : list Favorite
}.

Definition empty_db : Db := mkDb [] 0 [] 0 [] 0 [] 0 [].

#[global] Instance RunStatus_eq_dec : EqDecision RunStatus.
Proof. solve_decision. Defined.

#[global] Instance AlertType_eq_dec : EqDecision AlertType.
Proof. solve_decision. Defined.

(** What [upsertListing] returns. *)
Record UpsertResult := mkUpsertResult {
  listingId : Z;
  isNew : bool;
  priceChanged : bool;
  oldPrice : option Z;
  newPrice : option Z
}.

(** The counters of a pass ([stats] in [runScrape]). *)
Record Stats := mkStats {
  found : Z;
  new : Z;
  updated : Z;
  priceChanges : Z
}.

(** ** Table updates *)

Definition set_listings (rows : list Listing) (seq : Z) (d : Db) : Db :=
  mkDb rows seq (price_history d) (price_history_seq d) (scrape_runs d)
       (scrape_runs_seq d) (alerts d) (alerts_seq d) (favorites d).

Definition set_price_history (rows : list PricePoint) (seq : Z) (d : Db) : Db :=
  mkDb (listings d) (listings_seq d) rows seq (scrape_runs d)
       (scrape_runs_seq d) (alerts d) (alerts_seq d) (favorites d).

Definition set_scrape_runs (rows : list ScrapeRun) (seq : Z) (d : Db) : Db :=
  mkDb (listings d) (listings_seq d) (price_history d) (price_history_seq d)
       rows seq (alerts d) (alerts_seq d) (favorites d).

Definition set_alerts (rows : list Alert) (seq : Z) (d : Db) : Db :=
  mkDb (listings d) (listings_seq d) (price_history d) (price_history_seq d)
       (scrape_runs d) (scrape_runs_seq d) rows seq (favorites d).

(** ** The statements of [upsertListing] *)

(** [SELECT id, price FROM listings WHERE realtor_url = $1]. *)
Definition select_by_url (url : string) (d : Db) : list Listing :=
  filter (λ l, l_realtor_url l = url) (listings d).

(** The row [INSERT INTO listings (...) VALUES (...)] creates: the columns
    the statement leaves out take their defaults ([NOW()], [TRUE]). *)
Definition listing_row (now id : Z) (data : Snapshot) : Listing :=
  {| l_id := id;
     l_realtor_url := detailUrl data;
     l_price := price data;
     l_street := street data;
     l_town := town data;
     l_province := province data;
     l_beds := beds data;
     l_baths := baths data;
     l_sqft := sqft data;
     l_lat := or_null (lat data);
     l_lng := or_null (lng data);
     l_image_urls := Some (default [] (imageUrls data));
     l_listed_at := listedAt data;
     l_first_seen_at := now;
     l_last_seen_at := now;
     l_is_active := true;
     l_created_at := now;
     l_updated_at := now |}.

(** [INSERT INTO listings (...) VALUES (...) RETURNING id]. *)
Definition insert_listing (now : Z) (data : Snapshot) (d : Db) : Db * Z :=
  let id := listings_seq d + 1 in
  (set_listings (listings d ++ [listing_row now id data]) id d, id).

(** [INSERT INTO price_history (listing_id, price) VALUES ($1, $2)]. *)
Definition insert_price_history (now : Z) (listing_id p : Z) (d : Db) : Db :=
  let id := price_history_seq d + 1 in
  set_price_history
    (price_history d ++
       [{| ph_id := id; ph_listing_id := listing_id; ph_price := p;
           ph_recorded_at := now |}])
    id d.

(** The [SET] clause of the [UPDATE listings] of [upsertListing]. *)
Definition refresh_listing (now : Z) (p : option Z)
    (imgs : option (list string)) (l : Listing) : Listing :=
  {| l_id := l_id l;
     l_realtor_url := l_realtor_url l;
     l_price := p;
     l_street := l_street l;
     l_town := l_town l;
     l_province := l_province l;
     l_beds := l_beds l;
     l_baths := l_baths l;
     l_sqft := l_sqft l;
     l_lat := l_lat l;
     l_lng := l_lng l;
     l_image_urls :=
       match imgs with
       | Some urls => Some urls
       | None => l_image_urls l
       end;
     l_listed_at := l_listed_at l;
     l_first_seen_at := l_first_seen_at l;
     l_last_seen_at := now;
     l_is_active := true;
     l_created_at := l_created_at l;
     l_updated_at := now |}.

(** [UPDATE listings SET ... WHERE id = $1]. *)
Definition update_listing (now id : Z) (p : option Z)
    (imgs : option (list string)) (d : Db) : Db :=
  set_listings
    ((λ l, if decide (l_id l = id) then refresh_listing now p imgs l else l)
       <$> listings d)
    (listings_seq d) d.

(** The body of the transaction of [upsertListing], between [BEGIN] and
    [COMMIT]; [now] is the transaction's [NOW()]. *)
Definition upsert_tx (now : Z) (data : Snapshot) (d : Db) : Db * UpsertResult :=
  match select_by_url (detailUrl data) d with
  | [] =>
      let '(d1, id) := insert_listing now data d in
      let d2 :=
        match price data with
        | Some p => if p =? 0 then d1 else insert_price_history now id p d1
        | None => d1
        end in
      (d2, {| listingId := id; isNew := true; priceChanged := false;
              oldPrice := None; newPrice := price data |})
  | row :: _ =>
      let id := l_id row in
      let old := l_price row in
      let d1 := update_listing now id (price data) (imageUrls data) d in
      match price data with
      | Some p =>
          if truthy (price data) && truthy old && strict_ne (price data) old
          then (insert_price_history now id p d1,
                {| listingId := id; isNew := false; priceChanged := true;
                   oldPrice := old; newPrice := price data |})
          else (d1, {| listingId := id; isNew := false; priceChanged := false;
                       oldPrice := old; newPrice := price data |})
      | None =>
          (d1, {| listingId := id; isNew := false; priceChanged := false;
                  oldPrice := old; newPrice := price data |})
      end
  end.

(** ** The statements of the other [Database] methods *)

(** [INSERT INTO scrape_runs DEFAULT VALUES RETURNING id]. *)
Definition insert_scrape_run (now : Z) (d : Db) : Db * Z :=
  let id := scrape_runs_seq d + 1 in
  (set_scrape_runs
     (scrape_runs d ++
        [{| sr_id := id; sr_started_at := now; sr_finished_at := None;
            sr_listings_found := 0; sr_listings_new := 0;
            sr_listings_updated := 0; sr_price_changes := 0;
            sr_status := running; sr_error := None |}])
     id d,
   id).

(** The [SET] clause of [completeScrapeRun]. *)
Definition complete_run (now : Z) (stats : Stats) (r : ScrapeRun) : ScrapeRun :=
  {| sr_id := sr_id r; sr_started_at := sr_started_at r;
     sr_finished_at := Some now;
     sr_listings_found := found stats; sr_listings_new := new stats;
     sr_listings_updated := updated stats;
     sr_price_changes := priceChanges stats;
     sr_status := completed; sr_error := sr_error r |}.

(** The [UPDATE scrape_runs ... WHERE id = $1] of [completeScrapeRun]. *)
Definition update_run_completed (runId : Z) (stats : Stats) (now : Z) (d : Db)
    : Db * unit :=
  (set_scrape_runs
     ((λ r, if decide (sr_id r = runId) then complete_run now stats r else r)
        <$> scrape_runs d)
     (scrape_runs_seq d) d,
   tt).

(** The [SET] clause of [failScrapeRun]. *)
Definition fail_run (now : Z) (error : string) (r : ScrapeRun) : ScrapeRun :=
  {| sr_id := sr_id r; sr_started_at := sr_started_at r;
     sr_finished_at := Some now;
     sr_listings_found := sr_listings_found r;
     sr_listings_new := sr_listings_new r;
     sr_listings_updated := sr_listings_updated r;
     sr_price_changes := sr_price_changes r;
     sr_status := failed; sr_error := Some error |}.

(** The [UPDATE scrape_runs ... WHERE id = $1] of [failScrapeRun]. *)
Definition update_run_failed (runId : Z) (error : string) (now : Z) (d : Db)
    : Db * unit :=
  (set_scrape_runs
     ((λ r, if decide (sr_id r = runId) then fail_run now error r else r)
        <$> scrape_runs d)
     (scrape_runs_seq d) d,
   tt).

(** [INTERVAL '24 hours'], in the unit of the clock (microseconds). *)
Definition INTERVAL_24_HOURS : Z := 24 * 60 * 60 * 1000000.

(** The [WHERE] clause of [markInactiveListings]. *)
Definition retire_cond (now : Z) (activeIds : list Z) (l : Listing) : bool :=
  bool_decide (l_id l ∉ activeIds)
  && l_is_active l
  && (l_last_seen_at l <? now - INTERVAL_24_HOURS).

(** The [SET] clause of [markInactiveListings]. *)
Definition retire_listing (now : Z) (l : Listing) : Listing :=
  {| l_id := l_id l; l_realtor_url := l_realtor_url l; l_price := l_price l;
     l_street := l_street l; l_town := l_town l; l_province := l_province l;
     l_beds := l_beds l; l_baths := l_baths l; l_sqft := l_sqft l;
     l_lat := l_lat l; l_lng := l_lng l; l_image_urls := l_image_urls l;
     l_listed_at := l_listed_at l; l_first_seen_at := l_first_seen_at l;
     l_last_seen_at := l_last_seen_at l;
     l_is_active := false;
     l_created_at := l_created_at l;
     l_updated_at := now |}.

(** The [UPDATE listings SET is_active = FALSE ...] of [markInactiveListings]. *)
Definition update_inactive (activeIds : list Z) (now : Z) (d : Db) : Db * unit :=
  (set_listings
     ((λ l, if retire_cond now activeIds l then retire_listing now l else l)
        <$> listings d)
     (listings_seq d) d,
   tt).

(** The [INSERT INTO alerts (...)] of [createAlert]. *)
Definition insert_alert (userId listing_id : Z) (type : AlertType)
    (savedSearchId old_price new_price : option Z) (now : Z) (d : Db)
    : Db * unit :=
  let id := alerts_seq d + 1 in
  (set_alerts
     (alerts d ++
        [{| a_id := id; a_user_id := userId; a_listing_id := listing_id;
            a_saved_search_id := savedSearchId; a_alert_type := type;
            a_old_price := old_price; a_new_price := new_price;
            a_sent_at := None; a_read_at := None; a_created_at := now |}])
     id d,
   tt).

(** ** The store connection: a state-and-error monad *)

(** What the environment decides about one call to the store: the [NOW()] it
    runs at, and whether the store rejects it (constraint violation,
    connection loss) and with which [err.message]. *)
Record Call := mkCall {
  call_now : Z;
  call_fault : option string
}.

(** The collaborators of a pass: the store's behaviour at its n-th call and
    the geocoding service ([geocodeAddress] returns [null] on every failure). *)
Record Env := mkEnv {
  store_call : nat → Call;
  geocodeAddress : string → option (Z * Z)
}.

(** The tables and the number of store calls made so far. *)
Record World := mkWorld {
  w_db : Db;
  w_calls : nat
}.

(** An [async] computation: it either resolves ([inr]) or rejects with an
    error message ([inl]). *)
Definition M (A : Type) : Type := Env → World → World * (string + A).

#[global] Instance M_ret : MRet M := λ A a _ w, (w, inr a).

#[global] Instance M_bind : MBind M := λ A B k m env w,
  match m env w with
  | (w', inr a) => k a env w'
  | (w', inl e) => (w', inl e)
  end.

Definition throw {A : Type} (err : string) : M A := λ _ w, (w, inl err).

(** [try { m } catch (err) { h err }]. *)
Definition try_catch {A : Type} (m : M A) (h : string → M A) : M A :=
  λ env w,
    match m env w with
    | (w', inl err) => h err env w'
    | (w', inr a) => (w', inr a)
    end.

(** One call to the store: a single statement of [pool.query], or a whole
    [BEGIN] ... [COMMIT] transaction.  A rejected call leaves the tables as
    they were (a failing statement has no effect; a failing transaction is
    rolled back) and rejects with the store's message. *)
Definition query {A : Type} (q : Z → Db → Db * A) : M A :=
  λ env w,
    let c := store_call env (w_calls w) in
    match call_fault c with
    | Some err => (mkWorld (w_db w) (S (w_calls w)), inl err)
    | None =>
        let '(d, a) := q (call_now c) (w_db w) in
        (mkWorld d (S (w_calls w)), inr a)
    end.

(** The external geocoding lookup. *)
Definition geocode (address : string) : M (option (Z * Z)) :=
  λ env w, (w, inr (geocodeAddress env address)).

(** [for (const x of xs) { acc = body(acc, x) }]. *)
Fixpoint for_each {A S : Type} (body : S → A → M S) (xs : list A) (acc : S)
    : M S :=
  match xs with
  | [] => mret acc
  | x :: xs' => acc' ← body acc x; for_each body xs' acc'
  end.

(** ** The methods of [Database] *)

Definition startScrapeRun : M Z := query insert_scrape_run.

Definition completeScrapeRun (runId : Z) (stats : Stats) : M unit :=
  query (update_run_completed runId stats).

Definition failScrapeRun (runId : Z) (error : string) : M unit :=
  query (update_run_failed runId error).

Definition upsertListing (data : Snapshot) : M UpsertResult :=
  query (λ now, upsert_tx now data).

Definition markInactiveListings (activeIds : list Z) : M unit :=
  if decide (length activeIds = 0%nat) then mret tt
  else query (update_inactive activeIds).

Definition createAlert (userId listing_id : Z) (type : AlertType)
    (savedSearchId old_price new_price : option Z) : M unit :=
  query (insert_alert userId listing_id type savedSearchId old_price new_price).

(** ** [RealtorScraper.scrape]: the accumulation loop *)

(** The inner [for (const listing of pageListings)] of [scrape]: a listing
    whose URL was already seen is skipped, and nothing is added once
    [maxListings] is reached.  [seenUrls] is the [Set] of the source. *)
Fixpoint add_page (maxListings : nat) (pageListings : list Snapshot)
    (allListings : list Snapshot) (seenUrls : gset string)
    : list Snapshot * gset string :=
  match pageListings with
  | [] => (allListings, seenUrls)
  | listing :: rest =>
      if decide (maxListings ≤ length allListings)%nat
      then (allListings, seenUrls)
      else if truthy_str (detailUrl listing)
                && bool_decide (detailUrl listing ∈ seenUrls)
      then add_page maxListings rest allListings seenUrls
      else
        add_page maxListings rest (allListings ++ [listing])
          (if truthy_str (detailUrl listing)
           then {[detailUrl listing]} ∪ seenUrls
           else seenUrls)
  end.

(** The [while (pageNum < maxPages && allListings.length < maxListings)] of
    [scrape].  [pages] are the result pages in the order the site serves
    them; [goToNextPage] fails when none is left; [pagesLeft] is
    [maxPages - pageNum]. *)
Fixpoint scrape_pages (maxListings pagesLeft : nat) (pages : list (list Snapshot))
    (allListings : list Snapshot) (seenUrls : gset string) {struct pages}
    : list Snapshot :=
  match pages with
  | [] => allListings
  | pageListings :: next =>
      match pagesLeft with
      | O => allListings
      | S pagesLeft' =>
          if decide (maxListings ≤ length allListings)%nat then allListings
          else
            let '(allListings', seenUrls') :=
              add_page maxListings pageListings allListings seenUrls in
            if decide (maxListings ≤ length allListings')%nat
            then allListings'
            else scrape_pages maxListings pagesLeft' next allListings' seenUrls'
      end
  end.

(** [scraper.scrape(...)]: the browser either fails (the message is the
    input [inl]) or serves the pages [inr]. *)
Definition scrape (maxListings maxPages : nat)
    (site : string + list (list Snapshot)) : M (list Snapshot) :=
  match site with
  | inl err => throw err
  | inr pages => mret (scrape_pages maxListings maxPages pages [] ∅)
  end.

(** ** [runScrape] *)

(** The address sent to the geocoder. *)
Definition fullAddress (listing : Snapshot) : string :=
  street listing +:+ ", " +:+ default "" (town listing) +:+ ", "
  +:+ default "" (province listing) +:+ ", Canada".

Definition set_coords (la ln : Z) (listing : Snapshot) : Snapshot :=
  {| detailUrl := detailUrl listing; price := price listing;
     street := street listing; town := town listing;
     province := province listing; beds := beds listing;
     baths := baths listing; sqft := sqft listing;
     lat := Some la; lng := Some ln;
     imageUrls := imageUrls listing; listedAt := listedAt listing |}.

(** "Geocode if we don't have coordinates". *)
Definition geocode_listing (listing : Snapshot) : M Snapshot :=
  if negb (truthy (lat listing)) && truthy_str (street listing) then
    coords ← geocode (fullAddress listing);
    match coords with
    | Some (la, ln) => mret (set_coords la ln listing)
    | None => mret listing
    end
  else mret listing.

Definition stats0 : Stats := mkStats 0 0 0 0.

(** The body of the [for (const listing of listings)] of [runScrape]; the
    accumulator is [stats] and [activeListingIds]. *)
Definition reconcile (acc : Stats * list Z) (listing : Snapshot)
    : M (Stats * list Z) :=
  let stats := mkStats (found acc.1 + 1) (new acc.1) (updated acc.1)
                       (priceChanges acc.1) in
  listing' ← geocode_listing listing;
  result ← upsertListing listing';
  let activeListingIds := acc.2 ++ [listingId result] in
  if isNew result then
    mret (mkStats (found stats) (new stats + 1) (updated stats)
                  (priceChanges stats), activeListingIds)
  else if priceChanged result then
    mret (mkStats (found stats) (new stats) (updated stats)
                  (priceChanges stats + 1), activeListingIds)
  else
    mret (mkStats (found stats) (new stats) (updated stats + 1)
                  (priceChanges stats), activeListingIds).

(** The [try] block of [runScrape]. *)
Definition runScrape_try (runId : Z) (maxListings : nat)
    (site : string + list (list Snapshot)) : M Stats :=
  listings ← scrape maxListings 50 site;
  acc ← for_each reconcile listings (stats0, []);
  _ ← markInactiveListings acc.2;
  _ ← completeScrapeRun runId acc.1;
  mret acc.1.

(** The [catch (err)] block of [runScrape]. *)
Definition runScrape_catch (runId : Z) (err : string) : M Stats :=
  _ ← failScrapeRun runId err;
  throw err.

Definition runScrape (maxListings : nat) (site : string + list (list Snapshot))
    : M Stats :=
  runId ← startScrapeRun;
  try_catch (runScrape_try runId maxListings site) (runScrape_catch runId).

(** ** Observations on the store *)

(** The consecutive [db.upsertListing] calls of a batch, with their results
    (the loop of [runScrape] makes exactly these calls, see
    [for_each_reconcile_batch]). *)
Fixpoint upsert_batch (batch : list Snapshot) : M (list UpsertResult) :=
  match batch with
  | [] => mret []
  | data :: rest =>
      r ← upsertListing data;
      rs ← upsert_batch rest;
      mret (r :: rs)
  end.

(** The snapshot [runScrape] hands to [upsertListing]: the coordinates the
    geocoder found are written into it. *)
Definition geocoded (env : Env) (listing : Snapshot) : Snapshot :=
  if negb (truthy (lat listing)) && truthy_str (street listing) then
    match geocodeAddress env (fullAddress listing) with
    | Some (la, ln) => set_coords la ln listing
    | None => listing
    end
  else listing.

(** What one upsert result adds to [stats] and [activeListingIds]. *)
Definition tally (acc : Stats * list Z) (result : UpsertResult)
    : Stats * list Z :=
  (if isNew result then
     mkStats (found acc.1 + 1) (new acc.1 + 1) (updated acc.1)
             (priceChanges acc.1)
   else if priceChanged result then
     mkStats (found acc.1 + 1) (new acc.1) (updated acc.1)
             (priceChanges acc.1 + 1)
   else
     mkStats (found acc.1 + 1) (new acc.1) (updated acc.1 + 1)
             (priceChanges acc.1),
   acc.2 ++ [listingId result]).

(** The environment rejects no store call. *)
Definition no_faults (env : Env) : Prop :=
  ∀ n, call_fault (store_call env n) = None.

(** The number of [scrape_runs] rows with [status = 'running']. *)
Definition count_running (d : Db) : nat :=
  length (filter (λ r, sr_status r = running) (scrape_runs d)).

(** The price column of the row [SELECT ... WHERE realtor_url = $1] returns
    first. *)
Definition stored_price (url : string) (d : Db) : option (option Z) :=
  l_price <$> head (select_by_url url d).

(** The constraints the schema puts on [listings]: [id] is the primary key,
    drawn from the sequence, and [realtor_url] is UNIQUE. *)
Record wf_db (d : Db) : Prop := mk_wf_db {
  wf_ids : NoDup (l_id <$> listings d);
  wf_urls : NoDup (l_realtor_url <$> listings d);
  wf_seq : Forall (λ l, l_id l ≤ listings_seq d) (listings d)
}.

(** A computation whose every run relates the tables before and after by
    [R], whether it resolves or rejects. *)
Definition respects (R : Db → Db → Prop) {A : Type} (m : M A) : Prop :=
  ∀ env w, R (w_db w) (w_db (m env w).1).

(** The [listings] and [price_history] tables are the same. *)
Definition same_listings (d d' : Db) : Prop :=
  listings d' = listings d ∧ price_history d' = price_history d.

(** The [scrape_runs] table is the same. *)
Definition same_runs (d d' : Db) : Prop := scrape_runs d' = scrape_runs d.

(** The run [runId] exists and every row with that id is closed as failed
    with error detail [err]. *)
Definition marked_failed (runId : Z) (err : string) (d : Db) : Prop :=
  (∃ run, run ∈ scrape_runs d ∧ sr_id run = runId)
  ∧ ∀ run, run ∈ scrape_runs d → sr_id run = runId →
      sr_status run = failed ∧ sr_error run = Some err
      ∧ is_Some (sr_finished_at run).

(** Keys and prices of the Listings and the price history are the same. *)
Definition same_prices (d d' : Db) : Prop :=
  (λ l, (l_id l, l_realtor_url l, l_price l)) <$> listings d'
  = (λ l, (l_id l, l_realtor_url l, l_price l)) <$> listings d
  ∧ listings_seq d' = listings_seq d
  ∧ price_history d' = price_history d.

(** The [alerts] table is the same. *)
Definition same_alerts (d d' : Db) : Prop := alerts d' = alerts d.

(** Every URL with an active Listing still has one. *)
Definition active_kept (d d' : Db) : Prop :=
  ∀ url, (∃ l, l ∈ listings d ∧ l_realtor_url l = url ∧ l_is_active l = true) →
         (∃ l, l ∈ listings d' ∧ l_realtor_url l = url ∧ l_is_active l = true).

(** The columns of a Listing that no statement of the scraper's [UPDATE]s
    names: key, address, metadata and the first-seen stamps. *)
Definition frozen (l : Listing) :=
  (l_id l, l_realtor_url l, l_street l, l_town l, l_province l,
   (l_beds l, l_baths l, l_sqft l, l_lat l, l_lng l),
   (l_listed_at l, l_first_seen_at l, l_created_at l)).

(** Rows are only added at the end of [listings] and [price_history]; the
    frozen columns of the Listings that were there and the PricePoints that
    were there are as they were. *)
Definition rows_kept (d d' : Db) : Prop :=
  (frozen <$> listings d) `prefix_of` (frozen <$> listings d')
  ∧ price_history d `prefix_of` price_history d'.

(** The schema's constraints on [listings] carry over. *)
Definition wf_kept (d d' : Db) : Prop := wf_db d → wf_db d'.

(** No PricePoint with price 0 comes in. *)
Definition nonzero_prices_kept (d d' : Db) : Prop :=
  Forall (λ pp, ph_price pp ≠ 0) (price_history d) →
  Forall (λ pp, ph_price pp ≠ 0) (price_history d').

(** A Listing with this URL and id that is active still is. *)
Definition active_id_kept (d d' : Db) : Prop :=
  ∀ url id,
    (∃ l, l ∈ listings d ∧ l_realtor_url l = url ∧ l_id l = id
          ∧ l_is_active l = true) →
    (∃ l, l ∈ listings d' ∧ l_realtor_url l = url ∧ l_id l = id
          ∧ l_is_active l = true).

(** The run [runId] exists and every row with that id is closed as
    completed at [now] with the counters [stats]. *)
Definition marked_completed (runId now : Z) (stats : Stats) (d : Db) : Prop :=
  (∃ run, run ∈ scrape_runs d ∧ sr_id run = runId)
  ∧ ∀ run, run ∈ scrape_runs d → sr_id run = runId →
      sr_status run = completed ∧ sr_finished_at run = Some now
      ∧ sr_listings_found run = found stats
      ∧ sr_listings_new run = new stats
      ∧ sr_listings_updated run = updated stats
      ∧ sr_price_changes run = priceChanges stats.

(** The run records keep their ids and their order, and those of another id
    than [runId] are as they were. *)
Definition other_runs_kept (runId : Z) (d d' : Db) : Prop :=
  (λ r, if decide (sr_id r = runId) then None else Some r) <$> scrape_runs d'
  = (λ r, if decide (sr_id r = runId) then None else Some r) <$> scrape_runs d
  ∧ sr_id <$> scrape_runs d' = sr_id <$> scrape_runs d
  ∧ scrape_runs_seq d' = scrape_runs_seq d.

(** ** [RealtorScraper.generateImageUrls] *)

(** Strings are taken apart as lists of 8-bit characters (UTF-8). *)
Definition MAX_IMAGES : nat := 80.

Fixpoint starts_with (pat s : list ascii) : bool :=
  match pat, s with
  | [], _ => true
  | _ :: _, [] => false
  | p :: pat', c :: s' => bool_decide (p = c) && starts_with pat' s'
  end.

(** [s.includes(sub)]. *)
Fixpoint js_includes (sub s : list ascii) : bool :=
  starts_with sub s
  || match s with
     | [] => false
     | _ :: s' => js_includes sub s'
     end.

(** [s.replace(pat, rep)] for a string pattern [pat] and a replacement
    without [$]: the first occurrence is replaced. *)
Fixpoint js_replace (pat rep s : list ascii) : list ascii :=
  if starts_with pat s then rep ++ drop (length pat) s
  else match s with
       | [] => []
       | c :: s' => c :: js_replace pat rep s'
       end.

(** [\d]. *)
Definition is_digit (c : ascii) : bool :=
  (48 <=? nat_of_ascii c)%nat && (nat_of_ascii c <=? 57)%nat.

(** The four characters [\.jpg] matches under the flag [i]. *)
Definition is_jpg_extension (ext : list ascii) : bool :=
  match ext with
  | [d; j; p; g] =>
      bool_decide (d = "."%char)
      && (bool_decide (j = "j"%char) || bool_decide (j = "J"%char))
      && (bool_decide (p = "p"%char) || bool_decide (p = "P"%char))
      && (bool_decide (g = "g"%char) || bool_decide (g = "G"%char))
  | _ => false
  end.

(** Whether [.] refuses a character of [s]: the line terminators LF, CR,
    U+2028 and U+2029 (the last two in their UTF-8 form). *)
Fixpoint has_line_terminator (s : list ascii) : bool :=
  match s with
  | [] => false
  | c :: s' =>
      bool_decide (c = "010"%char) || bool_decide (c = "013"%char)
      || starts_with ["226"%char; "128"%char; "168"%char] s
      || starts_with ["226"%char; "128"%char; "169"%char] s
      || has_line_terminator s'
  end.

(** The number of digits a string starts with. *)
Fixpoint digit_run (s : list ascii) : nat :=
  match s with
  | c :: s' => if is_digit c then S (digit_run s') else O
  | [] => O
  end.

(** [s.match(/^(.+_)(\d+)(\.jpg)$/i)]: the first and the third group.  The
    extension is the last four characters, the digits are the run before
    it, and the first group is what is left: it must end with [_], hold a
    character before it, and no line terminator. *)
Definition match_numbered (s : list ascii) : option (list ascii * list ascii) :=
  let body := take (length s - 4) s in
  let extension := drop (length s - 4) s in
  let digits := digit_run (reverse body) in
  let prefix := take (length body - digits) body in
  if is_jpg_extension extension
     && bool_decide (digits ≠ 0%nat)
     && bool_decide (last prefix = Some "_"%char)
     && bool_decide (2 ≤ length prefix)%nat
     && negb (has_line_terminator prefix)
  then Some (prefix, extension)
  else None.

Definition cdn_host : list ascii := String.list_ascii_of_string "cdn.realtor.ca".
Definition lowres_segment : list ascii := String.list_ascii_of_string "/lowres/".
Definition highres_segment : list ascii := String.list_ascii_of_string "/highres/".

(** The URL number [i + 1] of the template literal. *)
Definition numbered_url (prefix extension : list ascii) (i : nat) : string :=
  String.string_of_list_ascii
    (prefix ++ String.list_ascii_of_string (pretty (i + 1)%nat) ++ extension).

Definition generateImageUrls (baseImageUrl : option string) : list string :=
  match baseImageUrl with
  | None => []
  | Some base =>
      if negb (truthy_str base) then []
      else if negb (js_includes cdn_host (String.list_ascii_of_string base))
      then [base]
      else
        let highresUrl :=
          js_replace lowres_segment highres_segment
            (String.list_ascii_of_string base) in
        match match_numbered highresUrl with
        | None => [String.string_of_list_ascii highresUrl]
        | Some (prefix, extension) =>
            numbered_url prefix extension <$> seq 0 MAX_IMAGES
        end
  end.

(** The end of [extractListingFromCard]: whatever the card evaluation found
    as [imageUrl], the snapshot gets the generated image list. *)
Definition attach_images (imageUrl : option string) (data : Snapshot)
    : Snapshot :=
  {| detailUrl := detailUrl data; price := price data;
     street := street data; town := town data;
     province := province data; beds := beds data;
     baths := baths data; sqft := sqft data;
     lat := lat data; lng := lng data;
     imageUrls := Some (generateImageUrls imageUrl);
     listedAt := listedAt data |}.

(** ** The app's side of [Database]: users, swipes and the feed *)

(** Row of table [users]. *)
Record User := mkUser {
  u_id : Z;
  u_clerk_id : string;
  u_email : option string;
  u_name : option string;
  u_avatar_url : option string;
  u_created_at : Z;
  u_updated_at : Z
}.

(** Row of table [swipes], without its surrogate id.  The CHECK constraint of
    [direction] accepts [NULL]. *)
Record Swipe := mkSwipe {
  s_user_id : Z;
  s_listing_id : Z;
  s_direction : option string;
  s_created_at : Z
}.

(** The whole database: the tables of the scraper and those of the app. *)
Record AppDb := mkAppDb {
  app_core : Db;
  users : list User;
  users_seq : Z;
  swipes : list Swipe
}.

Definition set_favorites (rows : list Favorite) (d : Db) : Db :=
  mkDb (listings d) (listings_seq d) (price_history d) (price_history_seq d)
       (scrape_runs d) (scrape_runs_seq d) (alerts d) (alerts_seq d) rows.

(** A statement either violates a constraint, with the constraint's name as
    message, or gives the new tables and its rows. *)
Definition Statement (A : Type) : Type := Z → AppDb → string + AppDb * A.

(** [CHECK (direction IN ('left', 'right', 'super'))]. *)
Definition direction_check (direction : option string) : bool :=
  match direction with
  | None => true
  | Some s => bool_decide (s ∈ ["left"; "right"; "super"])
  end.

Definition swipe_of (userId listingId : Z) (s : Swipe) : Prop :=
  s_user_id s = userId ∧ s_listing_id s = listingId.

#[global] Instance swipe_of_dec userId listingId s :
  Decision (swipe_of userId listingId s).
Proof. unfold swipe_of. apply _. Defined.

Definition favorite_of (userId listingId : Z) (f : Favorite) : Prop :=
  f_user_id f = userId ∧ f_listing_id f = listingId.

#[global] Instance favorite_of_dec userId listingId f :
  Decision (favorite_of userId listingId f).
Proof. unfold favorite_of. apply _. Defined.

(** [INSERT INTO swipes ... ON CONFLICT (user_id, listing_id) DO UPDATE SET
    direction = $3, created_at = NOW()].  The foreign keys are checked for an
    inserted row only: the update leaves the key columns alone. *)
Definition upsert_swipe (userId listingId : Z) (direction : option string)
    : Statement unit := λ now d,
  if negb (direction_check direction) then inl "swipes_direction_check"
  else if decide (Exists (swipe_of userId listingId) (swipes d)) then
    inr (mkAppDb (app_core d) (users d) (users_seq d)
           ((λ s, if decide (swipe_of userId listingId s)
                  then mkSwipe (s_user_id s) (s_listing_id s) direction now
                  else s) <$> swipes d),
         tt)
  else if decide (userId ∈ u_id <$> users d) then
    if decide (listingId ∈ l_id <$> listings (app_core d)) then
      inr (mkAppDb (app_core d) (users d) (users_seq d)
             (swipes d ++ [mkSwipe userId listingId direction now]),
           tt)
    else inl "swipes_listing_id_fkey"
  else inl "swipes_user_id_fkey".

(** [INSERT INTO favorites ... ON CONFLICT (user_id, listing_id) DO NOTHING]. *)
Definition insert_favorite (userId listingId : Z) : Statement unit := λ now d,
  if decide (Exists (favorite_of userId listingId) (favorites (app_core d)))
  then inr (d, tt)
  else if decide (userId ∈ u_id <$> users d) then
    if decide (listingId ∈ l_id <$> listings (app_core d)) then
      inr (mkAppDb
             (set_favorites
                (favorites (app_core d) ++ [mkFavorite userId listingId])
                (app_core d))
             (users d) (users_seq d) (swipes d),
           tt)
    else inl "favorites_listing_id_fkey"
  else inl "favorites_user_id_fkey".

(** [userData] of [getOrCreateUser]; a missing property is sent as [NULL]. *)
Record UserData := mkUserData {
  email : option string;
  name : option string;
  avatarUrl : option string
}.

(** [SELECT * FROM users WHERE clerk_id = $1]. *)
Definition select_user (clerkId : string) : Statement (list User) := λ now d,
  inr (d, filter (λ u, u_clerk_id u = clerkId) (users d)).

(** [INSERT INTO users (clerk_id, email, name, avatar_url) ... RETURNING *]. *)
Definition insert_user (clerkId : string) (userData : UserData)
    : Statement (list User) := λ now d,
  if decide (clerkId ∈ u_clerk_id <$> users d) then inl "users_clerk_id_key"
  else
    let id := users_seq d + 1 in
    let row :=
      {| u_id := id; u_clerk_id := clerkId; u_email := email userData;
         u_name := name userData; u_avatar_url := avatarUrl userData;
         u_created_at := now; u_updated_at := now |} in
    inr (mkAppDb (app_core d) (users d ++ [row]) id (swipes d), [row]).

(** The tables and the number of store calls made so far. *)
Record AppWorld := mkAppWorld {
  aw_db : AppDb;
  aw_calls : nat
}.

(** An [async] computation on the whole database. *)
Definition App (A : Type) : Type := Env → AppWorld → AppWorld * (string + A).

#[global] Instance App_ret : MRet App := λ A a _ w, (w, inr a).

#[global] Instance App_bind : MBind App := λ A B k m env w,
  match m env w with
  | (w', inr a) => k a env w'
  | (w', inl e) => (w', inl e)
  end.

(** One [pool.query]: the store may reject the call, or the statement may
    violate a constraint; either way the tables stay as they were. *)
Definition pool_query {A : Type} (q : Statement A) : App A :=
  λ env w,
    let c := store_call env (aw_calls w) in
    match call_fault c with
    | Some err => (mkAppWorld (aw_db w) (S (aw_calls w)), inl err)
    | None =>
        match q (call_now c) (aw_db w) with
        | inl err => (mkAppWorld (aw_db w) (S (aw_calls w)), inl err)
        | inr (d, a) => (mkAppWorld d (S (aw_calls w)), inr a)
        end
    end.

Definition recordSwipe (userId listingId : Z) (direction : option string)
    : App unit :=
  _ ← pool_query (upsert_swipe userId listingId direction);
  if bool_decide (direction = Some "right")
     || bool_decide (direction = Some "super")
  then pool_query (insert_favorite userId listingId)
  else mret tt.

Definition getOrCreateUser (clerkId : string) (userData : UserData)
    : App (option User) :=
  existing ← pool_query (select_user clerkId);
  if decide (0 < length existing)%nat then mret (head existing)
  else
    result ← pool_query (insert_user clerkId userData);
    mret (head result).

(** [filters] of [getListingsForUser]: numbers or strings, or missing. *)
Record Filters := mkFilters {
  minPrice : option Z;
  maxPrice : option Z;
  minBeds : option Z;
  minBaths : option Z;
  filters_province : option string
}.

(** SQL comparisons with a nullable column: never true on [NULL]. *)
Definition sql_ge (column : option Z) (bound : Z) : bool :=
  match column with
  | Some v => bound <=? v
  | None => false
  end.

Definition sql_le (column : option Z) (bound : Z) : bool :=
  match column with
  | Some v => v <=? bound
  | None => false
  end.

(** [NOT EXISTS (SELECT 1 FROM swipes s WHERE s.user_id = $1 AND
    s.listing_id = l.id)]. *)
Definition not_swiped (userId : Z) (d : AppDb) (l : Listing) : bool :=
  negb (bool_decide (Exists (swipe_of userId (l_id l)) (swipes d))).

(** [whereConditions.join(' AND ')]: a condition is pushed for each filter
    that is truthy. *)
Definition feed_where (userId : Z) (filters : Filters) (d : AppDb)
    (l : Listing) : bool :=
  l_is_active l
  && not_swiped userId d l
  && (if truthy (minPrice filters)
      then sql_ge (l_price l) (default 0 (minPrice filters)) else true)
  && (if truthy (maxPrice filters)
      then sql_le (l_price l) (default 0 (maxPrice filters)) else true)
  && (if truthy (minBeds filters)
      then sql_ge (Some (l_beds l)) (default 0 (minBeds filters)) else true)
  && (if truthy (minBaths filters)
      then sql_ge (Some (l_baths l)) (default 0 (minBaths filters)) else true)
  && (match filters_province filters with
      | Some p =>
          if truthy_str p then bool_decide (l_province l = Some p) else true
      | None => true
      end).

(** [ORDER BY l.listed_at DESC NULLS LAST, l.first_seen_at DESC]: [a] may
    come before [b]. *)
Definition feed_order (a b : Listing) : Prop :=
  match l_listed_at a, l_listed_at b with
  | Some x, Some y => y < x ∨ (x = y ∧ l_first_seen_at b ≤ l_first_seen_at a)
  | Some _, None => True
  | None, Some _ => False
  | None, None => l_first_seen_at b ≤ l_first_seen_at a
  end.

#[global] Instance feed_order_dec a b : Decision (feed_order a b).
Proof.
  unfold feed_order. destruct (l_listed_at a), (l_listed_at b); apply _.
Defined.

(** A row of the feed: [l.*] and [favorite_count], which the driver hands
    over as a decimal string (it is a [bigint]). *)
Record FeedRow := mkFeedRow {
  fr_listing : Listing;
  favorite_count : string
}.

Definition feed_row (d : AppDb) (l : Listing) : FeedRow :=
  {| fr_listing := l;
     favorite_count :=
       pretty (length (filter (λ f, f_listing_id f = l_id l)
                         (favorites (app_core d)))) |}.

(** The rows the [SELECT] of [getListingsForUser] may return: the order among
    listings that tie on both sort keys is the store's choice. *)
Definition feed_rows (userId : Z) (filters : Filters) (limit offset : Z)
    (d : AppDb) (rows : list FeedRow) : Prop :=
  ∃ sorted,
    sorted ≡ₚ filter (λ l, feed_where userId filters d l = true)
                (listings (app_core d))
    ∧ StronglySorted feed_order sorted
    ∧ rows = feed_row d
               <$> take (Z.to_nat limit) (drop (Z.to_nat offset) sorted).

(** [getListingsForUser(userId, { limit, offset, filters })] as a relation
    between the world it is called in and its outcome; a missing [limit] is
    50, a missing [offset] is 0, and the store refuses negative ones.  The
    numbers are taken within the store's integer types: the store rejects a
    call with a parameter beyond them, and such a call counts here among
    those with a [call_fault]. *)
Definition getListingsForUser (userId : Z) (limit offset : option Z)
    (filters : Filters) (env : Env) (w : AppWorld)
    (outcome : AppWorld * (string + list FeedRow)) : Prop :=
  let c := store_call env (aw_calls w) in
  let w' := mkAppWorld (aw_db w) (S (aw_calls w)) in
  match call_fault c with
  | Some err => outcome = (w', inl err)
  | None =>
      if decide (default 0 offset < 0)
      then outcome = (w', inl "OFFSET must not be negative")
      else if decide (default 50 limit < 0)
      then outcome = (w', inl "LIMIT must not be negative")
      else ∃ rows,
             feed_rows userId filters (default 50 limit) (default 0 offset)
               (aw_db w) rows
             ∧ outcome = (w', inr rows)
  end.

(** What the schema promises about the app's tables: one swipe and one
    favorite per user and listing, one user per Clerk id, user ids issued by
    the sequence. *)
Record wf_app (d : AppDb) : Prop := mk_wf_app {
  wf_swipes : NoDup ((λ s, (s_user_id s, s_listing_id s)) <$> swipes d);
  wf_favorites :
    NoDup ((λ f, (f_user_id f, f_listing_id f)) <$> favorites (app_core d));
  wf_clerk_ids : NoDup (u_clerk_id <$> users d);
  wf_user_ids : NoDup (u_id <$> users d);
  wf_users_seq : Forall (λ u, u_id u ≤ users_seq d) (users d)
}.

(** What the DO UPDATE of [upsert_swipe] makes of a row of the table. *)
Definition reswipe (userId listingId : Z) (direction : option string)
    (now : Z) (s : Swipe) : Swipe :=
  if decide (swipe_of userId listingId s)
  then mkSwipe (s_user_id s) (s_listing_id s) direction now
  else s.

(** The foreign keys of [swipes]: every swipe is of a user and a listing
    that exist (nothing in [Database] deletes either). *)
Definition refs_ok (d : AppDb) : Prop :=
  Forall (λ s, s_user_id s ∈ u_id <$> users d
               ∧ s_listing_id s ∈ l_id <$> listings (app_core d))
    (swipes d).

(** ** Concrete stores, snapshots and environments for the examples *)

Definition url_a : string := "https://www.realtor.ca/real-estate/1/12-main-st".
Definition url_b : string := "https://www.realtor.ca/real-estate/2/8-elm-ave".
Definition url_c : string := "https://www.realtor.ca/real-estate/3/5-oak-rd".

(** A snapshot as the extractor builds it for a card without image: the
    image list is the empty array. *)
Definition snapshot_of (url : string) (p : option Z) : Snapshot :=
  {| detailUrl := url; price := p; street := "12 Main St";
     town := Some "Ottawa"; province := Some "Ontario"; beds := 3; baths := 2;
     sqft := None; lat := None; lng := None; imageUrls := Some [];
     listedAt := None |}.

(** The same object without the [imageUrls] property. *)
Definition snapshot_without_images (url : string) (p : option Z) : Snapshot :=
  {| detailUrl := url; price := p; street := "12 Main St";
     town := Some "Ottawa"; province := Some "Ontario"; beds := 3; baths := 2;
     sqft := None; lat := None; lng := None; imageUrls := None;
     listedAt := None |}.

(** The n-th store call happens at [t + n] and is rejected when [faulty n]
    gives a message; no geocoding key is configured. *)
Definition env_at (t : Z) (faulty : nat → option string) : Env :=
  mkEnv (λ n, mkCall (t + Z.of_nat n) (faulty n)) (λ _, None).

Definition env_ok : Env := env_at 1000 (λ _, None).

(** Ten days after time 0. *)
Definition env_late : Env := env_at (10 * INTERVAL_24_HOURS) (λ _, None).

(** The store rejects its third call only (the upsert of the second
    snapshot of a pass started at call 0). *)
Definition env_one_fault : Env :=
  env_at 1000 (λ n, if decide (n = 2%nat) then Some "deadlock detected" else None).

(** The store is unreachable from its third call on. *)
Definition env_outage : Env :=
  env_at 1000
    (λ n, if decide (2 ≤ n)%nat then Some "Connection terminated" else None).

(** Ten days after time 0, the store rejects its fourth call only (the
    [completeScrapeRun] of a one-snapshot pass started at call 0). *)
Definition env_late_complete_fails : Env :=
  env_at (10 * INTERVAL_24_HOURS)
    (λ n, if decide (n = 3%nat) then Some "Connection terminated" else None).

Definition world_empty : World := mkWorld empty_db 0.

(** A snapshot of a card with one image. *)
Definition snapshot_with_image (url : string) (p : option Z) : Snapshot :=
  {| detailUrl := url; price := p; street := "12 Main St";
     town := Some "Ottawa"; province := Some "Ontario"; beds := 3; baths := 2;
     sqft := None; lat := None; lng := None;
     imageUrls := Some ["https://cdn.realtor.ca/listing/highres/1_1.jpg"];
     listedAt := None |}.

(** One Listing for [url_a], seen at time 0 with price 500000, one image and
    its initial PricePoint, favorited by user 7. *)
Definition db_one : Db :=
  mkDb [listing_row 0 1 (snapshot_with_image url_a (Some 500000))] 1
       [mkPricePoint 1 1 500000 0] 1 [] 0 [] 0 [mkFavorite 7 1].

Definition world_one : World := mkWorld db_one 0.

(** Two result pages; the second serves a card of the first again. *)
Definition pages_with_repeat : list (list Snapshot) :=
  [[snapshot_of url_a (Some 500000); snapshot_of url_b None];
   [snapshot_of url_a (Some 510000)]].

(** The image of a listing card, as the site serves it. *)
Definition image_url_lowres : string :=
  "https://cdn.realtor.ca/listing/TS638/reb82/lowres/3/x1234563_4.jpg".

(** The store of [db_one] with its user 7; nobody has swiped yet. *)
Definition user_7 : User :=
  mkUser 7 "user_2abc" (Some "sam@example.com") None None 0 0.

Definition app_db_one : AppDb := mkAppDb db_one [user_7] 7 [].

Definition app_world_one : AppWorld := mkAppWorld app_db_one 0.

Definition no_filters : Filters := mkFilters None None None None None.

(** The feed of user 7 on [app_db_one]: its one Listing, in one favorite. *)
Definition feed_one : list FeedRow :=
  [feed_row app_db_one
     (listing_row 0 1 (snapshot_with_image url_a (Some 500000)))].

(** The store accepts the first call and then loses the connection. *)
Definition env_second_call_fails : Env :=
  env_at 1000
    (λ n, if decide (n = 1%nat) then Some "Connection terminated" else None).

(** Ten days after time 0, the store rejects its third call only (the
    retirement statement of a one-snapshot pass started at call 0). *)
Definition env_late_retire_fails : Env :=
  env_at (10 * INTERVAL_24_HOURS)
    (λ n, if decide (n = 2%nat) then Some "deadlock detected" else None).

(** * Properties *)

(** ** The store connection *)

Lemma query_ok {A : Type} (q : Z → Db → Db * A) (env : Env) (w : World) :
  call_fault (store_call env (w_calls w)) = None →
  query q env w =
    (mkWorld (q (call_now (store_call env (w_calls w))) (w_db w)).1
             (S (w_calls w)),
     inr (q (call_now (store_call env (w_calls w))) (w_db w)).2).
Proof.
  intros Hok. unfold query. rewrite Hok.
  by destruct (q _ _).
Qed.

Lemma query_fault {A : Type} (q : Z → Db → Db * A) (env : Env) (w : World)
    (err : string) :
  call_fault (store_call env (w_calls w)) = Some err →
  query q env w = (mkWorld (w_db w) (S (w_calls w)), inl err).
Proof. intros Hf. unfold query. by rewrite Hf. Qed.

Lemma bind_ok {A B : Type} (m : M A) (k : A → M B) env w w' a :
  m env w = (w', inr a) → (m ≫= k) env w = k a env w'.
Proof. intros H. unfold mbind, M_bind. by rewrite H. Qed.

Lemma bind_err {A B : Type} (m : M A) (k : A → M B) env w w' e :
  m env w = (w', inl e) → (m ≫= k) env w = (w', inl e).
Proof. intros H. unfold mbind, M_bind. by rewrite H. Qed.

(** ** [upsertListing], new listing *)

Lemma select_by_url_nil url d :
  url ∉ (l_realtor_url <$> listings d) → select_by_url url d = [].
Proof.
  intros Hnot. unfold select_by_url.
  induction (listings d) as [|l ls IH]; [done|].
  rewrite fmap_cons, not_elem_of_cons in Hnot. destruct Hnot as [Hne Hnot].
  rewrite filter_cons_False by congruence. by apply IH.
Qed.

(** C1 (as amended): for a snapshot whose source URL has no Listing, a
    committed [upsertListing] appends one Listing (active, first_seen_at equal
    to last_seen_at, both the transaction's [NOW()]), returns isNew=true, and
    appends exactly one PricePoint carrying the snapshot price when that price
    is a non-zero number, and none when it is null or 0. *)
Theorem upsert_new_listing (env : Env) (w : World) (data : Snapshot) :
  detailUrl data ∉ (l_realtor_url <$> listings (w_db w)) →
  call_fault (store_call env (w_calls w)) = None →
  ∃ w' r row,
    upsertListing data env w = (w', inr r)
    ∧ isNew r = true ∧ priceChanged r = false
    ∧ listings (w_db w') = listings (w_db w) ++ [row]
    ∧ l_id row = listingId r
    ∧ l_realtor_url row = detailUrl data
    ∧ l_price row = price data
    ∧ l_is_active row = true
    ∧ l_first_seen_at row = l_last_seen_at row
    ∧ l_last_seen_at row = call_now (store_call env (w_calls w))
    ∧ (∀ p, price data = Some p → p ≠ 0 →
         ∃ pp, price_history (w_db w') = price_history (w_db w) ++ [pp]
               ∧ ph_price pp = p ∧ ph_listing_id pp = listingId r)
    ∧ (price data = None ∨ price data = Some 0 →
         price_history (w_db w') = price_history (w_db w)).
Proof.
  intros Hnew Hok.
  unfold upsertListing. rewrite (query_ok _ _ _ Hok).
  unfold upsert_tx. rewrite (select_by_url_nil _ _ Hnew).
  cbn [insert_listing].
  destruct (price data) as [p|] eqn:Hp; [destruct (Z.eqb_spec p 0) as [->|Hp0]|];
    eexists _, _, _; (split; [reflexivity|]); cbn; rewrite ?Hp;
    split_and!; try reflexivity; try (intros ? ?; congruence);
    try (by cbn).
  - intros q [= <-] _. eexists. split_and!; reflexivity.
  - intros [?|[= ->]]; done.
Qed.

(** ** [upsertListing], existing listing *)

(** The price-change test of [upsertListing]:
    [data.price && oldPrice && data.price !== oldPrice]. *)
Lemma price_test_spec (p old : option Z) :
  truthy p && truthy old && strict_ne p old = true
  ↔ ∃ a b, p = Some a ∧ old = Some b ∧ a ≠ 0 ∧ b ≠ 0 ∧ a ≠ b.
Proof.
  unfold strict_ne. split.
  - destruct p as [a|], old as [b|]; cbn; try (by rewrite ?andb_false_r).
    rewrite !andb_true_iff, !negb_true_iff, !Z.eqb_neq.
    intros [[Ha Hb] Hab]. exists a, b. split_and!; try done.
    intros ->. by rewrite bool_decide_eq_true_2 in Hab.
  - intros (a & b & -> & -> & Ha & Hb & Hab). cbn.
    rewrite !andb_true_iff, !negb_true_iff, !Z.eqb_neq.
    split_and!; try done. apply bool_decide_eq_false_2. congruence.
Qed.

Lemma price_test_same (p : option Z) :
  truthy p && truthy p && strict_ne p p = false.
Proof.
  unfold strict_ne. rewrite bool_decide_eq_true_2 by done.
  apply andb_false_r.
Qed.

(** What the transaction does once the [SELECT] has found a row. *)
Lemma upsert_tx_existing now data d row rest :
  select_by_url (detailUrl data) d = row :: rest →
  let changed :=
    truthy (price data) && truthy (l_price row)
    && strict_ne (price data) (l_price row) in
  let d1 := update_listing now (l_id row) (price data) (imageUrls data) d in
  upsert_tx now data d =
    (if changed
     then insert_price_history now (l_id row) (default 0 (price data)) d1
     else d1,
     {| listingId := l_id row; isNew := false; priceChanged := changed;
        oldPrice := l_price row; newPrice := price data |}).
Proof.
  intros Hsel. cbn zeta. unfold upsert_tx. rewrite Hsel.
  destruct (price data) as [p|] eqn:Hp; [|done].
  by destruct (truthy (Some p) && truthy (l_price row)
               && strict_ne (Some p) (l_price row)).
Qed.

(** What the transaction does when the [SELECT] finds nothing. *)
Lemma upsert_tx_new now data d :
  select_by_url (detailUrl data) d = [] →
  upsert_tx now data d =
    (if truthy (price data)
     then insert_price_history now (listings_seq d + 1)
            (default 0 (price data)) (insert_listing now data d).1
     else (insert_listing now data d).1,
     {| listingId := listings_seq d + 1; isNew := true; priceChanged := false;
        oldPrice := None; newPrice := price data |}).
Proof.
  intros Hsel. unfold upsert_tx. rewrite Hsel. cbn.
  destruct (price data) as [p|]; [|done]. cbn.
  by destruct (p =? 0).
Qed.

Lemma select_by_url_update url now id p imgs d :
  select_by_url url (update_listing now id p imgs d) =
    (λ l, if decide (l_id l = id) then refresh_listing now p imgs l else l)
      <$> select_by_url url d.
Proof.
  unfold select_by_url, update_listing. cbn [listings set_listings].
  induction (listings d) as [|l ls IH]; [done|].
  rewrite fmap_cons, !filter_cons.
  assert (l_realtor_url
            (if decide (l_id l = id) then refresh_listing now p imgs l else l)
          = l_realtor_url l) as Hurl by (by case_decide).
  rewrite Hurl, IH.
  by destruct (decide (l_realtor_url l = url)).
Qed.

Lemma select_by_url_insert url now data d :
  select_by_url url (insert_listing now data d).1 =
    select_by_url url d
    ++ (if decide (detailUrl data = url)
        then [listing_row now (listings_seq d + 1) data]
        else []).
Proof.
  unfold select_by_url. cbn [insert_listing fst listings set_listings].
  by rewrite filter_app, filter_cons, filter_nil.
Qed.

Lemma stored_price_insert_ph url now id p d :
  stored_price url (insert_price_history now id p d) = stored_price url d.
Proof. reflexivity. Qed.

(** After a committed upsert the row the [SELECT] returns for the snapshot's
    URL carries the snapshot's price, whatever it is. *)
Lemma upsert_tx_stored now data d :
  stored_price (detailUrl data) (upsert_tx now data d).1 = Some (price data).
Proof.
  destruct (select_by_url (detailUrl data) d) as [|row rest] eqn:Hsel.
  - rewrite upsert_tx_new by done. cbn [fst].
    assert (stored_price (detailUrl data) (insert_listing now data d).1
            = Some (price data)) as Hins.
    { unfold stored_price. rewrite select_by_url_insert, Hsel.
      by rewrite decide_True. }
    by destruct (truthy (price data)); rewrite ?stored_price_insert_ph.
  - rewrite (upsert_tx_existing _ _ _ _ _ Hsel). cbn [fst].
    assert (stored_price (detailUrl data)
              (update_listing now (l_id row) (price data) (imageUrls data) d)
            = Some (price data)) as Hupd.
    { unfold stored_price. rewrite select_by_url_update, Hsel. cbn.
      by rewrite decide_True. }
    by destruct (_ && _); rewrite ?stored_price_insert_ph.
Qed.

(** ** The schema's constraints are an invariant *)

Lemma NoDup_fmap_eq {A B : Type} (f : A → B) (l : list A) (x y : A) :
  NoDup (f <$> l) → x ∈ l → y ∈ l → f x = f y → x = y.
Proof.
  induction l as [|a l IH]; intros Hnd Hx Hy Hf; [by apply elem_of_nil in Hx|].
  rewrite fmap_cons, NoDup_cons in Hnd. destruct Hnd as [Ha Hnd].
  apply elem_of_cons in Hx as [->|Hx]; apply elem_of_cons in Hy as [->|Hy];
    try done.
  - exfalso. apply Ha. rewrite Hf. by apply list_elem_of_fmap_2.
  - exfalso. apply Ha. rewrite <- Hf. by apply list_elem_of_fmap_2.
  - by apply IH.
Qed.

Lemma update_listing_ids now id p imgs d :
  l_id <$> listings (update_listing now id p imgs d) = l_id <$> listings d.
Proof.
  cbn. rewrite <- list_fmap_compose. apply list_fmap_ext.
  intros _ l _. cbn. by case_decide.
Qed.

Lemma update_listing_urls now id p imgs d :
  l_realtor_url <$> listings (update_listing now id p imgs d)
  = l_realtor_url <$> listings d.
Proof.
  cbn. rewrite <- list_fmap_compose. apply list_fmap_ext.
  intros _ l _. cbn. by case_decide.
Qed.

Lemma wf_db_empty : wf_db empty_db.
Proof. split; cbn; constructor. Qed.

Lemma wf_db_listings d d' :
  listings d' = listings d → listings_seq d' = listings_seq d →
  wf_db d → wf_db d'.
Proof. intros Hl Hs [? ? ?]. split; rewrite ?Hl, ?Hs; done. Qed.

Lemma insert_listing_wf now data d :
  select_by_url (detailUrl data) d = [] →
  wf_db d → wf_db (insert_listing now data d).1.
Proof.
  intros Hsel [Hids Hurls Hseq]. rewrite Forall_forall in Hseq.
  split; cbn [insert_listing fst listings listings_seq set_listings].
  - rewrite fmap_app. apply NoDup_app. split_and!; [done| |apply NoDup_singleton].
    intros x Hx. apply list_elem_of_fmap in Hx as (l & -> & Hl).
    apply Hseq in Hl. cbn. rewrite list_elem_of_singleton. lia.
  - rewrite fmap_app. apply NoDup_app. split_and!; [done| |apply NoDup_singleton].
    intros x Hx. apply list_elem_of_fmap in Hx as (l & -> & Hl).
    cbn. rewrite list_elem_of_singleton. intros Heq.
    unfold select_by_url in Hsel.
    by apply (filter_nil_not_elem_of _ _ l Hsel).
  - apply Forall_app. split.
    + apply Forall_forall. intros l Hl. apply Hseq in Hl. lia.
    + repeat constructor. cbn. lia.
Qed.

Lemma update_listing_wf now id p imgs d :
  wf_db d → wf_db (update_listing now id p imgs d).
Proof.
  intros [Hids Hurls Hseq]. split.
  - by rewrite update_listing_ids.
  - by rewrite update_listing_urls.
  - cbn. rewrite Forall_fmap. eapply Forall_impl; [exact Hseq|].
    intros l Hl. cbn. by case_decide.
Qed.

(** A committed upsert keeps primary key and UNIQUE constraint. *)
Lemma upsert_tx_wf now data d : wf_db d → wf_db (upsert_tx now data d).1.
Proof.
  intros Hwf.
  destruct (select_by_url (detailUrl data) d) as [|row rest] eqn:Hsel.
  - rewrite upsert_tx_new by done. cbn [fst].
    pose proof (insert_listing_wf now data d Hsel Hwf) as Hwf'.
    destruct (truthy (price data)); [|done].
    by eapply wf_db_listings; [..|exact Hwf'].
  - rewrite (upsert_tx_existing _ _ _ _ _ Hsel). cbn [fst].
    pose proof (update_listing_wf now (l_id row) (price data) (imageUrls data)
                  d Hwf) as Hwf'.
    destruct (_ && _); [|done].
    by eapply wf_db_listings; [..|exact Hwf'].
Qed.

(** An upsert does not touch the price stored for another URL. *)
Lemma upsert_tx_stored_other now data d url :
  NoDup (l_id <$> listings d) → url ≠ detailUrl data →
  stored_price url (upsert_tx now data d).1 = stored_price url d.
Proof.
  intros Hids Hne.
  destruct (select_by_url (detailUrl data) d) as [|row rest] eqn:Hsel.
  - rewrite upsert_tx_new by done. cbn [fst].
    assert (stored_price url (insert_listing now data d).1 = stored_price url d)
      as Hins.
    { unfold stored_price. rewrite select_by_url_insert.
      rewrite decide_False by done. by rewrite app_nil_r. }
    by destruct (truthy (price data)); rewrite ?stored_price_insert_ph.
  - rewrite (upsert_tx_existing _ _ _ _ _ Hsel). cbn [fst].
    assert (stored_price url
              (update_listing now (l_id row) (price data) (imageUrls data) d)
            = stored_price url d) as Hupd.
    { unfold stored_price. rewrite select_by_url_update.
      destruct (select_by_url url d) as [|x xs] eqn:Hx; [done|]. cbn.
      rewrite decide_False; [done|]. intros Hid.
      assert (x ∈ select_by_url url d) as Hxin by (rewrite Hx; left).
      assert (row ∈ select_by_url (detailUrl data) d) as Hrin
        by (rewrite Hsel; left).
      apply list_elem_of_filter in Hxin as [Hxu Hxin].
      apply list_elem_of_filter in Hrin as [Hru Hrin].
      pose proof (NoDup_fmap_eq l_id _ _ _ Hids Hxin Hrin Hid) as ->.
      congruence. }
    by destruct (_ && _); rewrite ?stored_price_insert_ph.
Qed.

(** Re-upserting the stored price reports no change and adds no PricePoint. *)
Lemma upsert_tx_same_price now data d :
  stored_price (detailUrl data) d = Some (price data) →
  isNew (upsert_tx now data d).2 = false
  ∧ priceChanged (upsert_tx now data d).2 = false
  ∧ price_history (upsert_tx now data d).1 = price_history d.
Proof.
  unfold stored_price. intros Hst.
  destruct (select_by_url (detailUrl data) d) as [|row rest] eqn:Hsel; [done|].
  cbn in Hst. injection Hst as Hprice.
  rewrite (upsert_tx_existing _ _ _ _ _ Hsel). cbn [fst snd isNew priceChanged].
  rewrite Hprice, price_test_same. done.
Qed.

Lemma upsertListing_ok env w data :
  call_fault (store_call env (w_calls w)) = None →
  upsertListing data env w =
    (mkWorld (upsert_tx (call_now (store_call env (w_calls w))) data (w_db w)).1
             (S (w_calls w)),
     inr (upsert_tx (call_now (store_call env (w_calls w))) data (w_db w)).2).
Proof. intros Hok. unfold upsertListing. by rewrite query_ok. Qed.

(** ** Running a batch twice *)

Lemma upsert_batch_cons env w data rest w1 r :
  upsertListing data env w = (w1, inr r) →
  upsert_batch (data :: rest) env w =
    match upsert_batch rest env w1 with
    | (w2, inr rs) => (w2, inr (r :: rs))
    | (w2, inl e) => (w2, inl e)
    end.
Proof.
  intros Hup. cbn [upsert_batch]. rewrite (bind_ok _ _ _ _ _ _ Hup).
  unfold mbind, M_bind. by destruct (upsert_batch rest env w1) as [w2 [e|rs]].
Qed.

(** The first run of a batch with pairwise distinct URLs leaves, for each
    snapshot, its price in the store. *)
Lemma upsert_batch_first env batch :
  no_faults env → NoDup (detailUrl <$> batch) →
  ∀ w, wf_db (w_db w) →
  ∃ w' rs,
    upsert_batch batch env w = (w', inr rs)
    ∧ wf_db (w_db w')
    ∧ (∀ s, s ∈ batch → stored_price (detailUrl s) (w_db w') = Some (price s))
    ∧ (∀ url, url ∉ (detailUrl <$> batch) →
         stored_price url (w_db w') = stored_price url (w_db w)).
Proof.
  intros Hnf. induction batch as [|data rest IH]; intros Hnd w Hwf.
  - exists w, []. split_and!; try done. intros s Hs. by apply elem_of_nil in Hs.
  - rewrite fmap_cons, NoDup_cons in Hnd. destruct Hnd as [Hfresh Hnd].
    pose proof (upsertListing_ok env w data (Hnf _)) as Hup.
    set (w1 := mkWorld _ _) in Hup.
    destruct (IH Hnd w1) as (w' & rs & Hrun & Hwf' & Hin & Hout).
    { by apply upsert_tx_wf. }
    eexists w', _. rewrite (upsert_batch_cons _ _ _ _ _ _ Hup), Hrun.
    split_and!; try done.
    + intros s [->|Hs]%elem_of_cons; [|by apply Hin].
      rewrite (Hout _ Hfresh). apply upsert_tx_stored.
    + intros url [Hne Hnot]%not_elem_of_cons. rewrite (Hout _ Hnot).
      apply upsert_tx_stored_other; [apply Hwf|done].
Qed.

(** A run over a store that already holds every snapshot's price reports
    nothing new and nothing changed, and leaves the price history alone. *)
Lemma upsert_batch_again env batch :
  no_faults env →
  ∀ w, wf_db (w_db w) →
  (∀ s, s ∈ batch → stored_price (detailUrl s) (w_db w) = Some (price s)) →
  ∃ w' rs,
    upsert_batch batch env w = (w', inr rs)
    ∧ length rs = length batch
    ∧ Forall (λ r, isNew r = false ∧ priceChanged r = false) rs
    ∧ price_history (w_db w') = price_history (w_db w).
Proof.
  intros Hnf. induction batch as [|data rest IH]; intros w Hwf Hst.
  - by exists w, [].
  - pose proof (upsertListing_ok env w data (Hnf _)) as Hup.
    set (now := call_now _) in Hup. set (w1 := mkWorld _ _) in Hup.
    destruct (upsert_tx_same_price now data (w_db w)) as (Hnew & Hch & Hph).
    { apply Hst. left. }
    destruct (IH w1) as (w' & rs & Hrun & Hlen & Hall & Hph').
    { by apply upsert_tx_wf. }
    { intros s Hs. cbn [w1 w_db].
      destruct (decide (detailUrl s = detailUrl data)) as [Heq|Hne].
      - rewrite Heq, upsert_tx_stored.
        pose proof (Hst s ltac:(by right)) as H1.
        pose proof (Hst data ltac:(by left)) as H2. congruence.
      - rewrite upsert_tx_stored_other; [|apply Hwf|done]. apply Hst. by right. }
    eexists w', _. rewrite (upsert_batch_cons _ _ _ _ _ _ Hup), Hrun.
    split_and!; [done|by cbn; f_equal|by constructor|by rewrite Hph'].
Qed.

(** C2: with the store answering, on a store that satisfies the schema's
    constraints, running a batch of snapshots with pairwise distinct source
    URLs and then running the same batch again yields isNew=false and
    priceChanged=false for every snapshot of the second run and appends no
    PricePoint; and upserting a snapshot right after one with the same source
    URL and the same price reports priceChanged=false and appends no
    PricePoint. *)
Theorem upsert_idempotent (env : Env) (w : World) (batch : list Snapshot)
    (data data' : Snapshot) :
  no_faults env →
  wf_db (w_db w) →
  NoDup (detailUrl <$> batch) →
  detailUrl data' = detailUrl data →
  price data' = price data →
  (∃ w1 rs1 w2 rs2,
     upsert_batch batch env w = (w1, inr rs1)
     ∧ upsert_batch batch env w1 = (w2, inr rs2)
     ∧ length rs2 = length batch
     ∧ Forall (λ r, isNew r = false ∧ priceChanged r = false) rs2
     ∧ price_history (w_db w2) = price_history (w_db w1))
  ∧ (∃ w1 r1 w2 r2,
       upsertListing data env w = (w1, inr r1)
       ∧ upsertListing data' env w1 = (w2, inr r2)
       ∧ isNew r2 = false ∧ priceChanged r2 = false
       ∧ price_history (w_db w2) = price_history (w_db w1)).
Proof.
  intros Hnf Hwf Hnd Hurl Hprice. split.
  - destruct (upsert_batch_first env batch Hnf Hnd w Hwf)
      as (w1 & rs1 & Hrun1 & Hwf1 & Hst & _).
    destruct (upsert_batch_again env batch Hnf w1 Hwf1 Hst)
      as (w2 & rs2 & Hrun2 & Hlen & Hall & Hph).
    by exists w1, rs1, w2, rs2.
  - pose proof (upsertListing_ok env w data (Hnf _)) as Hup1.
    set (w1 := mkWorld _ _) in Hup1.
    pose proof (upsertListing_ok env w1 data' (Hnf _)) as Hup2.
    set (now2 := call_now _) in Hup2.
    destruct (upsert_tx_same_price now2 data' (w_db w1)) as (Hnew & Hch & Hph).
    { rewrite Hurl, Hprice. apply upsert_tx_stored. }
    eexists w1, _, _, _. split; [exact Hup1|]. split; [exact Hup2|]. done.
Qed.

(** ** What an upsert onto an existing listing reports and writes *)

Lemma select_by_url_cons url d :
  url ∈ (l_realtor_url <$> listings d) →
  ∃ row rest,
    select_by_url url d = row :: rest
    ∧ row ∈ listings d ∧ l_realtor_url row = url.
Proof.
  intros (l & Hurl & Hl)%list_elem_of_fmap.
  assert (l ∈ select_by_url url d) as Hin by (by apply list_elem_of_filter).
  destruct (select_by_url url d) as [|row rest] eqn:Hsel;
    [by apply elem_of_nil in Hin|].
  assert (row ∈ select_by_url url d) as Hrow by (rewrite Hsel; left).
  apply list_elem_of_filter in Hrow as [? ?]. by exists row, rest.
Qed.

Lemma stored_price_Some url d old :
  stored_price url d = Some old →
  ∃ row rest, select_by_url url d = row :: rest ∧ l_price row = old.
Proof.
  unfold stored_price.
  destruct (select_by_url url d) as [|row rest]; [done|].
  intros [= <-]. by exists row, rest.
Qed.

(** The result and the price history after an upsert onto a listing whose
    stored price is [old]. *)
Lemma upsert_tx_on_stored now data d old :
  stored_price (detailUrl data) d = Some old →
  let changed := truthy (price data) && truthy old && strict_ne (price data) old in
  let r := (upsert_tx now data d).2 in
  isNew r = false
  ∧ priceChanged r = changed
  ∧ oldPrice r = old
  ∧ newPrice r = price data
  ∧ price_history (upsert_tx now data d).1 =
      price_history d
      ++ (if changed
          then [mkPricePoint (price_history_seq d + 1) (listingId r)
                  (default 0 (price data)) now]
          else []).
Proof.
  intros (row & rest & Hsel & <-)%stored_price_Some. cbn zeta.
  rewrite (upsert_tx_existing _ _ _ _ _ Hsel). cbn [fst snd].
  split_and!; try done.
  destruct (_ && _); [done|]. cbn. by rewrite app_nil_r.
Qed.

Lemma update_listing_keeps_images now id p d :
  l_image_urls <$> listings (update_listing now id p None d)
  = l_image_urls <$> listings d.
Proof.
  cbn. rewrite <- list_fmap_compose. apply list_fmap_ext.
  intros _ l _. cbn. by case_decide.
Qed.

Lemma update_listing_row now id p imgs d l :
  l ∈ listings (update_listing now id p imgs d) → l_id l = id →
  l_price l = p ∧ l_last_seen_at l = now ∧ l_updated_at l = now
  ∧ l_is_active l = true.
Proof.
  cbn. intros (l0 & -> & _)%list_elem_of_fmap. by case_decide.
Qed.

Lemma update_listing_elem now id p imgs d row :
  row ∈ listings d → l_id row = id →
  refresh_listing now p imgs row ∈ listings (update_listing now id p imgs d).
Proof.
  intros Hrow Hid. cbn. apply list_elem_of_fmap. exists row.
  by rewrite decide_True.
Qed.

(** C3 (as amended): on a listing whose stored price is 500000, a snapshot
    with price=null records no PricePoint and reports priceChanged=false, but
    it overwrites the stored price with null; the next snapshot of that
    listing, with price=510000, is therefore compared against null: it
    reports priceChanged=false with oldPrice=null, appends no PricePoint, and
    leaves 510000 as the stored price. *)
Theorem null_price_erases_stored_price (env : Env) (w : World)
    (data1 data2 : Snapshot) :
  stored_price (detailUrl data1) (w_db w) = Some (Some 500000) →
  price data1 = None →
  detailUrl data2 = detailUrl data1 →
  price data2 = Some 510000 →
  call_fault (store_call env (w_calls w)) = None →
  call_fault (store_call env (S (w_calls w))) = None →
  ∃ w1 r1 w2 r2,
    upsertListing data1 env w = (w1, inr r1)
    ∧ isNew r1 = false ∧ priceChanged r1 = false
    ∧ oldPrice r1 = Some 500000
    ∧ price_history (w_db w1) = price_history (w_db w)
    ∧ stored_price (detailUrl data1) (w_db w1) = Some None
    ∧ upsertListing data2 env w1 = (w2, inr r2)
    ∧ isNew r2 = false ∧ priceChanged r2 = false
    ∧ oldPrice r2 = None ∧ newPrice r2 = Some 510000
    ∧ price_history (w_db w2) = price_history (w_db w)
    ∧ stored_price (detailUrl data1) (w_db w2) = Some (Some 510000).
Proof.
  intros Hst Hp1 Hurl Hp2 Hok1 Hok2.
  pose proof (upsertListing_ok env w data1 Hok1) as Hup1.
  set (now1 := call_now _) in Hup1. set (w1 := mkWorld _ _) in Hup1.
  pose proof (upsertListing_ok env w1 data2 Hok2) as Hup2.
  set (now2 := call_now _) in Hup2.
  destruct (upsert_tx_on_stored now1 data1 (w_db w) _ Hst)
    as (Hn1 & Hc1 & Ho1 & _ & Hph1).
  rewrite Hp1 in Hc1, Hph1. cbn in Hc1, Hph1. rewrite app_nil_r in Hph1.
  assert (stored_price (detailUrl data2) (w_db w1) = Some None) as Hst1.
  { rewrite Hurl, <- Hp1. apply upsert_tx_stored. }
  destruct (upsert_tx_on_stored now2 data2 (w_db w1) _ Hst1)
    as (Hn2 & Hc2 & Ho2 & Hnp2 & Hph2).
  rewrite Hp2 in Hc2, Hph2, Hnp2. cbn in Hc2, Hph2. rewrite app_nil_r in Hph2.
  eexists w1, _, _, _. split; [exact Hup1|].
  split_and!; try done; try exact Hup2.
  - by rewrite <- Hurl.
  - exact (eq_trans Hph2 Hph1).
  - cbn [w_db]. rewrite <- Hurl, <- Hp2. apply upsert_tx_stored.
Qed.

Lemma upsert_tx_listings_existing now data d row rest :
  select_by_url (detailUrl data) d = row :: rest →
  listings (upsert_tx now data d).1
  = listings (update_listing now (l_id row) (price data) (imageUrls data) d)
  ∧ listingId (upsert_tx now data d).2 = l_id row
  ∧ isNew (upsert_tx now data d).2 = false.
Proof.
  intros Hsel. rewrite (upsert_tx_existing _ _ _ _ _ Hsel). cbn [fst snd].
  by destruct (_ && _).
Qed.

(** The [COALESCE($3, image_urls)] of the UPDATE: an upsert of a snapshot
    object whose [imageUrls] property is null or undefined onto an existing
    Listing leaves the stored image list of every Listing unchanged, while
    the Listing of that URL gets the snapshot's price, last_seen_at and
    updated_at set to the transaction's [NOW()], and active set to true.
    No snapshot of the extractor is of this kind: [extractListingFromCard]
    always sets [imageUrls] to an array. *)
Theorem upsert_preserves_images (env : Env) (w : World) (data : Snapshot) :
  detailUrl data ∈ (l_realtor_url <$> listings (w_db w)) →
  imageUrls data = None →
  call_fault (store_call env (w_calls w)) = None →
  ∃ w' r,
    upsertListing data env w = (w', inr r)
    ∧ isNew r = false
    ∧ l_image_urls <$> listings (w_db w') = l_image_urls <$> listings (w_db w)
    ∧ (∃ l, l ∈ listings (w_db w') ∧ l_id l = listingId r
            ∧ l_realtor_url l = detailUrl data)
    ∧ (∀ l, l ∈ listings (w_db w') → l_id l = listingId r →
         l_price l = price data
         ∧ l_last_seen_at l = call_now (store_call env (w_calls w))
         ∧ l_updated_at l = call_now (store_call env (w_calls w))
         ∧ l_is_active l = true).
Proof.
  intros (row & rest & Hsel & Hrow & Hurl)%select_by_url_cons Himg Hok.
  pose proof (upsertListing_ok env w data Hok) as Hup.
  set (now := call_now _) in *.
  destruct (upsert_tx_listings_existing now data (w_db w) row rest Hsel)
    as (Hls & Hid & Hnew).
  eexists _, _. split; [exact Hup|]. cbn [w_db].
  rewrite Hls, Hid, Himg. split_and!.
  - done.
  - apply update_listing_keeps_images.
  - exists (refresh_listing now (price data) None row). split_and!; try done.
    by apply update_listing_elem.
  - intros l Hl Hlid. by eapply update_listing_row.
Qed.

(** C10: a snapshot whose price is exactly 0 is handled like one without a
    price as far as history and change detection go: on insert no PricePoint
    is recorded; on update no PricePoint is appended and priceChanged=false
    whatever the stored price is; in both cases the Listing's price column
    holds 0 afterwards.  And a stored price of 0 suppresses change detection
    for whatever snapshot comes next. *)
Theorem zero_price_treated_as_unknown (env : Env) (w : World) (data : Snapshot) :
  call_fault (store_call env (w_calls w)) = None →
  ∃ w' r,
    upsertListing data env w = (w', inr r)
    ∧ (price data = Some 0 →
       detailUrl data ∉ (l_realtor_url <$> listings (w_db w)) →
       isNew r = true
       ∧ price_history (w_db w') = price_history (w_db w)
       ∧ stored_price (detailUrl data) (w_db w') = Some (Some 0))
    ∧ (price data = Some 0 →
       detailUrl data ∈ (l_realtor_url <$> listings (w_db w)) →
       isNew r = false ∧ priceChanged r = false
       ∧ price_history (w_db w') = price_history (w_db w)
       ∧ stored_price (detailUrl data) (w_db w') = Some (Some 0))
    ∧ (stored_price (detailUrl data) (w_db w) = Some (Some 0) →
       isNew r = false ∧ priceChanged r = false
       ∧ price_history (w_db w') = price_history (w_db w)).
Proof.
  intros Hok. pose proof (upsertListing_ok env w data Hok) as Hup.
  set (now := call_now _) in *.
  eexists _, _. split; [exact Hup|]. cbn [w_db]. split_and!.
  - intros Hp Hnew. apply select_by_url_nil in Hnew.
    pose proof (upsert_tx_stored now data (w_db w)) as Hst.
    rewrite upsert_tx_new in * by done. rewrite Hp in *. done.
  - intros Hp (row & rest & Hsel & _ & _)%select_by_url_cons.
    pose proof (upsert_tx_stored now data (w_db w)) as Hst.
    destruct (upsert_tx_on_stored now data (w_db w) (l_price row))
      as (Hn & Hc & _ & _ & Hph).
    { unfold stored_price. by rewrite Hsel. }
    rewrite Hp in *. cbn in Hc, Hph. rewrite app_nil_r in Hph. done.
  - intros Hst.
    destruct (upsert_tx_on_stored now data (w_db w) _ Hst)
      as (Hn & Hc & _ & _ & Hph).
    assert (truthy (price data) && truthy (Some 0)
            && strict_ne (price data) (Some 0) = false) as Htest
      by (cbn; by rewrite andb_false_r).
    rewrite Htest in *. rewrite app_nil_r in Hph. done.
Qed.

(** ** Retirement *)

Lemma retire_cond_spec now activeIds l :
  retire_cond now activeIds l = true
  ↔ l_is_active l = true ∧ (l_id l ∉ activeIds)
    ∧ l_last_seen_at l < now - INTERVAL_24_HOURS.
Proof.
  unfold retire_cond.
  rewrite !andb_true_iff, bool_decide_eq_true, Z.ltb_lt. tauto.
Qed.

(** C4 (as amended): when the list of observed listing ids is not empty, the
    retirement step rewrites each Listing row in place: a row that is
    active, whose id is not among the observed ids and whose last_seen_at is
    more than 24 hours before the statement's [NOW()] becomes inactive (with
    updated_at set to [NOW()]); every other row, in particular an absent one
    last seen within the 24 hours, is left as it is.  When the list of
    observed ids is empty, the step makes no store call and retires
    nothing. *)
Theorem retirement_marks_exactly_stale_absent (env : Env) (w : World)
    (activeIds : list Z) :
  (activeIds ≠ [] →
   call_fault (store_call env (w_calls w)) = None →
   ∃ w',
     markInactiveListings activeIds env w = (w', inr tt)
     ∧ length (listings (w_db w')) = length (listings (w_db w))
     ∧ ∀ (i : nat) (l : Listing),
         listings (w_db w) !! i = Some l →
         ∃ l',
           listings (w_db w') !! i = Some l'
           ∧ (l_is_active l = true ∧ (l_id l ∉ activeIds)
              ∧ l_last_seen_at l
                < call_now (store_call env (w_calls w)) - INTERVAL_24_HOURS →
              l' = retire_listing (call_now (store_call env (w_calls w))) l
              ∧ l_is_active l' = false)
           ∧ (¬ (l_is_active l = true ∧ (l_id l ∉ activeIds)
                 ∧ l_last_seen_at l
                   < call_now (store_call env (w_calls w)) - INTERVAL_24_HOURS) →
              l' = l))
  ∧ (activeIds = [] → markInactiveListings activeIds env w = (w, inr tt)).
Proof.
  split.
  - intros Hne Hok. unfold markInactiveListings.
    rewrite decide_False by (by destruct activeIds).
    rewrite (query_ok _ _ _ Hok). set (now := call_now _).
    eexists. split; [reflexivity|]. cbn. split; [by rewrite length_fmap|].
    intros i l Hi. rewrite list_lookup_fmap, Hi. cbn.
    eexists. split; [reflexivity|].
    rewrite <- retire_cond_spec.
    destruct (retire_cond now activeIds l); split; try done.
  - by intros ->.
Qed.

(** ** The pass: [runScrape] *)

Lemma startScrapeRun_ok env w :
  call_fault (store_call env (w_calls w)) = None →
  startScrapeRun env w =
    (mkWorld (insert_scrape_run (call_now (store_call env (w_calls w)))
                (w_db w)).1
             (S (w_calls w)),
     inr (scrape_runs_seq (w_db w) + 1)).
Proof. intros Hok. unfold startScrapeRun. by rewrite query_ok. Qed.

Lemma geocode_listing_run listing env w :
  ∃ listing',
    geocode_listing listing env w = (w, inr listing')
    ∧ detailUrl listing' = detailUrl listing
    ∧ price listing' = price listing
    ∧ imageUrls listing' = imageUrls listing.
Proof.
  unfold geocode_listing.
  destruct (negb (truthy (lat listing)) && truthy_str (street listing));
    [|by exists listing].
  unfold mbind, M_bind, geocode.
  destruct (geocodeAddress env (fullAddress listing)) as [[la ln]|];
    [by exists (set_coords la ln listing)|by exists listing].
Qed.

Lemma reconcile_ok acc listing env w :
  call_fault (store_call env (w_calls w)) = None →
  ∃ listing' acc',
    geocode_listing listing env w = (w, inr listing')
    ∧ reconcile acc listing env w =
        (mkWorld (upsert_tx (call_now (store_call env (w_calls w))) listing'
                    (w_db w)).1
                 (S (w_calls w)),
         inr acc')
    ∧ found acc'.1 = found acc.1 + 1
    ∧ acc'.2 =
        acc.2 ++ [listingId (upsert_tx (call_now (store_call env (w_calls w)))
                               listing' (w_db w)).2].
Proof.
  intros Hok.
  destruct (geocode_listing_run listing env w) as (listing' & Hgeo & _).
  pose proof (upsertListing_ok env w listing' Hok) as Hup.
  exists listing'. unfold reconcile.
  rewrite (bind_ok _ _ _ _ _ _ Hgeo), (bind_ok _ _ _ _ _ _ Hup).
  set (r := (upsert_tx _ _ _).2).
  destruct (isNew r); [|destruct (priceChanged r)];
    eexists; (split; [exact Hgeo|]); (split; [reflexivity|]); done.
Qed.

Lemma reconcile_fault acc listing env w err :
  call_fault (store_call env (w_calls w)) = Some err →
  reconcile acc listing env w = (mkWorld (w_db w) (S (w_calls w)), inl err).
Proof.
  intros Hf.
  destruct (geocode_listing_run listing env w) as (listing' & Hgeo & _).
  unfold reconcile. rewrite (bind_ok _ _ _ _ _ _ Hgeo).
  apply bind_err. unfold upsertListing. by apply query_fault.
Qed.

Lemma for_each_app {A S : Type} (body : S → A → M S) xs ys acc env w :
  for_each body (xs ++ ys) acc env w =
    match for_each body xs acc env w with
    | (w', inr acc') => for_each body ys acc' env w'
    | (w', inl e) => (w', inl e)
    end.
Proof.
  revert acc w. induction xs as [|x xs IH]; intros acc w; [done|].
  cbn [for_each app]. unfold mbind, M_bind.
  destruct (body acc x env w) as [w1 [e|acc1]]; [done|]. apply IH.
Qed.

(** While the store answers, the loop goes through the whole list, one store
    call per snapshot. *)
Lemma for_each_reconcile_ok env xs :
  ∀ acc w,
  (∀ k, (k < length xs)%nat →
        call_fault (store_call env (w_calls w + k)) = None) →
  ∃ w' acc',
    for_each reconcile xs acc env w = (w', inr acc')
    ∧ w_calls w' = (w_calls w + length xs)%nat
    ∧ found acc'.1 = found acc.1 + Z.of_nat (length xs).
Proof.
  induction xs as [|x xs IH]; intros acc w Hok.
  - exists w, acc. split_and!; [done|cbn; lia|cbn; lia].
  - destruct (reconcile_ok acc x env w) as (x' & acc1 & _ & Hrec & Hfound & _).
    { specialize (Hok 0%nat). rewrite Nat.add_0_r in Hok. apply Hok. cbn. lia. }
    set (w1 := mkWorld _ _) in Hrec.
    destruct (IH acc1 w1) as (w' & acc' & Hrun & Hcalls & Hfound').
    { intros k Hk. cbn [w1 w_calls].
      replace (S (w_calls w) + k)%nat with (w_calls w + S k)%nat by lia.
      apply Hok. cbn. lia. }
    exists w', acc'. cbn [for_each]. rewrite (bind_ok _ _ _ _ _ _ Hrec).
    split_and!; [done|cbn in *; lia|].
    rewrite Hfound', Hfound. cbn [length]. lia.
Qed.

(** When the store rejects the upsert of one snapshot, the loop stops there:
    the tables are those the snapshots before it left, and the snapshots
    after it cause no store call. *)
Lemma for_each_reconcile_fault env pre data post err :
  ∀ acc w,
  (∀ k, (k < length pre)%nat →
        call_fault (store_call env (w_calls w + k)) = None) →
  call_fault (store_call env (w_calls w + length pre)) = Some err →
  ∃ w1 acc1,
    for_each reconcile pre acc env w = (w1, inr acc1)
    ∧ w_calls w1 = (w_calls w + length pre)%nat
    ∧ for_each reconcile (pre ++ data :: post) acc env w =
        (mkWorld (w_db w1) (S (w_calls w1)), inl err).
Proof.
  intros acc w Hok Hf.
  destruct (for_each_reconcile_ok env pre acc w Hok)
    as (w1 & acc1 & Hrun & Hcalls & _).
  exists w1, acc1. split_and!; try done.
  rewrite for_each_app, Hrun. cbn [for_each].
  apply bind_err, reconcile_fault. by rewrite Hcalls.
Qed.

(** *** Which tables a computation can change *)

Section respects.
Context (R : Db → Db → Prop) `{!PreOrder R}.

Lemma respects_ret {A : Type} (a : A) : respects R (mret a).
Proof. intros env w. reflexivity. Qed.

Lemma respects_throw {A : Type} (err : string) : respects R (throw (A:=A) err).
Proof. intros env w. reflexivity. Qed.

Lemma respects_bind {A B : Type} (m : M A) (k : A → M B) :
  respects R m → (∀ a, respects R (k a)) → respects R (m ≫= k).
Proof.
  intros Hm Hk env w. unfold mbind, M_bind.
  specialize (Hm env w). destruct (m env w) as [w1 [e|a]]; [done|].
  etrans; [exact Hm|apply Hk].
Qed.

Lemma respects_try_catch {A : Type} (m : M A) (h : string → M A) :
  respects R m → (∀ e, respects R (h e)) → respects R (try_catch m h).
Proof.
  intros Hm Hh env w. unfold try_catch.
  specialize (Hm env w). destruct (m env w) as [w1 [e|a]]; [|done].
  etrans; [exact Hm|apply Hh].
Qed.

Lemma respects_query {A : Type} (q : Z → Db → Db * A) :
  (∀ now d, R d (q now d).1) → respects R (query q).
Proof.
  intros Hq env w. unfold query.
  destruct (call_fault _); [reflexivity|].
  specialize (Hq (call_now (store_call env (w_calls w))) (w_db w)).
  by destruct (q _ _).
Qed.

Lemma respects_for_each {A S : Type} (body : S → A → M S) xs :
  (∀ acc x, respects R (body acc x)) → ∀ acc, respects R (for_each body xs acc).
Proof.
  intros Hbody. induction xs as [|x xs IH]; intros acc; cbn [for_each].
  - apply respects_ret.
  - apply respects_bind; [apply Hbody|apply IH].
Qed.

Lemma respects_geocode_listing listing : respects R (geocode_listing listing).
Proof.
  intros env w.
  destruct (geocode_listing_run listing env w) as (l' & -> & _). reflexivity.
Qed.

Lemma respects_reconcile acc listing :
  (∀ now data d, R d (upsert_tx now data d).1) →
  respects R (reconcile acc listing).
Proof.
  intros Hup. unfold reconcile.
  apply respects_bind; [apply respects_geocode_listing|]. intros l'.
  apply respects_bind; [by apply respects_query|]. intros r.
  destruct (isNew r); [|destruct (priceChanged r)]; apply respects_ret.
Qed.

Lemma respects_scrape maxListings maxPages site :
  respects R (scrape maxListings maxPages site).
Proof. destruct site; [apply respects_throw|apply respects_ret]. Qed.

Lemma respects_markInactiveListings activeIds :
  (∀ now d, R d (update_inactive activeIds now d).1) →
  respects R (markInactiveListings activeIds).
Proof.
  intros Hq. unfold markInactiveListings.
  case_decide; [apply respects_ret|by apply respects_query].
Qed.

End respects.

#[global] Instance same_listings_preorder : PreOrder same_listings.
Proof.
  split.
  - by intros d.
  - intros d1 d2 d3 [? ?] [? ?]. split; congruence.
Qed.

#[global] Instance same_runs_preorder : PreOrder same_runs.
Proof. split; [by intros d|]. intros d1 d2 d3; unfold same_runs; congruence. Qed.

#[global] Instance same_alerts_preorder : PreOrder same_alerts.
Proof.
  split; [by intros d|]. intros d1 d2 d3; unfold same_alerts; congruence.
Qed.

#[global] Instance active_kept_preorder : PreOrder active_kept.
Proof. split; [by intros d url|]. intros d1 d2 d3 H12 H23 url H. eauto. Qed.

Lemma upsert_tx_same_runs now data d : same_runs d (upsert_tx now data d).1.
Proof.
  unfold same_runs, upsert_tx.
  destruct (select_by_url _ _); cbn;
    destruct (price data) as [p|]; try done.
  - by destruct (p =? 0).
  - by destruct (_ && _).
Qed.

Lemma upsert_tx_same_alerts now data d : same_alerts d (upsert_tx now data d).1.
Proof.
  unfold same_alerts, upsert_tx.
  destruct (select_by_url _ _); cbn;
    destruct (price data) as [p|]; try done.
  - by destruct (p =? 0).
  - by destruct (_ && _).
Qed.

(** An upsert deactivates nothing. *)
Lemma upsert_tx_active_kept now data d : active_kept d (upsert_tx now data d).1.
Proof.
  intros url (l & Hl & Hurl & Hact).
  destruct (select_by_url (detailUrl data) d) as [|row rest] eqn:Hsel.
  - exists l. rewrite upsert_tx_new by done. cbn [fst].
    split; [|done].
    assert (l ∈ listings (insert_listing now data d).1) as Hin
      by (cbn; apply elem_of_app; by left).
    by destruct (truthy (price data)).
  - destruct (upsert_tx_listings_existing now _ _ _ _ Hsel) as (-> & _ & _).
    exists (if decide (l_id l = l_id row)
            then refresh_listing now (price data) (imageUrls data) l else l).
    split; [cbn; apply list_elem_of_fmap; by exists l|].
    by case_decide.
Qed.

(** After an upsert the snapshot's URL has an active Listing. *)
Lemma upsert_tx_active now data d :
  ∃ l, l ∈ listings (upsert_tx now data d).1
       ∧ l_realtor_url l = detailUrl data ∧ l_is_active l = true.
Proof.
  destruct (select_by_url (detailUrl data) d) as [|row rest] eqn:Hsel.
  - exists (listing_row now (listings_seq d + 1) data).
    rewrite upsert_tx_new by done. cbn [fst]. split; [|done].
    assert (listing_row now (listings_seq d + 1) data
              ∈ listings (insert_listing now data d).1) as Hin
      by (cbn; apply elem_of_app; right; left).
    by destruct (truthy (price data)).
  - destruct (upsert_tx_listings_existing now _ _ _ _ Hsel) as (-> & _ & _).
    assert (row ∈ select_by_url (detailUrl data) d) as Hrow
      by (rewrite Hsel; left).
    apply list_elem_of_filter in Hrow as [Hurl Hrow].
    exists (refresh_listing now (price data) (imageUrls data) row).
    split; [by apply update_listing_elem|done].
Qed.

(** *** A pass whose store rejects an upsert *)

Lemma runScrape_catch_run runId err env w :
  runScrape_catch runId err env w =
    match call_fault (store_call env (w_calls w)) with
    | None =>
        (mkWorld (update_run_failed runId err
                    (call_now (store_call env (w_calls w))) (w_db w)).1
                 (S (w_calls w)),
         inl err)
    | Some err' => (mkWorld (w_db w) (S (w_calls w)), inl err')
    end.
Proof.
  unfold runScrape_catch, failScrapeRun, mbind, M_bind.
  destruct (call_fault (store_call env (w_calls w))) as [err'|] eqn:Hf.
  - by rewrite (query_fault _ _ _ _ Hf).
  - by rewrite (query_ok _ _ _ Hf).
Qed.

Lemma runScrape_start env w maxListings site :
  call_fault (store_call env (w_calls w)) = None →
  runScrape maxListings site env w =
    try_catch (runScrape_try (scrape_runs_seq (w_db w) + 1) maxListings site)
      (runScrape_catch (scrape_runs_seq (w_db w) + 1)) env
      (mkWorld (insert_scrape_run (call_now (store_call env (w_calls w)))
                  (w_db w)).1
               (S (w_calls w))).
Proof.
  intros Hok. unfold runScrape.
  by rewrite (bind_ok _ _ _ _ _ _ (startScrapeRun_ok env w Hok)).
Qed.

Lemma runScrape_try_upsert_fault runId env w0 maxListings pages pre data post err :
  scrape_pages maxListings 50 pages [] ∅ = pre ++ data :: post →
  (∀ k, (k < length pre)%nat →
        call_fault (store_call env (w_calls w0 + k)) = None) →
  call_fault (store_call env (w_calls w0 + length pre)) = Some err →
  ∃ w1 acc1,
    for_each reconcile pre (stats0, []) env w0 = (w1, inr acc1)
    ∧ w_calls w1 = (w_calls w0 + length pre)%nat
    ∧ runScrape_try runId maxListings (inr pages) env w0 =
        (mkWorld (w_db w1) (S (w_calls w1)), inl err).
Proof.
  intros Hpages Hok Hf.
  destruct (for_each_reconcile_fault env pre data post err (stats0, []) w0 Hok Hf)
    as (w1 & acc1 & Hpre & Hcalls & Hrun).
  exists w1, acc1. split_and!; try done.
  unfold runScrape_try. cbn [scrape].
  rewrite (bind_ok _ _ env w0 w0 (pre ++ data :: post))
    by (by rewrite <- Hpages).
  by apply bind_err.
Qed.

(** The pass up to the rejected upsert: the [catch] block runs on the tables
    the snapshots before it left. *)
Lemma runScrape_upsert_fault env w maxListings pages pre data post err :
  scrape_pages maxListings 50 pages [] ∅ = pre ++ data :: post →
  (∀ k, (k ≤ length pre)%nat →
        call_fault (store_call env (w_calls w + k)) = None) →
  call_fault (store_call env (w_calls w + S (length pre))) = Some err →
  ∃ w1 acc1,
    for_each reconcile pre (stats0, []) env
      (mkWorld (insert_scrape_run (call_now (store_call env (w_calls w)))
                  (w_db w)).1
               (S (w_calls w)))
    = (w1, inr acc1)
    ∧ w_calls w1 = (w_calls w + S (length pre))%nat
    ∧ runScrape maxListings (inr pages) env w =
        runScrape_catch (scrape_runs_seq (w_db w) + 1) err env
          (mkWorld (w_db w1) (S (w_calls w1))).
Proof.
  intros Hpages Hok Hf.
  assert (call_fault (store_call env (w_calls w)) = None) as Hok0.
  { specialize (Hok 0%nat). rewrite Nat.add_0_r in Hok. apply Hok. lia. }
  set (runId := scrape_runs_seq (w_db w) + 1) in *.
  set (w0 := mkWorld _ _).
  destruct (runScrape_try_upsert_fault runId env w0 maxListings pages pre data
              post err Hpages) as (w1 & acc1 & Hpre & Hcalls & Htry).
  { intros k Hk. cbn [w0 w_calls].
    replace (S (w_calls w) + k)%nat with (w_calls w + S k)%nat by lia.
    apply Hok. lia. }
  { cbn [w0 w_calls].
    by replace (S (w_calls w) + length pre)%nat
      with (w_calls w + S (length pre))%nat by lia. }
  cbn [w0 w_calls] in Hcalls.
  exists w1, acc1. split_and!; [done|lia|].
  rewrite (runScrape_start _ _ _ _ Hok0). unfold try_catch.
  fold runId w0. by rewrite Htry.
Qed.

(** C5 (as amended): a store failure on the upsert of one snapshot is not
    recovered per snapshot, it aborts the pass.  With the snapshots [pre]
    upserted, the upsert of [data] rejected with [err] and [post] still to
    come: the rejected transaction leaves the tables as [pre] left them,
    [failScrapeRun] is called with the message, the pass rejects, and it has
    made exactly the store calls for the run record, for [pre], for [data]
    and for [failScrapeRun]: no snapshot of [post] is processed and no
    retirement is run. *)
Theorem failed_upsert_aborts_pass (env : Env) (w : World) (maxListings : nat)
    (pages : list (list Snapshot)) (pre : list Snapshot) (data : Snapshot)
    (post : list Snapshot) (err : string) :
  scrape_pages maxListings 50 pages [] ∅ = pre ++ data :: post →
  (∀ k, (k ≤ length pre)%nat →
        call_fault (store_call env (w_calls w + k)) = None) →
  call_fault (store_call env (w_calls w + S (length pre))) = Some err →
  ∃ w0 runId w1 acc1 w2 err',
    startScrapeRun env w = (w0, inr runId)
    ∧ for_each reconcile pre (stats0, []) env w0 = (w1, inr acc1)
    ∧ runScrape maxListings (inr pages) env w = (w2, inl err')
    ∧ w_calls w2 = (w_calls w + length pre + 3)%nat
    ∧ same_listings (w_db w1) (w_db w2)
    ∧ match call_fault (store_call env (w_calls w + length pre + 2)) with
      | None =>
          err' = err
          ∧ w_db w2 =
              (update_run_failed runId err
                 (call_now (store_call env (w_calls w + length pre + 2)))
                 (w_db w1)).1
      | Some e => err' = e ∧ w_db w2 = w_db w1
      end.
Proof.
  intros Hpages Hok Hf.
  assert (call_fault (store_call env (w_calls w)) = None) as Hok0.
  { specialize (Hok 0%nat). rewrite Nat.add_0_r in Hok. apply Hok. lia. }
  destruct (runScrape_upsert_fault env w maxListings pages pre data post err
              Hpages Hok Hf) as (w1 & acc1 & Hpre & Hcalls & Hrun).
  rewrite runScrape_catch_run in Hrun. cbn [w_db w_calls] in Hrun.
  replace (S (w_calls w1)) with (w_calls w + length pre + 2)%nat in Hrun by lia.
  eexists _, _, w1, acc1.
  destruct (call_fault (store_call env (w_calls w + length pre + 2)))
    as [e|] eqn:Hfail; eexists _, _;
    (split; [exact (startScrapeRun_ok env w Hok0)|]);
    split_and!; first [done|exact Hrun|cbn; lia].
Qed.

(** *** A failed pass *)

Lemma insert_scrape_run_elem now d :
  ∃ run, run ∈ scrape_runs (insert_scrape_run now d).1
         ∧ sr_id run = scrape_runs_seq d + 1 ∧ sr_status run = running.
Proof.
  eexists. split; [cbn; apply elem_of_app; right; left|]. done.
Qed.

Lemma update_run_failed_marks runId err now d :
  (∃ run, run ∈ scrape_runs d ∧ sr_id run = runId) →
  marked_failed runId err (update_run_failed runId err now d).1.
Proof.
  intros (run & Hrun & Hid). split.
  - exists (fail_run now err run). split; [|done].
    cbn. apply list_elem_of_fmap. exists run. by rewrite decide_True.
  - cbn. intros r (r0 & -> & Hr0)%list_elem_of_fmap. case_decide; [|done].
    intros _. cbn. eauto.
Qed.

Lemma reconcile_inv acc listing env w w1 acc1 :
  reconcile acc listing env w = (w1, inr acc1) →
  ∃ listing' now,
    detailUrl listing' = detailUrl listing
    ∧ w_db w1 = (upsert_tx now listing' (w_db w)).1.
Proof.
  intros Hrec.
  destruct (call_fault (store_call env (w_calls w))) as [err|] eqn:Hf.
  - by rewrite (reconcile_fault _ _ _ _ _ Hf) in Hrec.
  - destruct (reconcile_ok acc listing env w Hf)
      as (listing' & acc' & Hgeo & Hrec' & _).
    destruct (geocode_listing_run listing env w) as (l2 & Hgeo2 & Hurl & _).
    rewrite Hgeo in Hgeo2. injection Hgeo2 as <-.
    rewrite Hrec' in Hrec. injection Hrec as <- _.
    by exists listing', (call_now (store_call env (w_calls w))).
Qed.

(** Every snapshot the loop got through has an active Listing afterwards. *)
Lemma for_each_reconcile_active env xs :
  ∀ acc w w' acc',
  for_each reconcile xs acc env w = (w', inr acc') →
  ∀ s, s ∈ xs →
  ∃ l, l ∈ listings (w_db w') ∧ l_realtor_url l = detailUrl s
       ∧ l_is_active l = true.
Proof.
  induction xs as [|x xs IH]; intros acc w w' acc' Hrun s Hs;
    [by apply elem_of_nil in Hs|].
  cbn [for_each] in Hrun. unfold mbind, M_bind in Hrun.
  destruct (reconcile acc x env w) as [w1 [e|acc1]] eqn:Hrec; [done|].
  apply elem_of_cons in Hs as [->|Hs]; [|by eapply IH].
  destruct (reconcile_inv _ _ _ _ _ _ Hrec) as (x' & now & Hurl & Hdb).
  pose proof (respects_for_each active_kept reconcile xs
                (λ a y, respects_reconcile active_kept a y
                          upsert_tx_active_kept) acc1 env w1) as Hkept.
  rewrite Hrun in Hkept. apply Hkept. rewrite Hdb, <- Hurl.
  apply upsert_tx_active.
Qed.

Lemma for_each_reconcile_same_runs env xs acc w :
  scrape_runs (w_db (for_each reconcile xs acc env w).1) = scrape_runs (w_db w).
Proof.
  apply (respects_for_each same_runs reconcile xs
           (λ a y, respects_reconcile same_runs a y upsert_tx_same_runs)).
Qed.

(** The ids pushed to [activeListingIds]: one per snapshot the loop got
    through. *)
Lemma reconcile_ids acc listing env w w1 acc1 :
  reconcile acc listing env w = (w1, inr acc1) →
  length acc1.2 = S (length acc.2).
Proof.
  intros Hrec.
  destruct (call_fault (store_call env (w_calls w))) as [err|] eqn:Hf.
  - by rewrite (reconcile_fault _ _ _ _ _ Hf) in Hrec.
  - destruct (reconcile_ok acc listing env w Hf)
      as (listing' & acc' & _ & Hrec' & _ & Hids).
    rewrite Hrec' in Hrec. injection Hrec as _ <-.
    rewrite Hids, length_app. cbn. lia.
Qed.

Lemma for_each_reconcile_ids env xs :
  ∀ acc w w' acc',
  for_each reconcile xs acc env w = (w', inr acc') →
  length acc'.2 = (length acc.2 + length xs)%nat.
Proof.
  induction xs as [|x xs IH]; intros acc w w' acc' Hrun.
  - injection Hrun as _ <-. cbn. lia.
  - cbn [for_each] in Hrun. unfold mbind, M_bind in Hrun.
    destruct (reconcile acc x env w) as [w1 [e|acc1]] eqn:Hrec; [done|].
    rewrite (IH _ _ _ _ Hrun), (reconcile_ids _ _ _ _ _ _ Hrec). cbn. lia.
Qed.

(** The pass up to a rejected retirement statement: every snapshot was
    upserted, and the [catch] block runs on the tables the loop left. *)
Lemma runScrape_retire_fault env w maxListings pages batch err :
  scrape_pages maxListings 50 pages [] ∅ = batch →
  batch ≠ [] →
  (∀ k, (k ≤ length batch)%nat →
        call_fault (store_call env (w_calls w + k)) = None) →
  call_fault (store_call env (w_calls w + S (length batch))) = Some err →
  ∃ w1 acc1,
    for_each reconcile batch (stats0, []) env
      (mkWorld (insert_scrape_run (call_now (store_call env (w_calls w)))
                  (w_db w)).1
               (S (w_calls w)))
    = (w1, inr acc1)
    ∧ w_calls w1 = (w_calls w + S (length batch))%nat
    ∧ runScrape maxListings (inr pages) env w =
        runScrape_catch (scrape_runs_seq (w_db w) + 1) err env
          (mkWorld (w_db w1) (S (w_calls w1))).
Proof.
  intros Hpages Hbatch Hok Hf.
  assert (call_fault (store_call env (w_calls w)) = None) as Hok0.
  { specialize (Hok 0%nat). rewrite Nat.add_0_r in Hok. apply Hok. lia. }
  set (runId := scrape_runs_seq (w_db w) + 1) in *.
  set (w0 := mkWorld _ _).
  destruct (for_each_reconcile_ok env batch (stats0, []) w0)
    as (w1 & acc1 & Hloop & Hcalls & _).
  { intros k Hk. cbn [w0 w_calls].
    replace (S (w_calls w) + k)%nat with (w_calls w + S k)%nat by lia.
    apply Hok. lia. }
  cbn [w0 w_calls] in Hcalls.
  exists w1, acc1. split_and!; [done|lia|].
  rewrite (runScrape_start _ _ _ _ Hok0). unfold try_catch.
  fold runId w0.
  assert (runScrape_try runId maxListings (inr pages) env w0
          = (mkWorld (w_db w1) (S (w_calls w1)), inl err)) as ->; [|done].
  unfold runScrape_try. cbn [scrape].
  rewrite (bind_ok _ _ env w0 w0 batch) by (by rewrite <- Hpages).
  rewrite (bind_ok _ _ _ _ _ _ Hloop).
  apply bind_err. unfold markInactiveListings.
  apply for_each_reconcile_ids in Hloop. cbn in Hloop.
  rewrite decide_False by (destruct batch; [done|cbn in Hloop; lia]).
  apply query_fault.
  by replace (w_calls w1) with (w_calls w + S (length batch))%nat by lia.
Qed.

(** A pass that observed no snapshot issues no retirement statement; when
    its [completeScrapeRun] is rejected, the [catch] block runs on the tables
    as they were after the start. *)
Lemma runScrape_empty_complete_fault env w maxListings pages err :
  scrape_pages maxListings 50 pages [] ∅ = [] →
  call_fault (store_call env (w_calls w)) = None →
  call_fault (store_call env (S (w_calls w))) = Some err →
  runScrape maxListings (inr pages) env w =
    runScrape_catch (scrape_runs_seq (w_db w) + 1) err env
      (mkWorld (insert_scrape_run (call_now (store_call env (w_calls w)))
                  (w_db w)).1
               (S (S (w_calls w)))).
Proof.
  intros Hpages Hok0 Hf.
  rewrite (runScrape_start _ _ _ _ Hok0). unfold try_catch.
  set (runId := scrape_runs_seq (w_db w) + 1). set (w0 := mkWorld _ _).
  assert (runScrape_try runId maxListings (inr pages) env w0
          = (mkWorld (w_db w0) (S (w_calls w0)), inl err)) as ->; [|done].
  unfold runScrape_try. cbn [scrape]. rewrite Hpages.
  rewrite (bind_ok _ _ env w0 w0 []) by done. cbn [for_each].
  rewrite (bind_ok _ _ env w0 w0 (stats0, [])) by done.
  unfold markInactiveListings. cbn [snd]. rewrite decide_True by done.
  rewrite (bind_ok _ _ env w0 w0 tt) by done.
  apply bind_err. unfold completeScrapeRun. by apply query_fault.
Qed.

(** C6 (as amended): when a pass fails before any retirement was applied,
    that is during extraction, at the upsert of a snapshot, at the retirement
    statement itself or, for a pass that observed no snapshot and so issues
    no retirement statement, at [completeScrapeRun], and the store accepts
    the [failScrapeRun] update, the ScrapeRun is marked failed with the error
    message as detail, no retirement is applied, and the listings and price
    history are exactly as the successful upserts before the failure left
    them; each snapshot upserted before the failure has an active Listing. *)
Theorem failed_pass_keeps_upserts (env : Env) (w : World) (maxListings : nat) :
  call_fault (store_call env (w_calls w)) = None →
  ∃ w0 runId,
    startScrapeRun env w = (w0, inr runId)
    ∧ (∀ err,
         call_fault (store_call env (S (w_calls w))) = None →
         ∃ w2,
           runScrape maxListings (inl err) env w = (w2, inl err)
           ∧ marked_failed runId err (w_db w2)
           ∧ same_listings (w_db w) (w_db w2))
    ∧ (∀ pages pre data post err,
         scrape_pages maxListings 50 pages [] ∅ = pre ++ data :: post →
         (∀ k, (k ≤ length pre)%nat →
               call_fault (store_call env (w_calls w + k)) = None) →
         call_fault (store_call env (w_calls w + S (length pre))) = Some err →
         call_fault (store_call env (w_calls w + length pre + 2)) = None →
         ∃ w1 acc1 w2,
           for_each reconcile pre (stats0, []) env w0 = (w1, inr acc1)
           ∧ runScrape maxListings (inr pages) env w = (w2, inl err)
           ∧ marked_failed runId err (w_db w2)
           ∧ same_listings (w_db w1) (w_db w2)
           ∧ ∀ s, s ∈ pre →
               ∃ l, l ∈ listings (w_db w2) ∧ l_realtor_url l = detailUrl s
                    ∧ l_is_active l = true)
    ∧ (∀ pages batch err,
         scrape_pages maxListings 50 pages [] ∅ = batch →
         batch ≠ [] →
         (∀ k, (k ≤ length batch)%nat →
               call_fault (store_call env (w_calls w + k)) = None) →
         call_fault (store_call env (w_calls w + S (length batch))) = Some err →
         call_fault (store_call env (w_calls w + length batch + 2)) = None →
         ∃ w1 acc1 w2,
           for_each reconcile batch (stats0, []) env w0 = (w1, inr acc1)
           ∧ runScrape maxListings (inr pages) env w = (w2, inl err)
           ∧ marked_failed runId err (w_db w2)
           ∧ same_listings (w_db w1) (w_db w2)
           ∧ ∀ s, s ∈ batch →
               ∃ l, l ∈ listings (w_db w2) ∧ l_realtor_url l = detailUrl s
                    ∧ l_is_active l = true)
    ∧ (∀ pages err,
         scrape_pages maxListings 50 pages [] ∅ = [] →
         call_fault (store_call env (S (w_calls w))) = Some err →
         call_fault (store_call env (S (S (w_calls w)))) = None →
         ∃ w2,
           runScrape maxListings (inr pages) env w = (w2, inl err)
           ∧ marked_failed runId err (w_db w2)
           ∧ same_listings (w_db w) (w_db w2)).
Proof.
  intros Hok0. eexists _, _. split; [exact (startScrapeRun_ok env w Hok0)|].
  set (now0 := call_now (store_call env (w_calls w))).
  set (w0 := mkWorld _ _). set (runId := scrape_runs_seq (w_db w) + 1).
  destruct (insert_scrape_run_elem now0 (w_db w)) as (run & Hrun & Hid & _).
  split_and!.
  - intros err Hok1.
    rewrite (runScrape_start _ _ _ _ Hok0). fold now0 w0 runId.
    unfold try_catch, runScrape_try. cbn [scrape].
    unfold mbind at 1, M_bind at 1, throw at 1.
    rewrite runScrape_catch_run. cbn [w0 w_calls w_db]. rewrite Hok1.
    eexists. split; [reflexivity|]. cbn [w_db]. split; [|done].
    apply update_run_failed_marks. by exists run.
  - intros pages pre data post err Hpages Hok Hf Hokf.
    destruct (runScrape_upsert_fault env w maxListings pages pre data post err
                Hpages Hok Hf) as (w1 & acc1 & Hpre & Hcalls & Hpass).
    fold now0 w0 in Hpre. fold runId in Hpass.
    rewrite runScrape_catch_run in Hpass. cbn [w_db w_calls] in Hpass.
    replace (S (w_calls w1)) with (w_calls w + length pre + 2)%nat in Hpass
      by lia.
    rewrite Hokf in Hpass.
    exists w1, acc1. eexists. split; [exact Hpre|]. split; [exact Hpass|].
    cbn [w_db]. split_and!.
    + apply update_run_failed_marks. exists run. split; [|done].
      pose proof (for_each_reconcile_same_runs env pre (stats0, []) w0) as Hsr.
      rewrite Hpre in Hsr. cbn [fst] in Hsr. by rewrite Hsr.
    + done.
    + intros s Hs. by apply (for_each_reconcile_active env pre _ _ _ _ Hpre).
  - intros pages batch err Hpages Hbatch Hok Hf Hokf.
    destruct (runScrape_retire_fault env w maxListings pages batch err
                Hpages Hbatch Hok Hf) as (w1 & acc1 & Hloop & Hcalls & Hpass).
    fold now0 w0 in Hloop. fold runId in Hpass.
    rewrite runScrape_catch_run in Hpass. cbn [w_db w_calls] in Hpass.
    replace (S (w_calls w1)) with (w_calls w + length batch + 2)%nat in Hpass
      by lia.
    rewrite Hokf in Hpass.
    exists w1, acc1. eexists. split; [exact Hloop|]. split; [exact Hpass|].
    cbn [w_db]. split_and!.
    + apply update_run_failed_marks. exists run. split; [|done].
      pose proof (for_each_reconcile_same_runs env batch (stats0, []) w0)
        as Hsr.
      rewrite Hloop in Hsr. cbn [fst] in Hsr. by rewrite Hsr.
    + done.
    + intros s Hs.
      by apply (for_each_reconcile_active env batch _ _ _ _ Hloop).
  - intros pages err Hpages Hf Hokf.
    rewrite (runScrape_empty_complete_fault _ _ _ _ err Hpages Hok0 Hf).
    fold now0 runId. rewrite runScrape_catch_run. cbn [w_db w_calls].
    rewrite Hokf. eexists. split; [reflexivity|]. cbn [w_db]. split; [|done].
    apply update_run_failed_marks. by exists run.
Qed.

(** *** Alerts and run records *)

(** No run of [runScrape], resolved or rejected, writes the [alerts] table:
    [createAlert] is not called by the pass. *)
Lemma runScrape_same_alerts maxListings site :
  respects same_alerts (runScrape maxListings site).
Proof.
  unfold runScrape.
  apply (respects_bind same_alerts); [by apply (respects_query same_alerts)|]. intros runId.
  apply (respects_try_catch same_alerts).
  - unfold runScrape_try.
    apply (respects_bind same_alerts); [by apply (respects_scrape same_alerts)|]. intros listings.
    apply (respects_bind same_alerts).
    { apply (respects_for_each same_alerts). intros acc x.
      apply (respects_reconcile same_alerts). apply upsert_tx_same_alerts. }
    intros acc.
    apply (respects_bind same_alerts).
    { by apply (respects_markInactiveListings same_alerts). }
    intros _. apply (respects_bind same_alerts); [by apply (respects_query same_alerts)|].
    intros _. by apply (respects_ret same_alerts).
  - intros err. unfold runScrape_catch.
    apply (respects_bind same_alerts); [by apply (respects_query same_alerts)|].
    intros _. by apply (respects_throw same_alerts).
Qed.

(** [createAlert] itself appends exactly one Alert with the values given. *)
Lemma createAlert_inserts_one env w userId listing_id type savedSearchId
    old_price new_price :
  call_fault (store_call env (w_calls w)) = None →
  ∃ w' a,
    createAlert userId listing_id type savedSearchId old_price new_price env w
      = (w', inr tt)
    ∧ alerts (w_db w') = alerts (w_db w) ++ [a]
    ∧ a_user_id a = userId ∧ a_listing_id a = listing_id
    ∧ a_alert_type a = type ∧ a_saved_search_id a = savedSearchId
    ∧ a_old_price a = old_price ∧ a_new_price a = new_price.
Proof.
  intros Hok. unfold createAlert. rewrite (query_ok _ _ _ Hok).
  eexists _, _. split; [reflexivity|]. cbn. done.
Qed.

Lemma count_running_insert now d :
  count_running (insert_scrape_run now d).1 = S (count_running d).
Proof.
  unfold count_running. cbn [insert_scrape_run fst scrape_runs set_scrape_runs].
  rewrite filter_app, length_app, filter_cons_True by done. cbn. lia.
Qed.

(** With the store answering, a pass runs to the end. *)
Lemma runScrape_ok env w maxListings pages :
  no_faults env →
  ∃ w' stats,
    runScrape maxListings (inr pages) env w = (w', inr stats)
    ∧ found stats
      = Z.of_nat (length (scrape_pages maxListings 50 pages [] ∅)).
Proof.
  intros Hnf. rewrite (runScrape_start _ _ _ _ (Hnf _)).
  set (w0 := mkWorld _ _). set (runId := scrape_runs_seq (w_db w) + 1).
  set (listings := scrape_pages maxListings 50 pages [] ∅).
  destruct (for_each_reconcile_ok env listings (stats0, []) w0)
    as (w1 & acc1 & Hloop & _ & Hfound); [by intros; apply Hnf|].
  assert (∃ w2, markInactiveListings acc1.2 env w1 = (w2, inr tt))
    as (w2 & Hretire).
  { unfold markInactiveListings. case_decide; [by eexists|].
    rewrite (query_ok _ _ _ (Hnf _)). by eexists. }
  unfold try_catch, runScrape_try. cbn [scrape].
  rewrite (bind_ok _ _ env w0 w0 listings) by done.
  rewrite (bind_ok _ _ _ _ _ _ Hloop), (bind_ok _ _ _ _ _ _ Hretire).
  unfold completeScrapeRun.
  rewrite (bind_ok _ _ _ _ _ _ (query_ok _ env w2 (Hnf _))).
  eexists _, _. split; [reflexivity|]. rewrite Hfound. cbn. lia.
Qed.

(** C8 (as amended): nothing keeps two passes from overlapping.
    [startScrapeRun] checks no marker: whenever the store answers it inserts a
    new ScrapeRun with status running, so the number of running ScrapeRuns
    grows by one at every start, however many are running already; and with
    the store answering [runScrape] runs to the end whatever the
    [scrape_runs] table holds. *)
Theorem pass_starts_whatever_is_running (env : Env) (w : World)
    (maxListings : nat) (pages : list (list Snapshot)) :
  no_faults env →
  (∃ w0 runId run,
     startScrapeRun env w = (w0, inr runId)
     ∧ scrape_runs (w_db w0) = scrape_runs (w_db w) ++ [run]
     ∧ sr_id run = runId ∧ sr_status run = running
     ∧ count_running (w_db w0) = S (count_running (w_db w)))
  ∧ (∃ w' stats, runScrape maxListings (inr pages) env w = (w', inr stats)).
Proof.
  intros Hnf. split.
  - eexists _, _, _. split; [exact (startScrapeRun_ok env w (Hnf _))|].
    cbn [w_db]. split; [reflexivity|]. split_and!; try done.
    apply count_running_insert.
  - destruct (runScrape_ok env w maxListings pages Hnf) as (w' & stats & H & _).
    by exists w', stats.
Qed.

(** * The pass as a whole *)

(** ** The loop of [runScrape] is the batch of upserts *)

Lemma geocode_listing_eq listing env w :
  geocode_listing listing env w = (w, inr (geocoded env listing)).
Proof.
  unfold geocode_listing, geocoded.
  destruct (negb (truthy (lat listing)) && truthy_str (street listing));
    [|done].
  unfold mbind, M_bind, geocode.
  by destruct (geocodeAddress env (fullAddress listing)) as [[la ln]|].
Qed.

Lemma geocoded_detailUrl env listing :
  detailUrl (geocoded env listing) = detailUrl listing.
Proof.
  unfold geocoded. destruct (_ && _); [|done].
  by destruct (geocodeAddress env (fullAddress listing)) as [[la ln]|].
Qed.

Lemma geocoded_price env listing :
  price (geocoded env listing) = price listing.
Proof.
  unfold geocoded. destruct (_ && _); [|done].
  by destruct (geocodeAddress env (fullAddress listing)) as [[la ln]|].
Qed.

Lemma reconcile_eq acc listing env w :
  reconcile acc listing env w =
    match upsertListing (geocoded env listing) env w with
    | (w', inr result) => (w', inr (tally acc result))
    | (w', inl err) => (w', inl err)
    end.
Proof.
  unfold reconcile. rewrite (bind_ok _ _ _ _ _ _ (geocode_listing_eq _ _ _)).
  unfold mbind, M_bind, tally.
  destruct (upsertListing (geocoded env listing) env w) as [w' [err|r]];
    [done|].
  by destruct (isNew r); [|destruct (priceChanged r)].
Qed.

Lemma for_each_reconcile_batch env xs :
  ∀ acc w,
  for_each reconcile xs acc env w =
    match upsert_batch (geocoded env <$> xs) env w with
    | (w', inr rs) => (w', inr (foldl tally acc rs))
    | (w', inl err) => (w', inl err)
    end.
Proof.
  induction xs as [|x xs IH]; intros acc w; [done|].
  rewrite fmap_cons. cbn [for_each upsert_batch].
  unfold mbind, M_bind, mret, M_ret. rewrite reconcile_eq.
  destruct (upsertListing (geocoded env x) env w) as [w1 [err|r]]; [done|].
  rewrite IH.
  by destruct (upsert_batch (geocoded env <$> xs) env w1) as [w2 [err|rs]].
Qed.

(** Results that are neither new nor changed only move [found] and
    [updated]. *)
Lemma tally_unchanged rs :
  Forall (λ r, isNew r = false ∧ priceChanged r = false) rs →
  ∀ acc,
  new (foldl tally acc rs).1 = new acc.1
  ∧ priceChanges (foldl tally acc rs).1 = priceChanges acc.1
  ∧ updated (foldl tally acc rs).1 = updated acc.1 + Z.of_nat (length rs)
  ∧ found (foldl tally acc rs).1 = found acc.1 + Z.of_nat (length rs).
Proof.
  induction 1 as [|r rs [Hn Hc] _ IH]; intros acc; cbn [foldl length].
  - split_and!; lia.
  - destruct (IH (tally acc r)) as (-> & -> & -> & ->).
    unfold tally. rewrite Hn, Hc. cbn. split_and!; lia.
Qed.

(** ** [scrape] hands over one snapshot per URL *)

Lemma add_page_inv maxListings page :
  Forall (λ s, truthy_str (detailUrl s) = true) page →
  ∀ allListings (seenUrls : gset string),
  NoDup (detailUrl <$> allListings) →
  (∀ s, s ∈ allListings → detailUrl s ∈ seenUrls) →
  NoDup (detailUrl <$> (add_page maxListings page allListings seenUrls).1)
  ∧ ∀ s, s ∈ (add_page maxListings page allListings seenUrls).1 →
         detailUrl s ∈ (add_page maxListings page allListings seenUrls).2.
Proof.
  induction 1 as [|x page Hx _ IH]; intros allListings seenUrls Hnd Hseen;
    [done|].
  cbn [add_page]. case_decide; [done|]. rewrite Hx. cbn [andb].
  destruct (bool_decide_reflect (detailUrl x ∈ seenUrls)) as [Hin|Hnot].
  - by apply IH.
  - apply IH.
    + rewrite fmap_app. apply NoDup_app. split_and!; [done| |apply NoDup_singleton].
      intros url (s & -> & Hs)%list_elem_of_fmap. cbn.
      rewrite list_elem_of_singleton. intros Heq. apply Hnot. rewrite <- Heq.
      by apply Hseen.
    + intros s [Hs|Hs]%elem_of_app.
      * apply elem_of_union. right. by apply Hseen.
      * apply list_elem_of_singleton in Hs as ->. apply elem_of_union. left.
        by apply elem_of_singleton.
Qed.

Lemma scrape_pages_inv maxListings pages :
  Forall (Forall (λ s, truthy_str (detailUrl s) = true)) pages →
  ∀ pagesLeft allListings (seenUrls : gset string),
  NoDup (detailUrl <$> allListings) →
  (∀ s, s ∈ allListings → detailUrl s ∈ seenUrls) →
  NoDup (detailUrl
           <$> scrape_pages maxListings pagesLeft pages allListings seenUrls).
Proof.
  induction 1 as [|page pages Hpage _ IH];
    intros pagesLeft allListings seenUrls Hnd Hseen; cbn [scrape_pages];
    [done|].
  destruct pagesLeft as [|pagesLeft]; cbn [scrape_pages]; [done|].
  case_decide; [done|].
  destruct (add_page_inv maxListings page Hpage allListings seenUrls Hnd Hseen)
    as [Hnd' Hseen'].
  destruct (add_page maxListings page allListings seenUrls) as [all' seen'].
  case_decide; [done|]. by apply IH.
Qed.

(** Whatever the pages hold, [scrape] returns at most one snapshot per
    source URL, as long as every card has a URL. *)
Lemma scrape_pages_NoDup maxListings maxPages pages :
  Forall (Forall (λ s, truthy_str (detailUrl s) = true)) pages →
  NoDup (detailUrl <$> scrape_pages maxListings maxPages pages [] ∅).
Proof.
  intros Hpages. apply scrape_pages_inv; [done|constructor|].
  intros s Hs. by apply elem_of_nil in Hs.
Qed.

(** ** Running the same pass twice *)

#[global] Instance same_prices_preorder : PreOrder same_prices.
Proof.
  split.
  - by intros d.
  - intros d1 d2 d3 (? & ? & ?) (? & ? & ?). split_and!; congruence.
Qed.

Lemma same_prices_ids d d' :
  same_prices d d' → l_id <$> listings d' = l_id <$> listings d.
Proof.
  intros (Hk & _ & _).
  apply (f_equal (fmap (λ k : Z * string * option Z, k.1.1))) in Hk.
  by rewrite <- !list_fmap_compose in Hk.
Qed.

Lemma same_prices_urls d d' :
  same_prices d d' →
  l_realtor_url <$> listings d' = l_realtor_url <$> listings d.
Proof.
  intros (Hk & _ & _).
  apply (f_equal (fmap (λ k : Z * string * option Z, k.1.2))) in Hk.
  by rewrite <- !list_fmap_compose in Hk.
Qed.

Lemma wf_db_same_prices d d' : same_prices d d' → wf_db d → wf_db d'.
Proof.
  intros Hsame [Hids Hurls Hseq].
  pose proof (same_prices_ids _ _ Hsame) as Hi.
  pose proof (same_prices_urls _ _ Hsame) as Hu.
  destruct Hsame as (_ & Hs & _). split.
  - by rewrite Hi.
  - by rewrite Hu.
  - rewrite Hs.
    apply (Forall_fmap l_id (λ i, i ≤ listings_seq d)). rewrite Hi.
    by apply Forall_fmap.
Qed.

Lemma stored_price_same_prices url d d' :
  same_prices d d' → stored_price url d' = stored_price url d.
Proof.
  intros (Hk & _ & _). unfold stored_price, select_by_url.
  revert Hk. generalize (listings d'). induction (listings d) as [|l ls IH];
    intros ls' Hk.
  - by apply fmap_nil_inv in Hk as ->.
  - destruct ls' as [|l' ls']; [done|].
    rewrite !fmap_cons in Hk. injection Hk as Hid Hurl Hprice Hk.
    rewrite !filter_cons, Hurl.
    destruct (decide (l_realtor_url l = url)); [cbn; by rewrite Hprice|].
    by apply IH.
Qed.

Lemma insert_scrape_run_same_prices now d :
  same_prices d (insert_scrape_run now d).1.
Proof. done. Qed.

Lemma update_run_completed_same_prices runId stats now d :
  same_prices d (update_run_completed runId stats now d).1.
Proof. done. Qed.

(** Retirement touches neither keys nor prices. *)
Lemma update_inactive_same_prices activeIds now d :
  same_prices d (update_inactive activeIds now d).1.
Proof.
  split_and!; try done. cbn. rewrite <- list_fmap_compose.
  apply list_fmap_ext. intros _ l _. cbn.
  by destruct (retire_cond now activeIds l).
Qed.

Lemma upsert_batch_ok env batch :
  no_faults env → ∀ w, ∃ w' rs, upsert_batch batch env w = (w', inr rs).
Proof.
  intros Hnf. induction batch as [|data rest IH]; intros w; [by eexists _, _|].
  pose proof (upsertListing_ok env w data (Hnf _)) as Hup.
  set (w1 := mkWorld _ _) in Hup. destruct (IH w1) as (w' & rs & Hrun).
  eexists _, _. by rewrite (upsert_batch_cons _ _ _ _ _ _ Hup), Hrun.
Qed.

(** A pass with the store answering: a run record, the batch of upserts,
    retirement, and the closing of the run; the last two leave keys, prices
    and price history as the upserts left them. *)
Lemma runScrape_resolves env w maxListings pages :
  no_faults env →
  ∃ w1 rs w',
    upsert_batch (geocoded env <$> scrape_pages maxListings 50 pages [] ∅) env
      (mkWorld (insert_scrape_run (call_now (store_call env (w_calls w)))
                  (w_db w)).1
               (S (w_calls w)))
    = (w1, inr rs)
    ∧ runScrape maxListings (inr pages) env w
      = (w', inr (foldl tally (stats0, []) rs).1)
    ∧ same_prices (w_db w1) (w_db w').
Proof.
  intros Hnf. rewrite (runScrape_start _ _ _ _ (Hnf _)).
  set (w0 := mkWorld _ _). set (runId := scrape_runs_seq (w_db w) + 1).
  set (listings := scrape_pages maxListings 50 pages [] ∅).
  destruct (upsert_batch_ok env (geocoded env <$> listings) Hnf w0)
    as (w1 & rs & Hbatch).
  pose proof (for_each_reconcile_batch env listings (stats0, []) w0) as Hloop.
  rewrite Hbatch in Hloop. set (acc := foldl tally (stats0, []) rs) in *.
  assert (∃ w2, markInactiveListings acc.2 env w1 = (w2, inr tt)
                ∧ same_prices (w_db w1) (w_db w2)) as (w2 & Hretire & Hsame).
  { unfold markInactiveListings. case_decide; [by eexists|].
    rewrite (query_ok _ _ _ (Hnf _)). eexists. split; [reflexivity|].
    apply update_inactive_same_prices. }
  exists w1, rs. eexists. split; [done|].
  unfold try_catch, runScrape_try. cbn [scrape].
  rewrite (bind_ok _ _ env w0 w0 listings) by done.
  rewrite (bind_ok _ _ _ _ _ _ Hloop), (bind_ok _ _ _ _ _ _ Hretire).
  unfold completeScrapeRun.
  rewrite (bind_ok _ _ _ _ _ _ (query_ok _ env w2 (Hnf _))).
  split; [reflexivity|]. cbn [w_db fst]. etrans; [exact Hsame|].
  apply update_run_completed_same_prices.
Qed.

(** Idempotence of the pass ([runScrape] run twice over the same pages): the
    second pass finds nothing new and no price change, counts every snapshot
    as updated, and appends no PricePoint. *)
Lemma runScrape_twice env w maxListings pages :
  no_faults env →
  wf_db (w_db w) →
  Forall (Forall (λ s, truthy_str (detailUrl s) = true)) pages →
  ∃ w1 stats1 w2 stats2,
    runScrape maxListings (inr pages) env w = (w1, inr stats1)
    ∧ runScrape maxListings (inr pages) env w1 = (w2, inr stats2)
    ∧ new stats2 = 0 ∧ priceChanges stats2 = 0
    ∧ updated stats2 = found stats2
    ∧ price_history (w_db w2) = price_history (w_db w1).
Proof.
  intros Hnf Hwf Hpages.
  set (batch := geocoded env <$> scrape_pages maxListings 50 pages [] ∅).
  assert (NoDup (detailUrl <$> batch)) as Hnd.
  { unfold batch. rewrite <- list_fmap_compose.
    rewrite (list_fmap_ext (detailUrl ∘ geocoded env) detailUrl)
      by (intros; apply geocoded_detailUrl).
    by apply scrape_pages_NoDup. }
  destruct (runScrape_resolves env w maxListings pages Hnf)
    as (wa & rs1 & w1 & Hbatch1 & Hpass1 & Hsame1).
  fold batch in Hbatch1. set (w0 := mkWorld _ _) in Hbatch1.
  destruct (upsert_batch_first env batch Hnf Hnd w0)
    as (wa' & rs1' & Hbatch1' & Hwfa & Hst & _).
  { eapply wf_db_same_prices; [|exact Hwf].
    apply insert_scrape_run_same_prices. }
  rewrite Hbatch1 in Hbatch1'. injection Hbatch1' as <- <-.
  destruct (runScrape_resolves env w1 maxListings pages Hnf)
    as (wb & rs2 & w2 & Hbatch2 & Hpass2 & Hsame2).
  fold batch in Hbatch2.
  set (w1' := mkWorld _ _) in Hbatch2.
  assert (same_prices (w_db wa) (w_db w1')) as Hsame
    by (etrans; [exact Hsame1|apply insert_scrape_run_same_prices]).
  destruct (upsert_batch_again env batch Hnf w1')
    as (wb' & rs2' & Hbatch2' & Hlen & Hall & Hph).
  { by eapply wf_db_same_prices. }
  { intros s Hs. rewrite (stored_price_same_prices _ _ _ Hsame). by apply Hst. }
  rewrite Hbatch2 in Hbatch2'. injection Hbatch2' as <- <-.
  destruct (tally_unchanged rs2 Hall (stats0, [])) as (Hn & Hc & Hu & Hf).
  eexists w1, _, w2, _. split; [exact Hpass1|]. split; [exact Hpass2|].
  split_and!; [done|done|by rewrite Hu, Hf|].
  destruct Hsame2 as (_ & _ & ->). by rewrite Hph.
Qed.

(** * Examples: the operations on concrete inputs *)

Lemma env_ok_no_faults : no_faults env_ok.
Proof. intros n. reflexivity. Qed.

Lemma env_late_no_faults : no_faults env_late.
Proof. intros n. reflexivity. Qed.

Lemma wf_db_one : wf_db db_one.
Proof.
  split; cbn.
  - apply NoDup_singleton.
  - apply NoDup_singleton.
  - repeat constructor. cbn. lia.
Qed.

(** C1, counterexample: a snapshot of an unseen URL whose price is the
    number 0 is inserted with isNew=true, yet no PricePoint is recorded. *)
Lemma upsert_new_listing_price_zero :
  price (snapshot_of url_a (Some 0)) = Some 0
  ∧ (upsertListing (snapshot_of url_a (Some 0)) env_ok world_empty).2
    = inr {| listingId := 1; isNew := true; priceChanged := false;
             oldPrice := None; newPrice := Some 0 |}
  ∧ l_price
      <$> listings
            (w_db (upsertListing (snapshot_of url_a (Some 0)) env_ok
                     world_empty).1)
    = [Some 0]
  ∧ price_history
      (w_db (upsertListing (snapshot_of url_a (Some 0)) env_ok world_empty).1)
    = [].
Proof. vm_compute. done. Qed.

(** C1, witness: an unseen URL with price 500000. *)
Lemma upsert_new_listing_witness :
  (url_a ∉ (l_realtor_url <$> listings (w_db world_empty)))
  ∧ call_fault (store_call env_ok (w_calls world_empty)) = None
  ∧ ∃ w' r pp,
      upsertListing (snapshot_of url_a (Some 500000)) env_ok world_empty
        = (w', inr r)
      ∧ isNew r = true
      ∧ price_history (w_db w') = [pp] ∧ ph_price pp = 500000.
Proof.
  assert (url_a ∉ (l_realtor_url <$> listings (w_db world_empty))) as Hnew
    by apply not_elem_of_nil.
  assert (call_fault (store_call env_ok (w_calls world_empty)) = None) as Hok
    by reflexivity.
  split_and!; [exact Hnew|exact Hok|].
  destruct (upsert_new_listing env_ok world_empty
              (snapshot_of url_a (Some 500000)) Hnew Hok)
    as (w' & r & row & Hup & Hisnew & _ & _ & _ & _ & _ & _ & _ & _ & Hpp & _).
  destruct (Hpp 500000 eq_refl ltac:(lia)) as (pp & Hhist & Hprice & _).
  exists w', r, pp. split_and!; done.
Defined.

(** C2, witness: a two-snapshot batch on the empty store, run twice. *)
Lemma upsert_idempotent_witness :
  no_faults env_ok
  ∧ wf_db (w_db world_empty)
  ∧ NoDup (detailUrl
             <$> [snapshot_of url_a (Some 500000); snapshot_of url_b None])
  ∧ ∃ w1 rs1 w2 rs2,
      upsert_batch [snapshot_of url_a (Some 500000); snapshot_of url_b None]
        env_ok world_empty = (w1, inr rs1)
      ∧ upsert_batch [snapshot_of url_a (Some 500000); snapshot_of url_b None]
          env_ok w1 = (w2, inr rs2)
      ∧ Forall (λ r, isNew r = false ∧ priceChanged r = false) rs2
      ∧ price_history (w_db w2) = price_history (w_db w1).
Proof.
  assert (NoDup (detailUrl
                   <$> [snapshot_of url_a (Some 500000);
                        snapshot_of url_b None])) as Hnd.
  { cbn. apply NoDup_cons. split; [|apply NoDup_singleton].
    rewrite list_elem_of_singleton. discriminate. }
  split_and!; [exact env_ok_no_faults|exact wf_db_empty|exact Hnd|].
  destruct (upsert_idempotent env_ok world_empty
              [snapshot_of url_a (Some 500000); snapshot_of url_b None]
              (snapshot_of url_a (Some 500000))
              (snapshot_of url_a (Some 500000))
              env_ok_no_faults wf_db_empty Hnd eq_refl eq_refl)
    as [(w1 & rs1 & w2 & rs2 & H1 & H2 & _ & Hall & Hph) _].
  exists w1, rs1, w2, rs2. split_and!; done.
Defined.

(** C3, counterexample: stored price 500000, then a snapshot with price=null,
    then one with price=510000.  The specification has the last upsert report
    priceChanged=true and append a PricePoint of 510000; the code reports
    priceChanged=false against oldPrice=null and the history still holds the
    500000 point only. *)
Lemma null_then_new_price_not_detected :
  stored_price url_a (w_db world_one) = Some (Some 500000)
  ∧ (upsertListing (snapshot_of url_a None) env_ok world_one).2
    = inr {| listingId := 1; isNew := false; priceChanged := false;
             oldPrice := Some 500000; newPrice := None |}
  ∧ (upsertListing (snapshot_of url_a (Some 510000)) env_ok
       (upsertListing (snapshot_of url_a None) env_ok world_one).1).2
    = inr {| listingId := 1; isNew := false; priceChanged := false;
             oldPrice := None; newPrice := Some 510000 |}
  ∧ ph_price
      <$> price_history
            (w_db (upsertListing (snapshot_of url_a (Some 510000)) env_ok
                     (upsertListing (snapshot_of url_a None) env_ok
                        world_one).1).1)
    = [500000].
Proof. vm_compute. done. Qed.

(** C3, witness. *)
Lemma null_price_erases_stored_price_witness :
  stored_price url_a (w_db world_one) = Some (Some 500000)
  ∧ ∃ w1 r1 w2 r2,
      upsertListing (snapshot_of url_a None) env_ok world_one = (w1, inr r1)
      ∧ upsertListing (snapshot_of url_a (Some 510000)) env_ok w1
        = (w2, inr r2)
      ∧ priceChanged r2 = false
      ∧ price_history (w_db w2) = price_history (w_db world_one).
Proof.
  split; [reflexivity|].
  destruct (null_price_erases_stored_price env_ok world_one
              (snapshot_of url_a None) (snapshot_of url_a (Some 510000))
              eq_refl eq_refl eq_refl eq_refl eq_refl eq_refl)
    as (w1 & r1 & w2 & r2 & H1 & _ & _ & _ & _ & _ & H2 & _ & Hc & _ & _
        & Hph & _).
  exists w1, r1, w2, r2. split_and!; done.
Defined.

(** C4, counterexample: the Listing of [db_one] was last seen at time 0 and
    is active; ten days later a pass that observed nothing retires nothing,
    although the Listing is active, not observed, and stale.  The same step
    with any non-empty list of other ids retires it. *)
Lemma retirement_skipped_for_empty_pass :
  l_is_active <$> listings (w_db world_one) = [true]
  ∧ l_is_active
      <$> listings (w_db (markInactiveListings [] env_late world_one).1)
    = [true]
  ∧ l_is_active
      <$> listings (w_db (markInactiveListings [2] env_late world_one).1)
    = [false].
Proof. vm_compute. done. Qed.

(** C4, witness. *)
Lemma retirement_marks_exactly_stale_absent_witness :
  [2] ≠ []
  ∧ call_fault (store_call env_late (w_calls world_one)) = None
  ∧ (∃ w', markInactiveListings [2] env_late world_one = (w', inr tt)
           ∧ length (listings (w_db w')) = length (listings (w_db world_one)))
  ∧ markInactiveListings [] env_late world_one = (world_one, inr tt).
Proof.
  destruct (retirement_marks_exactly_stale_absent env_late world_one [2])
    as [Hretire _].
  destruct (retirement_marks_exactly_stale_absent env_late world_one [])
    as [_ Hskip].
  split_and!; [done|reflexivity| |exact (Hskip eq_refl)].
  destruct (Hretire ltac:(done) eq_refl) as (w' & Hrun & Hlen & _).
  by exists w'.
Defined.

(** C5, counterexample: a pass over three snapshots in which the store
    rejects the upsert of the second one only.  The specification has the third
    snapshot still processed; the code rejects the whole pass, has upserted
    the first snapshot only, and closes the run as failed. *)
Lemma one_rejected_upsert_aborts_batch :
  scrape_pages 500 50
    [[snapshot_of url_a (Some 500000); snapshot_of url_b (Some 300000);
      snapshot_of url_c (Some 400000)]] [] ∅
  = [snapshot_of url_a (Some 500000); snapshot_of url_b (Some 300000);
     snapshot_of url_c (Some 400000)]
  ∧ (runScrape 500
       (inr [[snapshot_of url_a (Some 500000); snapshot_of url_b (Some 300000);
              snapshot_of url_c (Some 400000)]])
       env_one_fault world_empty).2
    = inl "deadlock detected"
  ∧ l_realtor_url
      <$> listings
            (w_db (runScrape 500
                     (inr [[snapshot_of url_a (Some 500000);
                            snapshot_of url_b (Some 300000);
                            snapshot_of url_c (Some 400000)]])
                     env_one_fault world_empty).1)
    = [url_a]
  ∧ sr_status
      <$> scrape_runs
            (w_db (runScrape 500
                     (inr [[snapshot_of url_a (Some 500000);
                            snapshot_of url_b (Some 300000);
                            snapshot_of url_c (Some 400000)]])
                     env_one_fault world_empty).1)
    = [failed].
Proof. vm_compute. done. Qed.

(** C5, witness: the same pass through the theorem. *)
Lemma failed_upsert_aborts_pass_witness :
  ∃ w1 w2 err',
    runScrape 500
      (inr [[snapshot_of url_a (Some 500000); snapshot_of url_b (Some 300000);
             snapshot_of url_c (Some 400000)]])
      env_one_fault world_empty = (w2, inl err')
    ∧ w_calls w2 = 4%nat
    ∧ same_listings (w_db w1) (w_db w2).
Proof.
  destruct (failed_upsert_aborts_pass env_one_fault world_empty 500
              [[snapshot_of url_a (Some 500000);
                snapshot_of url_b (Some 300000);
                snapshot_of url_c (Some 400000)]]
              [snapshot_of url_a (Some 500000)]
              (snapshot_of url_b (Some 300000))
              [snapshot_of url_c (Some 400000)]
              "deadlock detected")
    as (w0 & runId & w1 & acc1 & w2 & err' & _ & _ & Hrun & Hcalls & Hsame & _).
  - vm_compute. reflexivity.
  - intros k Hk. cbn in Hk.
    destruct k as [|[|k]]; [reflexivity|reflexivity|lia].
  - reflexivity.
  - exists w1, w2, err'. split_and!; done.
Defined.

(** C6, counterexample.  First pass: the store is unreachable from the
    upsert of the second snapshot on, as in an outage mid-batch; the
    [failScrapeRun] update is rejected too, and the ScrapeRun is left with
    status running and no error detail.  Second pass, ten days after the
    Listing of [db_one] was last seen: the store rejects [completeScrapeRun]
    only; the pass fails and its run is marked failed, but the retirement
    step had run before and the Listing of [url_a] is inactive. *)
Lemma failed_pass_not_marked_or_retired :
  ((runScrape 500
      (inr [[snapshot_of url_a (Some 500000); snapshot_of url_b (Some 300000)]])
      env_outage world_empty).2
   = inl "Connection terminated"
   ∧ (λ run, (sr_status run, sr_error run))
       <$> scrape_runs
             (w_db (runScrape 500
                      (inr [[snapshot_of url_a (Some 500000);
                             snapshot_of url_b (Some 300000)]])
                      env_outage world_empty).1)
     = [(running, None)])
  ∧ ((runScrape 500 (inr [[snapshot_of url_b (Some 300000)]])
        env_late_complete_fails world_one).2
     = inl "Connection terminated"
     ∧ sr_status
         <$> scrape_runs
               (w_db (runScrape 500 (inr [[snapshot_of url_b (Some 300000)]])
                        env_late_complete_fails world_one).1)
       = [failed]
     ∧ (λ l, (l_realtor_url l, l_is_active l))
         <$> listings
               (w_db (runScrape 500 (inr [[snapshot_of url_b (Some 300000)]])
                        env_late_complete_fails world_one).1)
       = [(url_a, false); (url_b, true)]).
Proof. vm_compute. done. Qed.

(** C6, witness: the pass of [env_one_fault], whose [failScrapeRun] update
    the store accepts; a pass whose extraction fails; a pass whose retirement
    statement is rejected, ten days after the Listing of [db_one] was last
    seen; and a pass that observed nothing and whose [completeScrapeRun] is
    rejected. *)
Lemma failed_pass_keeps_upserts_witness :
  call_fault (store_call env_one_fault (w_calls world_empty)) = None
  ∧ (∃ runId w2 w2',
      runScrape 500 (inl "Timeout 30000ms exceeded") env_one_fault world_empty
        = (w2, inl "Timeout 30000ms exceeded")
      ∧ marked_failed runId "Timeout 30000ms exceeded" (w_db w2)
      ∧ runScrape 500
          (inr [[snapshot_of url_a (Some 500000);
                 snapshot_of url_b (Some 300000);
                 snapshot_of url_c (Some 400000)]])
          env_one_fault world_empty = (w2', inl "deadlock detected")
      ∧ marked_failed runId "deadlock detected" (w_db w2')
      ∧ ∃ l, l ∈ listings (w_db w2') ∧ l_realtor_url l = url_a
             ∧ l_is_active l = true)
  ∧ (∃ runId w1 acc1 w2,
      for_each reconcile [snapshot_of url_b (Some 300000)] (stats0, [])
        env_late_retire_fails
        (startScrapeRun env_late_retire_fails world_one).1 = (w1, inr acc1)
      ∧ runScrape 500 (inr [[snapshot_of url_b (Some 300000)]])
          env_late_retire_fails world_one = (w2, inl "deadlock detected")
      ∧ marked_failed runId "deadlock detected" (w_db w2)
      ∧ same_listings (w_db w1) (w_db w2))
  ∧ ∃ runId w2,
      runScrape 500 (inr []) env_second_call_fails world_empty
        = (w2, inl "Connection terminated")
      ∧ marked_failed runId "Connection terminated" (w_db w2)
      ∧ same_listings (w_db world_empty) (w_db w2).
Proof.
  split; [reflexivity|]. split_and!.
  - destruct (failed_pass_keeps_upserts env_one_fault world_empty 500 eq_refl)
      as (w0 & runId & _ & Hextract & Hupsert & _).
    destruct (Hextract "Timeout 30000ms exceeded" eq_refl)
      as (w2 & Hrun & Hmark & _).
    destruct (Hupsert
                [[snapshot_of url_a (Some 500000);
                  snapshot_of url_b (Some 300000);
                  snapshot_of url_c (Some 400000)]]
                [snapshot_of url_a (Some 500000)]
                (snapshot_of url_b (Some 300000))
                [snapshot_of url_c (Some 400000)]
                "deadlock detected")
      as (w1 & acc1 & w2' & _ & Hrun' & Hmark' & _ & Hact).
    + vm_compute. reflexivity.
    + intros k Hk. cbn in Hk.
      destruct k as [|[|k]]; [reflexivity|reflexivity|lia].
    + reflexivity.
    + reflexivity.
    + exists runId, w2, w2'. split_and!; try done.
      apply (Hact (snapshot_of url_a (Some 500000))). left.
  - destruct (failed_pass_keeps_upserts env_late_retire_fails world_one 500
                eq_refl)
      as (w0 & runId & Hstart & _ & _ & Hretire & _).
    destruct (Hretire [[snapshot_of url_b (Some 300000)]]
                [snapshot_of url_b (Some 300000)] "deadlock detected")
      as (w1 & acc1 & w2 & Hloop & Hrun & Hmark & Hsame & _).
    + vm_compute. reflexivity.
    + done.
    + intros k Hk. cbn in Hk.
      destruct k as [|[|k]]; [reflexivity|reflexivity|lia].
    + reflexivity.
    + reflexivity.
    + exists runId, w1, acc1, w2. split_and!; try done.
      by rewrite Hstart.
  - destruct (failed_pass_keeps_upserts env_second_call_fails world_empty 500
                eq_refl)
      as (w0 & runId & _ & _ & _ & _ & Hempty).
    destruct (Hempty [] "Connection terminated")
      as (w2 & Hrun & Hmark & Hsame); [reflexivity..|].
    by exists runId, w2.
Defined.

(** The pass of the witness whose retirement statement is rejected: the
    run is marked failed, and the Listing of [url_a], not observed and last
    seen ten days before, is still active; the Listing of [url_b] is stored
    and active. *)
Lemma rejected_retirement_retires_nothing :
  (runScrape 500 (inr [[snapshot_of url_b (Some 300000)]])
     env_late_retire_fails world_one).2
  = inl "deadlock detected"
  ∧ (λ run, (sr_status run, sr_error run))
      <$> scrape_runs
            (w_db (runScrape 500 (inr [[snapshot_of url_b (Some 300000)]])
                     env_late_retire_fails world_one).1)
    = [(failed, Some "deadlock detected")]
  ∧ (λ l, (l_realtor_url l, l_is_active l))
      <$> listings
            (w_db (runScrape 500 (inr [[snapshot_of url_b (Some 300000)]])
                     env_late_retire_fails world_one).1)
    = [(url_a, true); (url_b, true)].
Proof. vm_compute. done. Qed.

(** C7, at the failing input: user 7 has favorited the Listing of [url_a],
    stored at 500000; a pass observes it at 480000.  The pass counts the price
    change and appends the PricePoint, and the [alerts] table stays empty. *)
Theorem price_drop_creates_no_alert :
  favorites (w_db world_one) = [mkFavorite 7 1]
  ∧ (runScrape 500 (inr [[snapshot_of url_a (Some 480000)]]) env_ok world_one).2
    = inr {| found := 1; new := 0; updated := 0; priceChanges := 1 |}
  ∧ ph_price
      <$> price_history
            (w_db (runScrape 500 (inr [[snapshot_of url_a (Some 480000)]])
                     env_ok world_one).1)
    = [500000; 480000]
  ∧ alerts
      (w_db (runScrape 500 (inr [[snapshot_of url_a (Some 480000)]]) env_ok
               world_one).1)
    = [].
Proof. vm_compute. done. Qed.

(** C8, counterexample: a second pass starts while the first one is still
    scraping; both [startScrapeRun] calls succeed and two ScrapeRuns are
    running. *)
Lemma two_passes_running_together :
  ((startScrapeRun ≫= λ run1, startScrapeRun ≫= λ run2, mret (run1, run2))
     env_ok world_empty).2
  = inr (1, 2)
  ∧ sr_status
      <$> scrape_runs
            (w_db ((startScrapeRun ≫= λ run1,
                    startScrapeRun ≫= λ run2, mret (run1, run2))
                     env_ok world_empty).1)
    = [running; running]
  ∧ count_running
      (w_db ((startScrapeRun ≫= λ run1,
              startScrapeRun ≫= λ run2, mret (run1, run2))
               env_ok world_empty).1)
    = 2%nat.
Proof. vm_compute. done. Qed.

(** C8, witness. *)
Lemma pass_starts_whatever_is_running_witness :
  no_faults env_ok
  ∧ (∃ w0 runId,
       startScrapeRun env_ok world_one = (w0, inr runId)
       ∧ count_running (w_db w0) = S (count_running (w_db world_one)))
  ∧ ∃ w' stats,
      runScrape 500 (inr [[snapshot_of url_a (Some 480000)]]) env_ok world_one
      = (w', inr stats).
Proof.
  destruct (pass_starts_whatever_is_running env_ok world_one 500
              [[snapshot_of url_a (Some 480000)]] env_ok_no_faults)
    as [(w0 & runId & run & Hstart & _ & _ & _ & Hcount) Hpass].
  split_and!; [exact env_ok_no_faults| |exact Hpass].
  by exists w0, runId.
Defined.

(** A snapshot object without [imageUrls] onto the Listing of [db_one]. *)
Lemma upsert_preserves_images_witness :
  (url_a ∈ (l_realtor_url <$> listings (w_db world_one)))
  ∧ imageUrls (snapshot_without_images url_a (Some 480000)) = None
  ∧ call_fault (store_call env_ok (w_calls world_one)) = None
  ∧ ∃ w' r,
      upsertListing (snapshot_without_images url_a (Some 480000)) env_ok
        world_one = (w', inr r)
      ∧ l_image_urls <$> listings (w_db w')
        = l_image_urls <$> listings (w_db world_one).
Proof.
  assert (url_a ∈ (l_realtor_url <$> listings (w_db world_one))) as Hin
    by (cbn; left).
  split_and!; [exact Hin|reflexivity|reflexivity|].
  destruct (upsert_preserves_images env_ok world_one
              (snapshot_without_images url_a (Some 480000)) Hin eq_refl eq_refl)
    as (w' & r & Hup & _ & Himg & _).
  by exists w', r.
Defined.

(** C10, witness: price 0 on an unseen URL, price 0 on the Listing of
    [db_one]. *)
Lemma zero_price_treated_as_unknown_witness :
  call_fault (store_call env_ok (w_calls world_empty)) = None
  ∧ call_fault (store_call env_ok (w_calls world_one)) = None
  ∧ (∃ w' r,
       upsertListing (snapshot_of url_a (Some 0)) env_ok world_empty
         = (w', inr r)
       ∧ isNew r = true
       ∧ price_history (w_db w') = price_history (w_db world_empty))
  ∧ ∃ w' r,
      upsertListing (snapshot_of url_a (Some 0)) env_ok world_one = (w', inr r)
      ∧ priceChanged r = false
      ∧ price_history (w_db w') = price_history (w_db world_one)
      ∧ stored_price url_a (w_db w') = Some (Some 0).
Proof.
  split_and!; [reflexivity|reflexivity| |].
  - destruct (zero_price_treated_as_unknown env_ok world_empty
                (snapshot_of url_a (Some 0)) eq_refl)
      as (w' & r & Hup & Hnew & _ & _).
    destruct (Hnew eq_refl) as (Hisnew & Hph & _); [apply not_elem_of_nil|].
    by exists w', r.
  - destruct (zero_price_treated_as_unknown env_ok world_one
                (snapshot_of url_a (Some 0)) eq_refl)
      as (w' & r & Hup & _ & Hupd & _).
    destruct (Hupd eq_refl) as (_ & Hch & Hph & Hst); [cbn; left|].
    by exists w', r.
Defined.

(** An empty image array is a supplied list: it replaces the stored one.
    This is what the extractor sends for a card without image
    ([generateImageUrls] returns [[]]), whereas a snapshot without the
    [imageUrls] property keeps the stored list. *)
Lemma empty_image_array_replaces_stored_list :
  l_image_urls <$> listings (w_db world_one)
  = [Some ["https://cdn.realtor.ca/listing/highres/1_1.jpg"]]
  ∧ l_image_urls
      <$> listings
            (w_db (upsertListing (snapshot_without_images url_a (Some 500000))
                     env_ok world_one).1)
    = [Some ["https://cdn.realtor.ca/listing/highres/1_1.jpg"]]
  ∧ l_image_urls
      <$> listings
            (w_db (upsertListing (snapshot_of url_a (Some 500000)) env_ok
                     world_one).1)
    = [Some []].
Proof. vm_compute. done. Qed.

(** C9, the code at the failing input: the Listing of [db_one] holds one
    image, and a pass sees its card again without an image element, so that
    the extractor sets [imageUrls] to [generateImageUrls(null)], the empty
    array.  The upsert finds the Listing (not new, same price) and writes the
    empty array over the stored list, since [COALESCE] keeps the stored list
    for [NULL] only; after the pass the Listing has no image, although the
    snapshot supplied none. *)
Theorem card_without_image_erases_stored_images :
  attach_images None (snapshot_with_image url_a (Some 500000))
  = snapshot_of url_a (Some 500000)
  ∧ l_image_urls <$> listings (w_db world_one)
    = [Some ["https://cdn.realtor.ca/listing/highres/1_1.jpg"]]
  ∧ (upsertListing
       (attach_images None (snapshot_with_image url_a (Some 500000)))
       env_ok world_one).2
    = inr {| listingId := 1; isNew := false; priceChanged := false;
             oldPrice := Some 500000; newPrice := Some 500000 |}
  ∧ l_image_urls
      <$> listings
            (w_db (upsertListing
                     (attach_images None
                        (snapshot_with_image url_a (Some 500000)))
                     env_ok world_one).1)
    = [Some []]
  ∧ (runScrape 500
       (inr [[attach_images None (snapshot_with_image url_a (Some 500000))]])
       env_ok world_one).2
    = inr {| found := 1; new := 0; updated := 1; priceChanges := 0 |}
  ∧ l_image_urls
      <$> listings
            (w_db (runScrape 500
                     (inr [[attach_images None
                              (snapshot_with_image url_a (Some 500000))]])
                     env_ok world_one).1)
    = [Some []].
Proof. vm_compute. done. Qed.

(** * More of the scraper: what [scrape] hands over *)

Lemma add_page_ext maxListings page :
  ∀ allListings (seenUrls : gset string),
  ∃ ext,
    (add_page maxListings page allListings seenUrls).1 = allListings ++ ext
    ∧ ext `sublist_of` page.
Proof.
  induction page as [|x page IH]; intros allListings seenUrls; cbn [add_page].
  - exists []. by rewrite app_nil_r.
  - case_decide.
    { exists []. rewrite app_nil_r. split; [done|apply sublist_nil_l]. }
    destruct (truthy_str (detailUrl x) && bool_decide (detailUrl x ∈ seenUrls)).
    + destruct (IH allListings seenUrls) as (ext & -> & Hsub).
      exists ext. split; [done|by apply sublist_cons].
    + destruct (IH (allListings ++ [x])
                  (if truthy_str (detailUrl x)
                   then {[detailUrl x]} ∪ seenUrls else seenUrls))
        as (ext & -> & Hsub).
      exists (x :: ext). rewrite <- app_assoc. split; [done|by apply sublist_skip].
Qed.

Lemma add_page_length maxListings page :
  ∀ allListings (seenUrls : gset string),
  (length allListings ≤ maxListings)%nat →
  (length (add_page maxListings page allListings seenUrls).1 ≤ maxListings)%nat.
Proof.
  induction page as [|x page IH]; intros allListings seenUrls Hlen;
    cbn [add_page]; [done|].
  case_decide; [done|].
  destruct (truthy_str (detailUrl x) && bool_decide (detailUrl x ∈ seenUrls));
    apply IH; [done|]. rewrite length_app. cbn. lia.
Qed.

Lemma scrape_pages_length maxListings pages :
  ∀ pagesLeft allListings (seenUrls : gset string),
  (length allListings ≤ maxListings)%nat →
  (length (scrape_pages maxListings pagesLeft pages allListings seenUrls)
   ≤ maxListings)%nat.
Proof.
  induction pages as [|page pages IH];
    intros pagesLeft allListings seenUrls Hlen; cbn [scrape_pages]; [done|].
  destruct pagesLeft as [|pagesLeft]; [done|]. case_decide; [done|].
  pose proof (add_page_length maxListings page allListings seenUrls Hlen) as Hp.
  destruct (add_page maxListings page allListings seenUrls) as [all' seen'].
  case_decide; [done|]. by apply IH.
Qed.

(** X1: [scrape] never returns more than [maxListings] snapshots, whatever
    the pages hold. *)
Theorem scrape_at_most_maxListings (maxListings maxPages : nat)
    (pages : list (list Snapshot)) :
  (length (scrape_pages maxListings maxPages pages [] ∅) ≤ maxListings)%nat.
Proof. apply scrape_pages_length. cbn. lia. Qed.

Lemma scrape_pages_sublist maxListings pages :
  ∀ pagesLeft allListings (seenUrls : gset string),
  scrape_pages maxListings pagesLeft pages allListings seenUrls
    `sublist_of` allListings ++ concat (take pagesLeft pages).
Proof.
  induction pages as [|page pages IH];
    intros pagesLeft allListings seenUrls; cbn [scrape_pages].
  - by apply sublist_inserts_r.
  - destruct pagesLeft as [|pagesLeft]; [by apply sublist_inserts_r|].
    case_decide; [by apply sublist_inserts_r|].
    destruct (add_page_ext maxListings page allListings seenUrls)
      as (ext & Hext & Hsub).
    destruct (add_page maxListings page allListings seenUrls) as [all' seen'].
    cbn [fst] in Hext. subst all'. cbn [take concat].
    case_decide.
    + rewrite app_assoc. apply sublist_inserts_r.
      by apply sublist_app.
    + etrans; [apply IH|]. rewrite <- !app_assoc.
      apply sublist_app; [done|]. by apply sublist_app.
Qed.

(** X2: the snapshots [scrape] returns are snapshots of the first
    [maxPages] pages, in the order the site served them: nothing is invented,
    reordered, or taken from a later page. *)
Theorem scrape_in_page_order (maxListings maxPages : nat)
    (pages : list (list Snapshot)) :
  scrape_pages maxListings maxPages pages [] ∅
    `sublist_of` concat (take maxPages pages).
Proof. apply (scrape_pages_sublist maxListings pages maxPages [] ∅). Qed.

Lemma add_page_seen maxListings page :
  ∀ allListings (seenUrls : gset string),
  NoDup (filter (λ u, truthy_str u = true) (detailUrl <$> allListings)) →
  (∀ s, s ∈ allListings → truthy_str (detailUrl s) = true →
        detailUrl s ∈ seenUrls) →
  NoDup (filter (λ u, truthy_str u = true)
           (detailUrl <$> (add_page maxListings page allListings seenUrls).1))
  ∧ ∀ s, s ∈ (add_page maxListings page allListings seenUrls).1 →
         truthy_str (detailUrl s) = true →
         detailUrl s ∈ (add_page maxListings page allListings seenUrls).2.
Proof.
  induction page as [|x page IH]; intros allListings seenUrls Hnd Hseen;
    cbn [add_page]; [done|].
  case_decide; [done|].
  destruct (truthy_str (detailUrl x)) eqn:Hx; cbn [andb].
  - destruct (bool_decide_reflect (detailUrl x ∈ seenUrls)) as [Hin|Hnot].
    + by apply IH.
    + apply IH.
      * rewrite fmap_app, filter_app.
        change (detailUrl <$> [x]) with [detailUrl x].
        rewrite filter_cons_True, filter_nil by done.
        apply NoDup_app. split_and!; [done| |apply NoDup_singleton].
        intros url [Hurl (s & -> & Hs)%list_elem_of_fmap]%list_elem_of_filter.
        rewrite list_elem_of_singleton. intros Heq. apply Hnot.
        rewrite <- Heq. by apply Hseen.
      * intros s [Hs|Hs]%elem_of_app Hs'.
        -- apply elem_of_union. right. by apply Hseen.
        -- apply list_elem_of_singleton in Hs as ->. apply elem_of_union. left.
           by apply elem_of_singleton.
  - apply IH.
    + rewrite fmap_app, filter_app.
      change (detailUrl <$> [x]) with [detailUrl x].
      rewrite filter_cons_False, filter_nil, app_nil_r by congruence. done.
    + intros s [Hs|Hs]%elem_of_app Hs'; [by apply Hseen|].
      apply list_elem_of_singleton in Hs as ->. congruence.
Qed.

Lemma scrape_pages_seen maxListings pages :
  ∀ pagesLeft allListings (seenUrls : gset string),
  NoDup (filter (λ u, truthy_str u = true) (detailUrl <$> allListings)) →
  (∀ s, s ∈ allListings → truthy_str (detailUrl s) = true →
        detailUrl s ∈ seenUrls) →
  NoDup (filter (λ u, truthy_str u = true)
           (detailUrl
              <$> scrape_pages maxListings pagesLeft pages allListings seenUrls)).
Proof.
  induction pages as [|page pages IH];
    intros pagesLeft allListings seenUrls Hnd Hseen; cbn [scrape_pages]; [done|].
  destruct pagesLeft as [|pagesLeft]; [done|]. case_decide; [done|].
  destruct (add_page_seen maxListings page allListings seenUrls Hnd Hseen)
    as [Hnd' Hseen'].
  destruct (add_page maxListings page allListings seenUrls) as [all' seen'].
  case_decide; [done|]. by apply IH.
Qed.

(** X3: no source URL occurs twice among the snapshots [scrape] returns;
    only snapshots without a URL (the empty string is falsy) can repeat. *)
Theorem scrape_returns_each_url_once (maxListings maxPages : nat)
    (pages : list (list Snapshot)) :
  NoDup (filter (λ u, truthy_str u = true)
           (detailUrl <$> scrape_pages maxListings maxPages pages [] ∅)).
Proof.
  apply scrape_pages_seen; [constructor|].
  intros s Hs. by apply elem_of_nil in Hs.
Qed.

Lemma scrape_pages_ext maxListings pages :
  ∀ pagesLeft allListings (seenUrls : gset string),
  ∃ ext,
    scrape_pages maxListings pagesLeft pages allListings seenUrls
    = allListings ++ ext.
Proof.
  induction pages as [|page pages IH];
    intros pagesLeft allListings seenUrls; cbn [scrape_pages].
  - exists []. by rewrite app_nil_r.
  - destruct pagesLeft as [|pagesLeft]; [exists []; by rewrite app_nil_r|].
    case_decide; [exists []; by rewrite app_nil_r|].
    destruct (add_page_ext maxListings page allListings seenUrls)
      as (ext & Hext & _).
    destruct (add_page maxListings page allListings seenUrls) as [all' seen'].
    cbn [fst] in Hext. subst all'.
    case_decide; [by exists ext|].
    destruct (IH pagesLeft (allListings ++ ext) seen') as (ext' & ->).
    exists (ext ++ ext'). by rewrite app_assoc.
Qed.

Lemma add_page_complete maxListings page :
  ∀ allListings (seenUrls : gset string),
  (∀ u, u ∈ seenUrls → u ∈ detailUrl <$> allListings) →
  (∀ u, u ∈ (add_page maxListings page allListings seenUrls).2 →
        u ∈ detailUrl <$> (add_page maxListings page allListings seenUrls).1)
  ∧ ((length (add_page maxListings page allListings seenUrls).1
      < maxListings)%nat →
     ∀ s, s ∈ page →
          detailUrl s
            ∈ detailUrl <$> (add_page maxListings page allListings seenUrls).1).
Proof.
  induction page as [|x page IH]; intros allListings seenUrls Hinv;
    cbn [add_page].
  - split; [done|]. intros _ s Hs. by apply elem_of_nil in Hs.
  - case_decide as Hfull.
    { split; [done|]. cbn [fst]. lia. }
    destruct (truthy_str (detailUrl x) && bool_decide (detailUrl x ∈ seenUrls))
      eqn:Hskip.
    + apply andb_true_iff in Hskip as [_ Hin%bool_decide_eq_true].
      destruct (IH allListings seenUrls Hinv) as [Hinv' Hall].
      split; [done|]. intros Hlen s [->|Hs]%elem_of_cons; [|by apply Hall].
      destruct (add_page_ext maxListings page allListings seenUrls)
        as (ext & -> & _).
      rewrite fmap_app. apply elem_of_app. left. by apply Hinv.
    + set (seen' := if truthy_str (detailUrl x)
                    then {[detailUrl x]} ∪ seenUrls else seenUrls).
      destruct (IH (allListings ++ [x]) seen') as [Hinv' Hall].
      { intros u Hu. rewrite fmap_app. apply elem_of_app.
        unfold seen' in Hu. destruct (truthy_str (detailUrl x)).
        - apply elem_of_union in Hu as [->%elem_of_singleton|Hu];
            [right; left|left; by apply Hinv].
        - left. by apply Hinv. }
      split; [done|]. intros Hlen s [->|Hs]%elem_of_cons; [|by apply Hall].
      destruct (add_page_ext maxListings page (allListings ++ [x]) seen')
        as (ext & -> & _).
      rewrite !fmap_app. apply elem_of_app. left. apply elem_of_app. right.
      left.
Qed.

Lemma scrape_pages_complete maxListings pages :
  ∀ pagesLeft allListings (seenUrls : gset string),
  (∀ u, u ∈ seenUrls → u ∈ detailUrl <$> allListings) →
  (length pages ≤ pagesLeft)%nat →
  (length (scrape_pages maxListings pagesLeft pages allListings seenUrls)
   < maxListings)%nat →
  ∀ s, s ∈ concat pages →
       detailUrl s
         ∈ detailUrl
             <$> scrape_pages maxListings pagesLeft pages allListings seenUrls.
Proof.
  induction pages as [|page pages IH];
    intros pagesLeft allListings seenUrls Hinv Hpages Hlen s Hs.
  { by apply elem_of_nil in Hs. }
  cbn [scrape_pages] in *.
  destruct pagesLeft as [|pagesLeft]; [cbn in Hpages; lia|].
  case_decide; [lia|].
  destruct (add_page_complete maxListings page allListings seenUrls Hinv)
    as [Hinv' Hall].
  destruct (add_page maxListings page allListings seenUrls) as [all' seen'].
  cbn [fst snd] in *.
  case_decide; [lia|].
  cbn [concat] in Hs. apply elem_of_app in Hs as [Hs|Hs].
  - destruct (scrape_pages_ext maxListings pages pagesLeft all' seen')
      as (ext & Hext).
    rewrite Hext, fmap_app. apply elem_of_app. left. apply Hall; [lia|done].
  - apply IH; [done|cbn in Hpages; lia|done|done].
Qed.

(** X4: when [scrape] stops below both limits (fewer than [maxListings]
    snapshots returned, no more than [maxPages] pages served), nothing was
    dropped but duplicates: every snapshot of every page has its source URL
    among the snapshots returned. *)
Theorem scrape_complete_below_limits (maxListings maxPages : nat)
    (pages : list (list Snapshot)) (s : Snapshot) :
  (length pages ≤ maxPages)%nat →
  (length (scrape_pages maxListings maxPages pages [] ∅) < maxListings)%nat →
  s ∈ concat pages →
  detailUrl s ∈ detailUrl <$> scrape_pages maxListings maxPages pages [] ∅.
Proof.
  intros Hpages Hlen Hs. by apply scrape_pages_complete.
Qed.

(** X4, witness: two pages that repeat a card. *)
Lemma scrape_complete_below_limits_witness :
  (length pages_with_repeat ≤ 50)%nat
  ∧ (length (scrape_pages 500 50 pages_with_repeat [] ∅) < 500)%nat
  ∧ detailUrl (snapshot_of url_a (Some 510000))
      ∈ detailUrl <$> scrape_pages 500 50 pages_with_repeat [] ∅.
Proof.
  assert (length pages_with_repeat ≤ 50)%nat as H1 by (cbn; lia).
  assert (length (scrape_pages 500 50 pages_with_repeat [] ∅) < 500)%nat as H2
    by (vm_compute; lia).
  split_and!; [exact H1|exact H2|].
  apply (scrape_complete_below_limits 500 50 _ _ H1 H2).
  cbn. right. right. left.
Defined.

(** * More of the store: what an upsert and a pass keep *)

(** X5: on a Listing whose stored price is a non-zero number, a committed
    upsert with a different non-zero price reports priceChanged=true with the
    old and the new price, appends exactly one PricePoint (the new price, the
    Listing's id, the transaction's [NOW()]) and stores the new price. *)
Theorem upsert_price_change (env : Env) (w : World) (data : Snapshot)
    (a b : Z) :
  stored_price (detailUrl data) (w_db w) = Some (Some a) →
  price data = Some b →
  a ≠ 0 → b ≠ 0 → a ≠ b →
  call_fault (store_call env (w_calls w)) = None →
  ∃ w' r pp,
    upsertListing data env w = (w', inr r)
    ∧ isNew r = false ∧ priceChanged r = true
    ∧ oldPrice r = Some a ∧ newPrice r = Some b
    ∧ price_history (w_db w') = price_history (w_db w) ++ [pp]
    ∧ ph_price pp = b ∧ ph_listing_id pp = listingId r
    ∧ ph_recorded_at pp = call_now (store_call env (w_calls w))
    ∧ stored_price (detailUrl data) (w_db w') = Some (Some b).
Proof.
  intros Hst Hp Ha Hb Hab Hok.
  pose proof (upsertListing_ok env w data Hok) as Hup.
  set (now := call_now _) in *.
  destruct (upsert_tx_on_stored now data (w_db w) _ Hst)
    as (Hn & Hc & Ho & Hnp & Hph).
  assert (truthy (price data) && truthy (Some a)
          && strict_ne (price data) (Some a) = true) as Htest.
  { apply price_test_spec. exists b, a. split_and!; done. }
  rewrite Htest in Hc, Hph. rewrite Hp in Hnp, Hph. cbn [default] in Hph.
  eexists _, _, _. split; [exact Hup|]. cbn [w_db].
  split_and!; try done.
  rewrite <- Hp. apply upsert_tx_stored.
Qed.

(** X5, witness: 500000, then 480000. *)
Lemma upsert_price_change_witness :
  stored_price url_a (w_db world_one) = Some (Some 500000)
  ∧ ∃ w' r pp,
      upsertListing (snapshot_of url_a (Some 480000)) env_ok world_one
        = (w', inr r)
      ∧ priceChanged r = true
      ∧ price_history (w_db w') = price_history (w_db world_one) ++ [pp]
      ∧ ph_price pp = 480000.
Proof.
  split; [reflexivity|].
  destruct (upsert_price_change env_ok world_one
              (snapshot_of url_a (Some 480000)) 500000 480000
              eq_refl eq_refl ltac:(lia) ltac:(lia) ltac:(lia) eq_refl)
    as (w' & r & pp & Hup & _ & Hc & _ & _ & Hph & Hpp & _).
  by exists w', r, pp.
Defined.

(** ** Rows and columns the scraper never rewrites *)

#[global] Instance rows_kept_preorder : PreOrder rows_kept.
Proof.
  split.
  - by intros d.
  - intros d1 d2 d3 [? ?] [? ?]. split; by etrans.
Qed.

Lemma frozen_refresh now p imgs l :
  frozen (refresh_listing now p imgs l) = frozen l.
Proof. done. Qed.

Lemma frozen_retire now l : frozen (retire_listing now l) = frozen l.
Proof. done. Qed.

Lemma update_listing_frozen now id p imgs d :
  frozen <$> listings (update_listing now id p imgs d) = frozen <$> listings d.
Proof.
  cbn. rewrite <- list_fmap_compose. apply list_fmap_ext.
  intros _ l _. cbn. by case_decide.
Qed.

Lemma upsert_tx_rows_kept now data d : rows_kept d (upsert_tx now data d).1.
Proof.
  destruct (select_by_url (detailUrl data) d) as [|row rest] eqn:Hsel.
  - rewrite upsert_tx_new by done. cbn [fst].
    destruct (truthy (price data)); split; cbn;
      rewrite ?fmap_app; first [reflexivity|by apply prefix_app_r].
  - rewrite (upsert_tx_existing _ _ _ _ _ Hsel). cbn [fst].
    destruct (_ && _); split;
      try (change (listings (insert_price_history ?n ?i ?p ?x))
             with (listings x));
      rewrite ?update_listing_frozen; try reflexivity.
    cbn. by apply prefix_app_r.
Qed.

Lemma update_inactive_rows_kept activeIds now d :
  rows_kept d (update_inactive activeIds now d).1.
Proof.
  split; [|done]. cbn. rewrite <- list_fmap_compose.
  rewrite (list_fmap_ext (frozen ∘ _) frozen); [done|].
  intros _ l _. cbn. by destruct (retire_cond now activeIds l).
Qed.

(** Every store call of a pass respects a relation that the upsert
    transaction and the four other statements respect. *)
Lemma runScrape_respects (R : Db → Db → Prop) `{!PreOrder R} maxListings site :
  (∀ now data d, R d (upsert_tx now data d).1) →
  (∀ ids now d, R d (update_inactive ids now d).1) →
  (∀ now d, R d (insert_scrape_run now d).1) →
  (∀ runId stats now d, R d (update_run_completed runId stats now d).1) →
  (∀ runId err now d, R d (update_run_failed runId err now d).1) →
  respects R (runScrape maxListings site).
Proof.
  intros Hup Hret Hstart Hdone Hfail. unfold runScrape.
  apply (respects_bind R); [by apply (respects_query R)|]. intros runId.
  apply (respects_try_catch R).
  - unfold runScrape_try.
    apply (respects_bind R); [by apply (respects_scrape R)|]. intros listings.
    apply (respects_bind R).
    { apply (respects_for_each R). intros acc x.
      by apply (respects_reconcile R). }
    intros acc.
    apply (respects_bind R); [by apply (respects_markInactiveListings R)|].
    intros _. apply (respects_bind R); [by apply (respects_query R)|].
    intros _. by apply (respects_ret R).
  - intros err. unfold runScrape_catch.
    apply (respects_bind R); [by apply (respects_query R)|].
    intros _. by apply (respects_throw R).
Qed.

(** X6: whatever the site serves and whatever the store rejects, a pass never
    deletes or reorders a Listing or a PricePoint, and never changes the id,
    URL, address, beds, baths, floor area, coordinates, listed_at,
    first_seen_at or created_at of a Listing that is there: the frozen
    columns before are a prefix of those after, and so is the price
    history. *)
Theorem pass_keeps_rows (env : Env) (w : World) (maxListings : nat)
    (site : string + list (list Snapshot)) :
  (frozen <$> listings (w_db w))
    `prefix_of`
    (frozen <$> listings (w_db (runScrape maxListings site env w).1))
  ∧ price_history (w_db w)
      `prefix_of` price_history (w_db (runScrape maxListings site env w).1).
Proof.
  apply (runScrape_respects rows_kept); try done.
  - apply upsert_tx_rows_kept.
  - apply update_inactive_rows_kept.
Qed.

(** ** Constraints and prices a pass keeps *)

#[global] Instance wf_kept_preorder : PreOrder wf_kept.
Proof.
  split; [by intros d H|]. intros d1 d2 d3 H12 H23 H. apply H23, H12, H.
Qed.

#[global] Instance nonzero_prices_kept_preorder : PreOrder nonzero_prices_kept.
Proof.
  split; [by intros d H|]. intros d1 d2 d3 H12 H23 H. apply H23, H12, H.
Qed.

(** X7: one Listing per source URL, whatever happens: if ids and URLs of the
    Listings are pairwise distinct and no id exceeds the sequence before a
    pass, they are so after it, whether the pass resolves or rejects and
    whatever the site served (also the same URL many times). *)
Theorem pass_keeps_one_listing_per_url (env : Env) (w : World)
    (maxListings : nat) (site : string + list (list Snapshot)) :
  wf_db (w_db w) →
  wf_db (w_db (runScrape maxListings site env w).1).
Proof.
  apply (runScrape_respects wf_kept).
  - intros now data d Hwf. by apply upsert_tx_wf.
  - intros ids now d Hwf.
    eapply wf_db_same_prices; [apply update_inactive_same_prices|done].
  - intros now d Hwf. by apply (wf_db_same_prices d).
  - intros runId stats now d Hwf. by apply (wf_db_same_prices d).
  - intros runId err now d Hwf. by apply (wf_db_same_prices d).
Qed.

(** X7, witness: a pass over pages that repeat a card, with one rejected
    upsert. *)
Lemma pass_keeps_one_listing_per_url_witness :
  wf_db (w_db world_one)
  ∧ wf_db (w_db (runScrape 500 (inr pages_with_repeat) env_one_fault
                   world_one).1).
Proof.
  split; [exact wf_db_one|].
  exact (pass_keeps_one_listing_per_url env_one_fault world_one 500
           (inr pages_with_repeat) wf_db_one).
Defined.

Lemma upsert_tx_nonzero_prices now data d :
  nonzero_prices_kept d (upsert_tx now data d).1.
Proof.
  intros Hall.
  destruct (select_by_url (detailUrl data) d) as [|row rest] eqn:Hsel.
  - rewrite upsert_tx_new by done. cbn [fst].
    destruct (price data) as [p|]; [|done]. cbn [truthy default].
    destruct (Z.eqb_spec p 0) as [->|Hp]; [done|]. cbn.
    apply Forall_app. split; [done|]. by repeat constructor.
  - rewrite (upsert_tx_existing _ _ _ _ _ Hsel). cbn [fst].
    destruct (_ && _) eqn:Htest; [|done].
    apply price_test_spec in Htest as (a & b & Hp & _ & Ha & _ & _).
    rewrite Hp. cbn. apply Forall_app. split; [done|]. by repeat constructor.
Qed.

(** X8: a pass never records a PricePoint with price 0: if the price history
    holds none before, it holds none after, whatever the snapshots' prices
    are. *)
Theorem pass_records_no_zero_price (env : Env) (w : World) (maxListings : nat)
    (site : string + list (list Snapshot)) :
  Forall (λ pp, ph_price pp ≠ 0) (price_history (w_db w)) →
  Forall (λ pp, ph_price pp ≠ 0)
    (price_history (w_db (runScrape maxListings site env w).1)).
Proof.
  apply (runScrape_respects nonzero_prices_kept); try (by intros; intros ?).
  apply upsert_tx_nonzero_prices.
Qed.

(** X8, witness: a pass that observes the Listing of [db_one] at price 0. *)
Lemma pass_records_no_zero_price_witness :
  Forall (λ pp, ph_price pp ≠ 0) (price_history (w_db world_one))
  ∧ Forall (λ pp, ph_price pp ≠ 0)
      (price_history
         (w_db (runScrape 500 (inr [[snapshot_of url_a (Some 0)]]) env_ok
                  world_one).1)).
Proof.
  assert (Forall (λ pp, ph_price pp ≠ 0) (price_history (w_db world_one)))
    as Hbefore by (repeat constructor; cbn; lia).
  split; [exact Hbefore|].
  exact (pass_records_no_zero_price env_ok world_one 500
           (inr [[snapshot_of url_a (Some 0)]]) Hbefore).
Defined.

(** ** Reappearance *)

(** X9: reappearance reactivates.  On a store with one Listing per URL, after
    a committed upsert every Listing with the snapshot's URL is active,
    carries the snapshot's price, and was last seen at the transaction's
    [NOW()], whatever its state was before (retired, for one). *)
Theorem upsert_reactivates (env : Env) (w : World) (data : Snapshot) :
  wf_db (w_db w) →
  call_fault (store_call env (w_calls w)) = None →
  ∃ w' r,
    upsertListing data env w = (w', inr r)
    ∧ (∃ l, l ∈ listings (w_db w') ∧ l_realtor_url l = detailUrl data)
    ∧ ∀ l, l ∈ listings (w_db w') → l_realtor_url l = detailUrl data →
        l_id l = listingId r
        ∧ l_is_active l = true
        ∧ l_price l = price data
        ∧ l_last_seen_at l = call_now (store_call env (w_calls w)).
Proof.
  intros Hwf Hok. pose proof (upsertListing_ok env w data Hok) as Hup.
  set (now := call_now _) in *.
  eexists _, _. split; [exact Hup|]. cbn [w_db].
  pose proof (upsert_tx_wf now data (w_db w) Hwf) as [_ Hurls _].
  destruct (upsert_tx_active now data (w_db w)) as (l0 & Hl0 & Hu0 & _).
  split; [by exists l0|]. intros l Hl Hu.
  destruct (select_by_url (detailUrl data) (w_db w)) as [|row rest] eqn:Hsel.
  - rewrite upsert_tx_new in * by done. cbn [fst snd listingId] in *.
    assert (listing_row now (listings_seq (w_db w) + 1) data
              ∈ listings (insert_listing now data (w_db w)).1) as Hrow
      by (cbn; apply elem_of_app; right; left).
    assert (l = listing_row now (listings_seq (w_db w) + 1) data) as ->; [|done].
    destruct (truthy (price data));
      by apply (NoDup_fmap_eq l_realtor_url _ _ _ Hurls).
  - destruct (upsert_tx_listings_existing now data (w_db w) row rest Hsel)
      as (Hls & Hid & _).
    rewrite Hls in *. rewrite Hid.
    assert (row ∈ select_by_url (detailUrl data) (w_db w)) as Hrow
      by (rewrite Hsel; left).
    apply list_elem_of_filter in Hrow as [Hru Hrow].
    pose proof (update_listing_elem now (l_id row) (price data)
                  (imageUrls data) (w_db w) row Hrow eq_refl) as Hin.
    assert (l = refresh_listing now (price data) (imageUrls data) row) as ->;
      [|done].
    apply (NoDup_fmap_eq l_realtor_url _ _ _ Hurls); [done|done|].
    cbn. congruence.
Qed.

(** X9, witness: the Listing of [db_one] is retired ten days on and then
    observed again. *)
Lemma upsert_reactivates_witness :
  l_is_active
    <$> listings (w_db (markInactiveListings [2] env_late world_one).1)
  = [false]
  ∧ wf_db (w_db (markInactiveListings [2] env_late world_one).1)
  ∧ ∃ w' r,
      upsertListing (snapshot_of url_a (Some 500000)) env_late
        (markInactiveListings [2] env_late world_one).1 = (w', inr r)
      ∧ ∀ l, l ∈ listings (w_db w') → l_realtor_url l = url_a →
          l_is_active l = true.
Proof.
  assert (wf_db (w_db (markInactiveListings [2] env_late world_one).1)) as Hwf.
  { eapply wf_db_same_prices; [|exact wf_db_one].
    apply (update_inactive_same_prices [2]). }
  split_and!; [reflexivity|exact Hwf|].
  destruct (upsert_reactivates env_late _ (snapshot_of url_a (Some 500000))
              Hwf eq_refl) as (w' & r & Hup & _ & Hall).
  exists w', r. split; [exact Hup|]. intros l Hl Hu.
  by destruct (Hall l Hl Hu) as (_ & ? & _).
Defined.

(** ** A pass that resolves *)

Lemma upsert_batch_length env batch :
  ∀ w w' rs, upsert_batch batch env w = (w', inr rs) →
  length rs = length batch.
Proof.
  induction batch as [|data rest IH]; intros w w' rs Hrun.
  - cbn in Hrun. by injection Hrun as _ <-.
  - cbn [upsert_batch] in Hrun. unfold mbind, M_bind, mret, M_ret in Hrun.
    destruct (upsertListing data env w) as [w1 [e|r]]; [done|].
    destruct (upsert_batch rest env w1) as [w2 [e|rs']] eqn:Hrest; [done|].
    injection Hrun as _ <-. cbn. f_equal. by eapply IH.
Qed.

Lemma tally_counts rs :
  ∀ acc,
  found (foldl tally acc rs).1 = found acc.1 + Z.of_nat (length rs)
  ∧ new (foldl tally acc rs).1 + updated (foldl tally acc rs).1
    + priceChanges (foldl tally acc rs).1
    = new acc.1 + updated acc.1 + priceChanges acc.1 + Z.of_nat (length rs)
  ∧ new acc.1 ≤ new (foldl tally acc rs).1
  ∧ updated acc.1 ≤ updated (foldl tally acc rs).1
  ∧ priceChanges acc.1 ≤ priceChanges (foldl tally acc rs).1
  ∧ (foldl tally acc rs).2 = acc.2 ++ (listingId <$> rs).
Proof.
  induction rs as [|r rs IH]; intros acc; cbn [foldl length fmap list_fmap].
  - rewrite app_nil_r. split_and!; try done; lia.
  - destruct (IH (tally acc r)) as (Hf & Hsum & Hn & Hu & Hc & Hids).
    rewrite Hids. unfold tally in *. cbn [fst snd] in *.
    destruct (isNew r); [|destruct (priceChanged r)]; cbn in *;
      rewrite <- app_assoc; split_and!; try done; lia.
Qed.

(** The tables a resolved pass leaves: the batch of upserts, then
    retirement, then the closing of the run. *)
Lemma runScrape_resolves_db env w maxListings pages :
  no_faults env →
  ∃ w1 rs w2,
    upsert_batch (geocoded env <$> scrape_pages maxListings 50 pages [] ∅) env
      (mkWorld (insert_scrape_run (call_now (store_call env (w_calls w)))
                  (w_db w)).1
               (S (w_calls w)))
    = (w1, inr rs)
    ∧ markInactiveListings (foldl tally (stats0, []) rs).2 env w1
      = (w2, inr tt)
    ∧ runScrape maxListings (inr pages) env w
      = (mkWorld
           (update_run_completed (scrape_runs_seq (w_db w) + 1)
              (foldl tally (stats0, []) rs).1
              (call_now (store_call env (w_calls w2))) (w_db w2)).1
           (S (w_calls w2)),
         inr (foldl tally (stats0, []) rs).1).
Proof.
  intros Hnf. rewrite (runScrape_start _ _ _ _ (Hnf _)).
  set (w0 := mkWorld _ _). set (runId := scrape_runs_seq (w_db w) + 1).
  set (listings := scrape_pages maxListings 50 pages [] ∅).
  destruct (upsert_batch_ok env (geocoded env <$> listings) Hnf w0)
    as (w1 & rs & Hbatch).
  pose proof (for_each_reconcile_batch env listings (stats0, []) w0) as Hloop.
  rewrite Hbatch in Hloop. set (acc := foldl tally (stats0, []) rs) in *.
  assert (∃ w2, markInactiveListings acc.2 env w1 = (w2, inr tt))
    as (w2 & Hretire).
  { unfold markInactiveListings. case_decide; [by eexists|].
    rewrite (query_ok _ _ _ (Hnf _)). by eexists. }
  exists w1, rs, w2. split; [done|]. split; [done|].
  unfold try_catch, runScrape_try. cbn [scrape].
  rewrite (bind_ok _ _ env w0 w0 listings) by done.
  rewrite (bind_ok _ _ _ _ _ _ Hloop), (bind_ok _ _ _ _ _ _ Hretire).
  unfold completeScrapeRun.
  by rewrite (bind_ok _ _ _ _ _ _ (query_ok _ env w2 (Hnf _))).
Qed.

(** X10: with the store answering, a pass counts every snapshot [scrape]
    handed over exactly once: [found] is their number, and each is counted
    either as new, or as price change, or as updated. *)
Theorem pass_counts_each_snapshot_once (env : Env) (w : World)
    (maxListings : nat) (pages : list (list Snapshot)) :
  no_faults env →
  ∃ w' stats,
    runScrape maxListings (inr pages) env w = (w', inr stats)
    ∧ found stats = Z.of_nat (length (scrape_pages maxListings 50 pages [] ∅))
    ∧ found stats = new stats + updated stats + priceChanges stats
    ∧ 0 ≤ new stats ∧ 0 ≤ updated stats ∧ 0 ≤ priceChanges stats.
Proof.
  intros Hnf.
  destruct (runScrape_resolves_db env w maxListings pages Hnf)
    as (w1 & rs & w2 & Hbatch & _ & Hpass).
  apply upsert_batch_length in Hbatch. rewrite length_fmap in Hbatch.
  destruct (tally_counts rs (stats0, [])) as (Hf & Hsum & Hn & Hu & Hc & _).
  cbn [fst stats0 found new updated priceChanges] in *.
  eexists _, _. split; [exact Hpass|]. rewrite <- Hbatch. split_and!; lia.
Qed.

(** X10, witness. *)
Lemma pass_counts_each_snapshot_once_witness :
  no_faults env_ok
  ∧ ∃ w' stats,
      runScrape 500 (inr pages_with_repeat) env_ok world_one = (w', inr stats)
      ∧ found stats = 2
      ∧ found stats = new stats + updated stats + priceChanges stats.
Proof.
  split; [exact env_ok_no_faults|].
  destruct (pass_counts_each_snapshot_once env_ok world_one 500
              pages_with_repeat env_ok_no_faults)
    as (w' & stats & Hrun & Hfound & Hsum & _).
  by exists w', stats.
Defined.

Lemma update_run_completed_marks runId stats now d :
  (∃ run, run ∈ scrape_runs d ∧ sr_id run = runId) →
  marked_completed runId now stats (update_run_completed runId stats now d).1.
Proof.
  intros (run & Hrun & Hid). split.
  - exists (complete_run now stats run). split; [|done].
    cbn. apply list_elem_of_fmap. exists run. by rewrite decide_True.
  - cbn. intros r (r0 & -> & Hr0)%list_elem_of_fmap. case_decide; [|done].
    intros _. cbn. done.
Qed.

Lemma upsert_batch_same_runs env batch :
  ∀ w, scrape_runs (w_db (upsert_batch batch env w).1) = scrape_runs (w_db w).
Proof.
  induction batch as [|data rest IH]; intros w; [done|].
  cbn [upsert_batch]. unfold mbind, M_bind, mret, M_ret.
  pose proof (respects_query same_runs (λ now, upsert_tx now data)
                (λ now d, upsert_tx_same_runs now data d) env w) as Hup.
  fold (upsertListing data) in Hup.
  destruct (upsertListing data env w) as [w1 [e|r]]; [done|].
  specialize (IH w1).
  destruct (upsert_batch rest env w1) as [w2 [e|rs]]; cbn [fst] in *;
    by rewrite IH.
Qed.

(** X11: with the store answering, a pass closes the run record it opened:
    the ScrapeRun it created has status completed, a finished_at stamp, and
    the very counters the pass returns; the stamp is the [NOW()] of the last
    store call. *)
Theorem pass_closes_its_run (env : Env) (w : World) (maxListings : nat)
    (pages : list (list Snapshot)) :
  no_faults env →
  ∃ w' stats,
    runScrape maxListings (inr pages) env w = (w', inr stats)
    ∧ marked_completed (scrape_runs_seq (w_db w) + 1)
        (call_now (store_call env (pred (w_calls w')))) stats (w_db w').
Proof.
  intros Hnf.
  destruct (runScrape_resolves_db env w maxListings pages Hnf)
    as (w1 & rs & w2 & Hbatch & Hretire & Hpass).
  eexists _, _. split; [exact Hpass|]. cbn [w_db w_calls pred].
  apply update_run_completed_marks.
  destruct (insert_scrape_run_elem (call_now (store_call env (w_calls w)))
              (w_db w)) as (run & Hrun & Hid & _).
  exists run. split; [|done].
  pose proof (respects_markInactiveListings same_runs
                (foldl tally (stats0, []) rs).2 ltac:(done) env w1) as Hsame.
  rewrite Hretire in Hsame. unfold same_runs in Hsame. cbn [fst] in Hsame.
  rewrite Hsame.
  pose proof (upsert_batch_same_runs env
                (geocoded env <$> scrape_pages maxListings 50 pages [] ∅)
                (mkWorld (insert_scrape_run
                            (call_now (store_call env (w_calls w))) (w_db w)).1
                         (S (w_calls w)))) as Hruns.
  rewrite Hbatch in Hruns. cbn [fst w_db] in Hruns. by rewrite Hruns.
Qed.

(** X11, witness. *)
Lemma pass_closes_its_run_witness :
  no_faults env_ok
  ∧ ∃ w' stats now,
      runScrape 500 (inr pages_with_repeat) env_ok world_one = (w', inr stats)
      ∧ marked_completed 1 now stats (w_db w').
Proof.
  split; [exact env_ok_no_faults|].
  destruct (pass_closes_its_run env_ok world_one 500 pages_with_repeat
              env_ok_no_faults) as (w' & stats & Hrun & Hdone).
  by eexists w', stats, _.
Defined.

(** X12: when the store rejects [startScrapeRun], the pass rejects with that
    error after this one store call: no ScrapeRun exists for the pass,
    [failScrapeRun] is not called, and no table has changed. *)
Theorem pass_rejected_at_start (env : Env) (w : World) (maxListings : nat)
    (site : string + list (list Snapshot)) (err : string) :
  call_fault (store_call env (w_calls w)) = Some err →
  runScrape maxListings site env w
  = (mkWorld (w_db w) (S (w_calls w)), inl err).
Proof.
  intros Hf. unfold runScrape. apply bind_err. by apply query_fault.
Qed.

(** X12, witness. *)
Lemma pass_rejected_at_start_witness :
  call_fault (store_call env_outage 2) = Some "Connection terminated"
  ∧ runScrape 500 (inr pages_with_repeat) env_outage (mkWorld db_one 2)
    = (mkWorld db_one 3, inl "Connection terminated").
Proof.
  split; [reflexivity|].
  exact (pass_rejected_at_start env_outage (mkWorld db_one 2) 500
           (inr pages_with_repeat) "Connection terminated" eq_refl).
Defined.

(** ** What a resolved pass leaves active *)

Lemma upsert_tx_active_id now data d :
  ∃ l, l ∈ listings (upsert_tx now data d).1
       ∧ l_realtor_url l = detailUrl data
       ∧ l_id l = listingId (upsert_tx now data d).2
       ∧ l_is_active l = true.
Proof.
  destruct (select_by_url (detailUrl data) d) as [|row rest] eqn:Hsel.
  - exists (listing_row now (listings_seq d + 1) data).
    rewrite upsert_tx_new by done. cbn [fst snd listingId].
    split; [|done].
    assert (listing_row now (listings_seq d + 1) data
              ∈ listings (insert_listing now data d).1) as Hin
      by (cbn; apply elem_of_app; right; left).
    by destruct (truthy (price data)).
  - destruct (upsert_tx_listings_existing now _ _ _ _ Hsel) as (-> & -> & _).
    assert (row ∈ select_by_url (detailUrl data) d) as Hrow
      by (rewrite Hsel; left).
    apply list_elem_of_filter in Hrow as [Hurl Hrow].
    exists (refresh_listing now (price data) (imageUrls data) row).
    split; [by apply update_listing_elem|done].
Qed.

Lemma upsert_tx_active_id_kept now data d :
  active_id_kept d (upsert_tx now data d).1.
Proof.
  intros url id (l & Hl & Hurl & Hid & Hact).
  destruct (select_by_url (detailUrl data) d) as [|row rest] eqn:Hsel.
  - exists l. rewrite upsert_tx_new by done. cbn [fst].
    split; [|done].
    assert (l ∈ listings (insert_listing now data d).1) as Hin
      by (cbn; apply elem_of_app; by left).
    by destruct (truthy (price data)).
  - destruct (upsert_tx_listings_existing now _ _ _ _ Hsel) as (-> & _ & _).
    exists (if decide (l_id l = l_id row)
            then refresh_listing now (price data) (imageUrls data) l else l).
    split; [cbn; apply list_elem_of_fmap; by exists l|].
    by case_decide.
Qed.

Lemma upsert_batch_active env batch :
  ∀ w w' rs,
  upsert_batch batch env w = (w', inr rs) →
  (∀ url id,
     (∃ l, l ∈ listings (w_db w) ∧ l_realtor_url l = url ∧ l_id l = id
           ∧ l_is_active l = true) →
     ∃ l, l ∈ listings (w_db w') ∧ l_realtor_url l = url ∧ l_id l = id
          ∧ l_is_active l = true)
  ∧ ∀ s, s ∈ batch →
      ∃ l, l ∈ listings (w_db w') ∧ l_realtor_url l = detailUrl s
           ∧ l_id l ∈ listingId <$> rs ∧ l_is_active l = true.
Proof.
  induction batch as [|data rest IH]; intros w w' rs Hrun.
  - cbn in Hrun. injection Hrun as <- <-. split; [done|].
    intros s Hs. by apply elem_of_nil in Hs.
  - cbn [upsert_batch] in Hrun. unfold mbind, M_bind, mret, M_ret in Hrun.
    destruct (upsertListing data env w) as [w1 [e|r]] eqn:Hup; [done|].
    destruct (upsert_batch rest env w1) as [w2 [e|rs']] eqn:Hrest; [done|].
    injection Hrun as <- <-.
    destruct (IH w1 w2 rs' Hrest) as [Hkept Hall].
    assert (∃ now, w_db w1 = (upsert_tx now data (w_db w)).1
                   ∧ r = (upsert_tx now data (w_db w)).2) as (now & Hdb & Hr).
    { destruct (call_fault (store_call env (w_calls w))) as [e|] eqn:Hf.
      - unfold upsertListing in Hup. by rewrite (query_fault _ _ _ _ Hf) in Hup.
      - rewrite (upsertListing_ok _ _ _ Hf) in Hup. injection Hup as <- <-.
        by eexists. }
    split.
    + intros url id Hex. apply Hkept. rewrite Hdb.
      by apply upsert_tx_active_id_kept.
    + intros s [->|Hs]%elem_of_cons.
      * destruct (upsert_tx_active_id now data (w_db w))
          as (l & Hl & Hurl & Hid & Hact).
        rewrite <- Hdb, <- Hr in *.
        destruct (Hkept (detailUrl data) (listingId r))
          as (l' & Hl' & Hurl' & Hid' & Hact'); [by exists l|].
        exists l'. split_and!; try done. rewrite Hid'. left.
      * destruct (Hall s Hs) as (l & Hl & Hurl & Hid & Hact).
        exists l. split_and!; try done. by right.
Qed.

Lemma update_inactive_keeps_observed activeIds now d l :
  l ∈ listings d → l_id l ∈ activeIds →
  l ∈ listings (update_inactive activeIds now d).1.
Proof.
  intros Hl Hid. cbn. apply list_elem_of_fmap. exists l. split; [|done].
  unfold retire_cond. by rewrite bool_decide_eq_false_2 by (by intros ?).
Qed.

(** X13: with the store answering, every snapshot [scrape] handed over has an
    active Listing when the pass returns: the retirement step at the end of
    the pass never retires a Listing the pass has just upserted, however old
    the pass has become meanwhile. *)
Theorem pass_leaves_observed_active (env : Env) (w : World) (maxListings : nat)
    (pages : list (list Snapshot)) :
  no_faults env →
  ∃ w' stats,
    runScrape maxListings (inr pages) env w = (w', inr stats)
    ∧ ∀ s, s ∈ scrape_pages maxListings 50 pages [] ∅ →
        ∃ l, l ∈ listings (w_db w') ∧ l_realtor_url l = detailUrl s
             ∧ l_is_active l = true.
Proof.
  intros Hnf.
  destruct (runScrape_resolves_db env w maxListings pages Hnf)
    as (w1 & rs & w2 & Hbatch & Hretire & Hpass).
  eexists _, _. split; [exact Hpass|]. cbn [w_db]. intros s Hs.
  destruct (upsert_batch_active _ _ _ _ _ Hbatch) as [_ Hall].
  destruct (Hall (geocoded env s)) as (l & Hl & Hurl & Hid & Hact).
  { by apply list_elem_of_fmap_2. }
  rewrite geocoded_detailUrl in Hurl.
  exists l. split; [|done].
  change (listings (update_run_completed ?i ?st ?n ?d).1) with (listings d).
  destruct (tally_counts rs (stats0, [])) as (_ & _ & _ & _ & _ & Hids).
  cbn [snd app] in Hids. unfold markInactiveListings in Hretire.
  case_decide as Hempty.
  - injection Hretire as <-. done.
  - rewrite (query_ok _ _ _ (Hnf _)) in Hretire. injection Hretire as <-.
    cbn [w_db]. apply update_inactive_keeps_observed; [done|].
    by rewrite Hids.
Qed.

(** X13, witness: the pass starts ten days after the Listing of [db_one] was
    last seen and observes it again. *)
Lemma pass_leaves_observed_active_witness :
  no_faults env_late
  ∧ ∃ w' stats l,
      runScrape 500 (inr pages_with_repeat) env_late world_one
        = (w', inr stats)
      ∧ l ∈ listings (w_db w') ∧ l_realtor_url l = url_a
      ∧ l_is_active l = true.
Proof.
  split; [exact env_late_no_faults|].
  destruct (pass_leaves_observed_active env_late world_one 500
              pages_with_repeat env_late_no_faults)
    as (w' & stats & Hrun & Hall).
  destruct (Hall (snapshot_of url_a (Some 500000))) as (l & Hl & Hurl & Hact).
  { vm_compute. left. }
  by exists w', stats, l.
Defined.

(** ** Run records *)

#[global] Instance other_runs_kept_preorder runId :
  PreOrder (other_runs_kept runId).
Proof.
  split.
  - by intros d.
  - intros d1 d2 d3 (? & ? & ?) (? & ? & ?). split_and!; congruence.
Qed.

Lemma runScrape_body_respects (R : Db → Db → Prop) `{!PreOrder R} runId
    maxListings site :
  (∀ now data d, R d (upsert_tx now data d).1) →
  (∀ ids now d, R d (update_inactive ids now d).1) →
  (∀ stats now d, R d (update_run_completed runId stats now d).1) →
  (∀ err now d, R d (update_run_failed runId err now d).1) →
  respects R (try_catch (runScrape_try runId maxListings site)
                (runScrape_catch runId)).
Proof.
  intros Hup Hret Hdone Hfail.
  apply (respects_try_catch R).
  - unfold runScrape_try.
    apply (respects_bind R); [by apply (respects_scrape R)|]. intros listings.
    apply (respects_bind R).
    { apply (respects_for_each R). intros acc x.
      by apply (respects_reconcile R). }
    intros acc.
    apply (respects_bind R); [by apply (respects_markInactiveListings R)|].
    intros _. apply (respects_bind R); [by apply (respects_query R)|].
    intros _. by apply (respects_ret R).
  - intros err. unfold runScrape_catch.
    apply (respects_bind R); [by apply (respects_query R)|].
    intros _. by apply (respects_throw R).
Qed.

Lemma upsert_tx_other_runs_kept runId now data d :
  other_runs_kept runId d (upsert_tx now data d).1.
Proof.
  pose proof (upsert_tx_same_runs now data d) as Hruns.
  unfold same_runs in Hruns. split_and!; rewrite ?Hruns; try done.
  unfold upsert_tx.
  destruct (select_by_url _ _); cbn;
    destruct (price data) as [p|]; try done.
  - by destruct (p =? 0).
  - by destruct (_ && _).
Qed.

Lemma update_run_other_runs_kept runId (f : ScrapeRun → ScrapeRun) d :
  (∀ r, sr_id (f r) = sr_id r) →
  other_runs_kept runId d
    (set_scrape_runs
       ((λ r, if decide (sr_id r = runId) then f r else r) <$> scrape_runs d)
       (scrape_runs_seq d) d).
Proof.
  intros Hf. split_and!; [| |done]; cbn; rewrite <- list_fmap_compose;
    apply list_fmap_ext; intros _ r _; cbn.
  - destruct (decide (sr_id r = runId)) as [Hr|Hr].
    + rewrite decide_True; [done|by rewrite Hf].
    + by rewrite decide_False.
  - case_decide; [apply Hf|done].
Qed.

Lemma other_runs_kept_app runId d d' old run0 :
  other_runs_kept runId d d' →
  scrape_runs d = old ++ [run0] →
  Forall (λ r, sr_id r ≠ runId) old →
  ∃ run, scrape_runs d' = old ++ [run] ∧ sr_id run = sr_id run0.
Proof.
  intros (Hmask & Hids & _) Hd Hold. rewrite Hd in Hmask, Hids.
  clear Hd. revert Hmask Hids. generalize (scrape_runs d').
  induction Hold as [|r old Hr _ IH]; intros runs' Hmask Hids.
  - destruct runs' as [|run [|? ?]]; try done.
    cbn in Hids. injection Hids as Hid. by exists run.
  - destruct runs' as [|r' runs']; [done|].
    rewrite <- !app_comm_cons in Hmask, Hids.
    rewrite !fmap_cons in Hmask. rewrite !fmap_cons in Hids.
    injection Hmask as Hhead Hmask. injection Hids as _ Hids.
    destruct (IH runs' Hmask Hids) as (run & -> & Hid).
    exists run. split; [|done].
    rewrite (decide_False (P := sr_id r = runId)) in Hhead by done.
    destruct (decide (sr_id r' = runId)); [done|]. by injection Hhead as ->.
Qed.

(** X14: a pass touches no run record but its own.  Whenever its
    [startScrapeRun] is accepted, then whatever the site and the store do
    afterwards, and however the pass ends, the run records of before are
    all there unchanged and exactly one record has been added, with the next
    id of the sequence. *)
Theorem pass_adds_one_run_record (env : Env) (w : World) (maxListings : nat)
    (site : string + list (list Snapshot)) :
  call_fault (store_call env (w_calls w)) = None →
  Forall (λ r, sr_id r ≤ scrape_runs_seq (w_db w)) (scrape_runs (w_db w)) →
  ∃ run,
    scrape_runs (w_db (runScrape maxListings site env w).1)
    = scrape_runs (w_db w) ++ [run]
    ∧ sr_id run = scrape_runs_seq (w_db w) + 1.
Proof.
  intros Hok Hseq. rewrite (runScrape_start _ _ _ _ Hok).
  set (runId := scrape_runs_seq (w_db w) + 1). set (w0 := mkWorld _ _).
  pose proof (runScrape_body_respects (other_runs_kept runId) runId maxListings
                site) as Hbody.
  edestruct (other_runs_kept_app runId (w_db w0)) as (run & Hruns & Hid).
  - apply (Hbody (upsert_tx_other_runs_kept runId) ltac:(done)
             ltac:(intros; by apply update_run_other_runs_kept)
             ltac:(intros; by apply update_run_other_runs_kept) env w0).
  - reflexivity.
  - eapply Forall_impl; [exact Hseq|]. intros r Hr. cbn in Hr. unfold runId. lia.
  - by exists run.
Qed.

(** X14, witness: a pass with a rejected upsert on the empty store. *)
Lemma pass_adds_one_run_record_witness :
  call_fault (store_call env_one_fault (w_calls world_empty)) = None
  ∧ Forall (λ r, sr_id r ≤ scrape_runs_seq (w_db world_empty))
      (scrape_runs (w_db world_empty))
  ∧ ∃ run,
      scrape_runs
        (w_db (runScrape 500 (inr pages_with_repeat) env_one_fault
                 world_empty).1) = [run]
      ∧ sr_id run = 1.
Proof.
  assert (Forall (λ r, sr_id r ≤ scrape_runs_seq (w_db world_empty))
            (scrape_runs (w_db world_empty))) as Hseq by constructor.
  split_and!; [reflexivity|exact Hseq|].
  exact (pass_adds_one_run_record env_one_fault world_empty 500
           (inr pages_with_repeat) eq_refl Hseq).
Defined.

(** * More of the scraper: the image list of a snapshot *)

Lemma digit_run_app ds c rest :
  Forall (λ d, is_digit d = true) ds → is_digit c = false →
  digit_run (ds ++ c :: rest) = length ds.
Proof.
  intros Hds Hc. induction Hds as [|d ds Hd _ IH]; cbn.
  - by rewrite Hc.
  - by rewrite Hd, IH.
Qed.

Lemma digit_run_spec s :
  (digit_run s ≤ length s)%nat
  ∧ Forall (λ d, is_digit d = true) (take (digit_run s) s).
Proof.
  induction s as [|c s [IHle IHall]]; cbn; [by split|].
  destruct (is_digit c) eqn:Hc; cbn; split; try lia; by constructor.
Qed.

Lemma is_jpg_extension_length ext : is_jpg_extension ext = true → length ext = 4%nat.
Proof. by destruct ext as [|? [|? [|? [|? [|? ?]]]]]. Qed.

(** The pattern recognises what it describes: a first group that ends with
    an underscore, digits, and the extension. *)
Lemma match_numbered_compose prefix digits extension :
  is_jpg_extension extension = true →
  digits ≠ [] →
  Forall (λ d, is_digit d = true) digits →
  last prefix = Some "_"%char →
  (2 ≤ length prefix)%nat →
  has_line_terminator prefix = false →
  match_numbered (prefix ++ digits ++ extension) = Some (prefix, extension).
Proof.
  intros Hext Hne Hdigits Hlast Hlen Hlt.
  pose proof (is_jpg_extension_length _ Hext) as Hext4.
  unfold match_numbered. rewrite app_assoc.
  replace (length ((prefix ++ digits) ++ extension) - 4)%nat
    with (length (prefix ++ digits))
    by (rewrite (length_app (prefix ++ digits)); lia).
  rewrite take_app_length, drop_app_length, Hext.
  pose proof Hlast as (p' & Hp')%last_Some.
  assert (digit_run (reverse (prefix ++ digits)) = length digits) as Hrun.
  { rewrite reverse_app, Hp', reverse_app. cbn [reverse app].
    rewrite <- (length_reverse digits).
    apply digit_run_app; [by apply Forall_reverse|done]. }
  rewrite Hrun.
  replace (length (prefix ++ digits) - length digits)%nat with (length prefix)
    by (rewrite length_app; lia).
  rewrite take_app_length, Hlt, Hlast.
  rewrite !bool_decide_eq_true_2; [done|done|done|].
  by destruct digits.
Qed.

(** And it recognises nothing else. *)
Lemma match_numbered_inv s prefix extension :
  match_numbered s = Some (prefix, extension) →
  ∃ digits,
    s = prefix ++ digits ++ extension
    ∧ digits ≠ []
    ∧ Forall (λ d, is_digit d = true) digits
    ∧ is_jpg_extension extension = true
    ∧ last prefix = Some "_"%char
    ∧ (2 ≤ length prefix)%nat
    ∧ has_line_terminator prefix = false.
Proof.
  unfold match_numbered.
  set (body := take (length s - 4) s).
  set (k := digit_run (reverse body)).
  destruct (_ && _) eqn:Hcond; [|done]. intros [= <- <-].
  rewrite !andb_true_iff, !bool_decide_eq_true, negb_true_iff in Hcond.
  destruct Hcond as ((((Hext & Hk) & Hlast) & Hlen) & Hlt).
  destruct (digit_run_spec (reverse body)) as [Hle Hall].
  fold k in Hle, Hall. rewrite length_reverse in Hle.
  exists (drop (length body - k) body).
  rewrite app_assoc, take_drop. unfold body at 1. rewrite take_drop.
  split_and!; try done.
  - intros Hnil. apply (f_equal length) in Hnil.
    rewrite length_drop in Hnil. cbn in Hnil. lia.
  - apply Forall_reverse. rewrite reverse_drop.
    by replace (length body - (length body - k))%nat with k by lia.
Qed.

(** X15: for a CDN image URL whose high-resolution form is a first group
    ending in an underscore, a number, and a [.jpg] extension,
    [generateImageUrls] returns exactly [MAX_IMAGES] = 80 pairwise distinct
    URLs, the first group followed by 1, 2, ..., 80 and the extension; the
    number of the URL it was given plays no part. *)
Theorem generateImageUrls_numbered (base : string)
    (prefix digits extension : list ascii) :
  truthy_str base = true →
  js_includes cdn_host (String.list_ascii_of_string base) = true →
  js_replace lowres_segment highres_segment (String.list_ascii_of_string base)
  = prefix ++ digits ++ extension →
  is_jpg_extension extension = true →
  digits ≠ [] →
  forallb is_digit digits = true →
  last prefix = Some "_"%char →
  (2 ≤ length prefix)%nat →
  has_line_terminator prefix = false →
  generateImageUrls (Some base)
  = numbered_url prefix extension <$> seq 0 MAX_IMAGES
  ∧ length (generateImageUrls (Some base)) = 80%nat
  ∧ NoDup (generateImageUrls (Some base)).
Proof.
  intros Hbase Hcdn Hhigh Hext Hne Hdigits Hlast Hlen Hlt.
  assert (generateImageUrls (Some base)
          = numbered_url prefix extension <$> seq 0 MAX_IMAGES) as ->.
  { unfold generateImageUrls. rewrite Hbase, Hcdn, Hhigh. cbn [negb].
    rewrite match_numbered_compose; try done.
    apply Forall_forall. intros d Hd.
    rewrite forallb_forall in Hdigits. apply Hdigits.
    by apply list_elem_of_In. }
  split_and!; [done|by rewrite length_fmap, length_seq|].
  apply NoDup_fmap_2_strong; [|apply NoDup_seq].
  intros i j _ _ Heq. unfold numbered_url in Heq.
  apply (f_equal String.list_ascii_of_string) in Heq.
  rewrite !String.list_ascii_of_string_of_list_ascii in Heq.
  apply app_inv_head, app_inv_tail in Heq.
  apply (f_equal String.string_of_list_ascii) in Heq.
  rewrite !String.string_of_list_ascii_of_string in Heq.
  apply (inj pretty) in Heq. lia.
Qed.

(** X15, witness: the fourth low-resolution image of a listing. *)
Lemma generateImageUrls_numbered_witness :
  truthy_str image_url_lowres = true
  ∧ js_includes cdn_host (String.list_ascii_of_string image_url_lowres) = true
  ∧ js_replace lowres_segment highres_segment
      (String.list_ascii_of_string image_url_lowres)
    = String.list_ascii_of_string
        "https://cdn.realtor.ca/listing/TS638/reb82/highres/3/x1234563_"
      ++ ["4"%char] ++ String.list_ascii_of_string ".jpg"
  ∧ generateImageUrls (Some image_url_lowres) !! 0%nat
    = Some "https://cdn.realtor.ca/listing/TS638/reb82/highres/3/x1234563_1.jpg"
  ∧ length (generateImageUrls (Some image_url_lowres)) = 80%nat
  ∧ NoDup (generateImageUrls (Some image_url_lowres)).
Proof.
  destruct (generateImageUrls_numbered image_url_lowres
              (String.list_ascii_of_string
                 "https://cdn.realtor.ca/listing/TS638/reb82/highres/3/x1234563_")
              ["4"%char] (String.list_ascii_of_string ".jpg"))
    as (Hurls & Hlen & Hnd);
    [reflexivity|reflexivity|reflexivity|reflexivity|done|reflexivity
    |reflexivity|cbn; lia|reflexivity|].
  split_and!; [reflexivity|reflexivity|reflexivity| |exact Hlen|exact Hnd].
  rewrite Hurls. reflexivity.
Defined.

Lemma truthy_str_false s : truthy_str s = false ↔ s = EmptyString.
Proof. by destruct s. Qed.

(** X16: [generateImageUrls] returns no URL exactly for a missing or empty
    image URL, and otherwise either one URL or [MAX_IMAGES] = 80 of them;
    it returns more than one only for a URL whose high-resolution form
    consists of a first group ending in an underscore, a number and a [.jpg]
    extension in any letter case, and then the list is that group followed by
    1 to 80 and the extension. *)
Theorem generateImageUrls_shape (baseImageUrl : option string) :
  (generateImageUrls baseImageUrl = []
   ↔ baseImageUrl = None ∨ baseImageUrl = Some EmptyString)
  ∧ (length (generateImageUrls baseImageUrl) ≤ 1
     ∨ length (generateImageUrls baseImageUrl) = 80)%nat
  ∧ ((1 < length (generateImageUrls baseImageUrl))%nat →
     ∃ base prefix digits extension,
       baseImageUrl = Some base
       ∧ js_replace lowres_segment highres_segment
           (String.list_ascii_of_string base)
         = prefix ++ digits ++ extension
       ∧ digits ≠ []
       ∧ Forall (λ d, is_digit d = true) digits
       ∧ is_jpg_extension extension = true
       ∧ last prefix = Some "_"%char
       ∧ generateImageUrls baseImageUrl
         = numbered_url prefix extension <$> seq 0 MAX_IMAGES).
Proof.
  destruct baseImageUrl as [base|]; cbn [generateImageUrls].
  2: { split_and!; [split; [by left|done]|left; cbn; lia|cbn; lia]. }
  destruct (truthy_str base) eqn:Hbase; cbn [negb].
  2: { apply truthy_str_false in Hbase as ->.
       split_and!; [split; [by right|done]|left; cbn; lia|cbn; lia]. }
  assert (base ≠ EmptyString) as Hne by (intros ->; done).
  destruct (js_includes cdn_host (String.list_ascii_of_string base));
    cbn [negb].
  2: { split_and!; [split; [done|intros [?|?]; congruence]|left; cbn; lia|cbn; lia]. }
  destruct (match_numbered _) as [[prefix extension]|] eqn:Hmatch.
  2: { split_and!; [split; [done|intros [?|?]; congruence]|left; cbn; lia|cbn; lia]. }
  apply match_numbered_inv in Hmatch
    as (digits & Hhigh & Hd & Hdigits & Hext & Hlast & _ & _).
  split_and!.
  - split; [done|intros [?|?]; congruence].
  - right. by rewrite length_fmap, length_seq.
  - intros _. by exists base, prefix, digits, extension.
Qed.

(** X17: every snapshot the extractor builds carries an image list, so an
    upsert of such a snapshot always writes the image list.  In a store whose
    Listing ids are unique and issued by the sequence, after a committed
    upsert the Listing it reports holds exactly the URLs generated from the
    card's image, whatever images were stored before; it holds the empty
    list when the card had no image. *)
Theorem extracted_snapshot_replaces_images (env : Env) (w : World)
    (imageUrl : option string) (data : Snapshot) :
  wf_db (w_db w) →
  call_fault (store_call env (w_calls w)) = None →
  ∃ w' r,
    upsertListing (attach_images imageUrl data) env w = (w', inr r)
    ∧ (∃ l, l ∈ listings (w_db w') ∧ l_id l = listingId r
            ∧ l_realtor_url l = detailUrl data)
    ∧ (∀ l, l ∈ listings (w_db w') → l_id l = listingId r →
         l_image_urls l = Some (generateImageUrls imageUrl))
    ∧ (imageUrl = None ∨ imageUrl = Some EmptyString →
       ∀ l, l ∈ listings (w_db w') → l_id l = listingId r →
         l_image_urls l = Some []).
Proof.
  intros Hwf Hok.
  pose proof (upsertListing_ok env w (attach_images imageUrl data) Hok) as Hup.
  set (now := call_now _) in *. set (data' := attach_images imageUrl data) in *.
  eexists _, _. split; [exact Hup|]. cbn [w_db].
  assert (∀ l, l ∈ listings (upsert_tx now data' (w_db w)).1 →
               l_id l = listingId (upsert_tx now data' (w_db w)).2 →
               l_image_urls l = Some (generateImageUrls imageUrl)) as Himg.
  { destruct (select_by_url (detailUrl data') (w_db w)) as [|row rest] eqn:Hsel.
    - rewrite upsert_tx_new by done. cbn [fst snd listingId].
      intros l Hl Hid.
      assert (l ∈ listings (insert_listing now data' (w_db w)).1) as Hl'
        by (by destruct (truthy (price data'))).
      cbn in Hl'. apply elem_of_app in Hl' as [Hl'|Hl'].
      + pose proof (wf_seq _ Hwf) as Hseq.
        rewrite Forall_forall in Hseq. specialize (Hseq l Hl'). lia.
      + by apply list_elem_of_singleton in Hl' as ->.
    - destruct (upsert_tx_listings_existing now data' (w_db w) row rest Hsel)
        as (-> & -> & _).
      cbn. intros l (l0 & -> & Hl0)%list_elem_of_fmap Hid.
      case_decide as Hl0id; [done|]. by destruct Hl0id. }
  split_and!.
  - destruct (upsert_tx_active_id now data' (w_db w))
      as (l & Hl & Hurl & Hid & _).
    by exists l.
  - exact Himg.
  - intros Hnone l Hl Hid. rewrite (Himg l Hl Hid).
    by destruct Hnone as [->| ->].
Qed.

(** X17, witness: the stored Listing is seen again on a card without image. *)
Lemma extracted_snapshot_replaces_images_witness :
  wf_db (w_db world_one)
  ∧ ∃ w' r,
      upsertListing
        (attach_images None (snapshot_with_image url_a (Some 500000)))
        env_ok world_one = (w', inr r)
      ∧ listingId r = 1
      ∧ ∀ l, l ∈ listings (w_db w') → l_id l = listingId r →
          l_image_urls l = Some [].
Proof.
  split; [exact wf_db_one|].
  destruct (extracted_snapshot_replaces_images env_ok world_one None
              (snapshot_with_image url_a (Some 500000)) wf_db_one eq_refl)
    as (w' & r & Hup & _ & _ & Hnone).
  exists w', r. split; [exact Hup|]. split.
  - vm_compute in Hup. by injection Hup as <- <-.
  - apply Hnone. by left.
Defined.

(** * The app's side of the store: swipes, favorites, the feed and users *)

(** ** One call to the store *)

Lemma pool_query_inr {A : Type} (q : Statement A) env w w' a :
  pool_query q env w = (w', inr a) →
  call_fault (store_call env (aw_calls w)) = None
  ∧ q (call_now (store_call env (aw_calls w))) (aw_db w) = inr (aw_db w', a)
  ∧ aw_calls w' = S (aw_calls w).
Proof.
  unfold pool_query. destruct (call_fault _); [done|].
  destruct (q _ _) as [err|[d a']]; [done|].
  by intros [= <- <-].
Qed.

Lemma pool_query_inl {A : Type} (q : Statement A) env w w' err :
  pool_query q env w = (w', inl err) →
  w' = mkAppWorld (aw_db w) (S (aw_calls w)).
Proof.
  unfold pool_query. destruct (call_fault _); [by intros [= <- _]|].
  destruct (q _ _) as [err'|[d a']]; [by intros [= <- _]|done].
Qed.

Lemma pool_query_ok {A : Type} (q : Statement A) env w d a :
  call_fault (store_call env (aw_calls w)) = None →
  q (call_now (store_call env (aw_calls w))) (aw_db w) = inr (d, a) →
  pool_query q env w = (mkAppWorld d (S (aw_calls w)), inr a).
Proof. intros Hok Hq. unfold pool_query. by rewrite Hok, Hq. Qed.

Lemma pool_query_fault {A : Type} (q : Statement A) env w err :
  call_fault (store_call env (aw_calls w)) = Some err →
  pool_query q env w = (mkAppWorld (aw_db w) (S (aw_calls w)), inl err).
Proof. intros Hfault. unfold pool_query. by rewrite Hfault. Qed.

Lemma pool_query_violation {A : Type} (q : Statement A) env w err :
  call_fault (store_call env (aw_calls w)) = None →
  q (call_now (store_call env (aw_calls w))) (aw_db w) = inl err →
  pool_query q env w = (mkAppWorld (aw_db w) (S (aw_calls w)), inl err).
Proof. intros Hok Hq. unfold pool_query. by rewrite Hok, Hq. Qed.

Lemma app_bind_inr {A B : Type} (m : App A) (k : A → App B) env w w' b :
  (m ≫= k) env w = (w', inr b) →
  ∃ w1 a, m env w = (w1, inr a) ∧ k a env w1 = (w', inr b).
Proof.
  unfold mbind, App_bind. destruct (m env w) as [w1 [err|a]]; [done|].
  intros Hk. by exists w1, a.
Qed.

Lemma app_bind_inl {A B : Type} (m : App A) (k : A → App B) env w w' err :
  (m ≫= k) env w = (w', inl err) →
  m env w = (w', inl err)
  ∨ ∃ w1 a, m env w = (w1, inr a) ∧ k a env w1 = (w', inl err).
Proof.
  unfold mbind, App_bind. destruct (m env w) as [w1 [err'|a]].
  - intros [= <- <-]. by left.
  - intros Hk. right. by exists w1, a.
Qed.

(** ** The two statements of [recordSwipe] *)

Lemma upsert_swipe_inr userId listingId direction now d d' :
  upsert_swipe userId listingId direction now d = inr (d', tt) →
  direction_check direction = true
  ∧ app_core d' = app_core d ∧ users d' = users d
  ∧ users_seq d' = users_seq d
  ∧ ((Exists (swipe_of userId listingId) (swipes d)
      ∧ swipes d' = reswipe userId listingId direction now <$> swipes d)
     ∨ (¬ Exists (swipe_of userId listingId) (swipes d)
        ∧ userId ∈ u_id <$> users d
        ∧ listingId ∈ l_id <$> listings (app_core d)
        ∧ swipes d' = swipes d ++ [mkSwipe userId listingId direction now])).
Proof.
  unfold upsert_swipe. destruct (direction_check direction); [|done].
  cbn [negb]. destruct (decide (Exists _ _)) as [Hex|Hnex].
  { intros [= <-]. cbn. split_and!; try done. by left. }
  destruct (decide (userId ∈ _)) as [Hu|]; [|done].
  destruct (decide (listingId ∈ _)) as [Hl|]; [|done].
  intros [= <-]. cbn. split_and!; try done. by right.
Qed.

Lemma insert_favorite_inr userId listingId now d d' :
  insert_favorite userId listingId now d = inr (d', tt) →
  users d' = users d ∧ users_seq d' = users_seq d ∧ swipes d' = swipes d
  ∧ listings (app_core d') = listings (app_core d)
  ∧ ((Exists (favorite_of userId listingId) (favorites (app_core d))
      ∧ d' = d)
     ∨ (¬ Exists (favorite_of userId listingId) (favorites (app_core d))
        ∧ userId ∈ u_id <$> users d
        ∧ listingId ∈ l_id <$> listings (app_core d)
        ∧ favorites (app_core d')
          = favorites (app_core d) ++ [mkFavorite userId listingId])).
Proof.
  unfold insert_favorite. destruct (decide (Exists _ _)) as [Hex|Hnex].
  { intros [= <-]. split_and!; try done. by left. }
  destruct (decide (userId ∈ _)) as [Hu|]; [|done].
  destruct (decide (listingId ∈ _)) as [Hl|]; [|done].
  intros [= <-]. cbn. split_and!; try done. by right.
Qed.

Lemma reswipe_key userId listingId direction now s :
  (s_user_id (reswipe userId listingId direction now s),
   s_listing_id (reswipe userId listingId direction now s))
  = (s_user_id s, s_listing_id s).
Proof. unfold reswipe. by case_decide. Qed.

Lemma reswipe_swipe_of userId listingId direction now u l s :
  swipe_of u l (reswipe userId listingId direction now s) ↔ swipe_of u l s.
Proof. unfold reswipe, swipe_of. by case_decide. Qed.

Lemma upsert_swipe_Exists userId listingId direction now d d' u l :
  upsert_swipe userId listingId direction now d = inr (d', tt) →
  Exists (swipe_of u l) (swipes d') ↔
  Exists (swipe_of u l) (swipes d) ∨ (u = userId ∧ l = listingId).
Proof.
  intros (_ & _ & _ & _ & [[Hex ->]|(Hnex & _ & _ & ->)])%upsert_swipe_inr.
  - rewrite Exists_fmap. split.
    + intros Hex'. left. eapply Exists_impl; [exact Hex'|].
      intros s. apply reswipe_swipe_of.
    + intros [Hex'|[-> ->]].
      * eapply Exists_impl; [exact Hex'|]. intros s. apply reswipe_swipe_of.
      * eapply Exists_impl; [exact Hex|]. intros s. apply reswipe_swipe_of.
  - rewrite Exists_app, Exists_cons, Exists_nil. unfold swipe_of at 2. cbn.
    split; [intros [?|[[<- <-]|[]]]; auto|intros [?|[-> ->]]; auto].
Qed.

(** What a resolved [recordSwipe] went through. *)
Lemma recordSwipe_inr userId listingId direction env w w' :
  recordSwipe userId listingId direction env w = (w', inr tt) →
  ∃ d1,
    call_fault (store_call env (aw_calls w)) = None
    ∧ upsert_swipe userId listingId direction
        (call_now (store_call env (aw_calls w))) (aw_db w) = inr (d1, tt)
    ∧ if bool_decide (direction = Some "right")
         || bool_decide (direction = Some "super")
      then call_fault (store_call env (S (aw_calls w))) = None
           ∧ insert_favorite userId listingId
               (call_now (store_call env (S (aw_calls w)))) d1
             = inr (aw_db w', tt)
           ∧ aw_calls w' = S (S (aw_calls w))
      else w' = mkAppWorld d1 (S (aw_calls w)).
Proof.
  unfold recordSwipe. intros (w1 & [] & H1 & H2)%app_bind_inr.
  apply pool_query_inr in H1 as (Hok1 & Hq1 & Hc1).
  exists (aw_db w1). split_and!; [done..|].
  destruct (_ || _).
  - apply pool_query_inr in H2 as (Hok2 & Hq2 & Hc2).
    rewrite Hc1 in *. done.
  - injection H2 as <-. destruct w1; cbn in *. by subst.
Qed.

Lemma recordSwipe_swiped userId listingId direction env w w' :
  recordSwipe userId listingId direction env w = (w', inr tt) →
  ∀ u l, Exists (swipe_of u l) (swipes (aw_db w')) ↔
         Exists (swipe_of u l) (swipes (aw_db w))
         ∨ (u = userId ∧ l = listingId).
Proof.
  intros (d1 & _ & Hq1 & H2)%recordSwipe_inr u l.
  rewrite <-(upsert_swipe_Exists _ _ _ _ _ _ u l Hq1).
  destruct (_ || _).
  - destruct H2 as (_ & (_ & _ & -> & _)%insert_favorite_inr & _). done.
  - by subst.
Qed.

(** ** The feed: [getListingsForUser] *)

Lemma fr_listing_feed_row d (ls : list Listing) :
  fr_listing <$> (feed_row d <$> ls) = ls.
Proof. induction ls as [|l ls IH]; [done|]. cbn. by rewrite IH. Qed.

Lemma StronglySorted_take_drop {A : Type} (R : relation A) n m (l : list A) :
  StronglySorted R l → StronglySorted R (take n (drop m l)).
Proof.
  intros Hl. rewrite <-(take_drop m l) in Hl.
  apply StronglySorted_app_1_r in Hl.
  rewrite <-(take_drop n (drop m l)) in Hl.
  by apply StronglySorted_app_1_l in Hl.
Qed.

Lemma elem_of_take_drop {A : Type} n m (l : list A) x :
  x ∈ take n (drop m l) → x ∈ l.
Proof.
  intros Hx. rewrite <-(take_drop m l), elem_of_app. right.
  rewrite <-(take_drop n (drop m l)), elem_of_app. by left.
Qed.

#[global] Instance feed_order_total : Total feed_order.
Proof.
  intros a b. unfold feed_order.
  destruct (l_listed_at a), (l_listed_at b); lia.
Qed.

#[global] Instance feed_order_trans : Transitive feed_order.
Proof.
  intros a b c. unfold feed_order.
  destruct (l_listed_at a), (l_listed_at b), (l_listed_at c); lia.
Qed.

(** The rows of the feed are rows the WHERE clause accepts. *)
Lemma feed_rows_where userId filters limit offset d rows r :
  feed_rows userId filters limit offset d rows → r ∈ rows →
  r = feed_row d (fr_listing r)
  ∧ fr_listing r ∈ listings (app_core d)
  ∧ feed_where userId filters d (fr_listing r) = true.
Proof.
  intros (sorted & Hperm & _ & ->) (l & -> & Hl)%list_elem_of_fmap.
  apply elem_of_take_drop in Hl. rewrite Hperm in Hl.
  apply list_elem_of_filter in Hl as [Hwhere Hl]. done.
Qed.

Lemma getListingsForUser_inr userId limit offset filters env w w' rows :
  getListingsForUser userId limit offset filters env w (w', inr rows) →
  w' = mkAppWorld (aw_db w) (S (aw_calls w))
  ∧ call_fault (store_call env (aw_calls w)) = None
  ∧ 0 ≤ default 0 offset ∧ 0 ≤ default 50 limit
  ∧ feed_rows userId filters (default 50 limit) (default 0 offset)
      (aw_db w) rows.
Proof.
  unfold getListingsForUser. destruct (call_fault _); [done|].
  repeat case_decide; [done..|].
  intros (rows' & Hrows & [= -> ->]). split_and!; [done|done|lia|lia|done].
Qed.

(** X18: a feed page holds at most [limit] rows (50 when no limit is given),
    in the order of the ORDER BY clause, and every row is an active Listing
    of the table that the user has not swiped and that passes every filter
    given that is not 0 (for the province: not empty); a Listing without
    price never passes such a price filter.  The call changes no table. *)
Theorem feed_shows_only_matching (userId : Z) (limit offset : option Z)
    (filters : Filters) (env : Env) (w w' : AppWorld) (rows : list FeedRow) :
  getListingsForUser userId limit offset filters env w (w', inr rows) →
  aw_db w' = aw_db w
  ∧ (length rows ≤ Z.to_nat (default 50%Z limit))%nat
  ∧ StronglySorted feed_order (fr_listing <$> rows)
  ∧ ∀ r, r ∈ rows →
      let l := fr_listing r in
      l ∈ listings (app_core (aw_db w))
      ∧ l_is_active l = true
      ∧ ¬ Exists (swipe_of userId (l_id l)) (swipes (aw_db w))
      ∧ (∀ p, minPrice filters = Some p → p ≠ 0 →
           ∃ v, l_price l = Some v ∧ p ≤ v)
      ∧ (∀ p, maxPrice filters = Some p → p ≠ 0 →
           ∃ v, l_price l = Some v ∧ v ≤ p)
      ∧ (∀ p, minBeds filters = Some p → p ≠ 0 → p ≤ l_beds l)
      ∧ (∀ p, minBaths filters = Some p → p ≠ 0 → p ≤ l_baths l)
      ∧ (∀ p, filters_province filters = Some p → p ≠ EmptyString →
           l_province l = Some p).
Proof.
  intros (-> & _ & _ & _ & Hrows)%getListingsForUser_inr. cbn [aw_db].
  split_and!; [done| | |].
  - destruct Hrows as (sorted & _ & _ & ->).
    rewrite length_fmap, length_take. lia.
  - destruct Hrows as (sorted & _ & Hsorted & ->).
    rewrite fr_listing_feed_row. by apply StronglySorted_take_drop.
  - intros r Hr.
    destruct (feed_rows_where _ _ _ _ _ _ r Hrows Hr) as (_ & Hl & Hwhere).
    set (l := fr_listing r) in *. unfold feed_where, not_swiped in Hwhere.
    rewrite !andb_true_iff, negb_true_iff, bool_decide_eq_false in Hwhere.
    destruct Hwhere
      as ((((((Hact & Hsw) & Hmin) & Hmax) & Hbeds) & Hbaths) & Hprov).
    split_and!; [done|done|done| | | | |].
    + intros p Hp Hp0. rewrite Hp in Hmin. cbn in Hmin.
      apply Z.eqb_neq in Hp0. rewrite Hp0 in Hmin. cbn in Hmin.
      destruct (l_price l) as [v|]; [|done]. exists v. split; [done|].
      by apply Z.leb_le.
    + intros p Hp Hp0. rewrite Hp in Hmax. cbn in Hmax.
      apply Z.eqb_neq in Hp0. rewrite Hp0 in Hmax. cbn in Hmax.
      destruct (l_price l) as [v|]; [|done]. exists v. split; [done|].
      by apply Z.leb_le.
    + intros p Hp Hp0. rewrite Hp in Hbeds. cbn in Hbeds.
      apply Z.eqb_neq in Hp0. rewrite Hp0 in Hbeds. cbn in Hbeds.
      by apply Z.leb_le.
    + intros p Hp Hp0. rewrite Hp in Hbaths. cbn in Hbaths.
      apply Z.eqb_neq in Hp0. rewrite Hp0 in Hbaths. cbn in Hbaths.
      by apply Z.leb_le.
    + intros p Hp Hp0. rewrite Hp in Hprov.
      destruct p; [done|]. cbn in Hprov. by apply bool_decide_eq_true in Hprov.
Qed.

Lemma feed_one_served :
  getListingsForUser 7 None None no_filters env_ok app_world_one
    (mkAppWorld app_db_one 1, inr feed_one).
Proof.
  unfold getListingsForUser. cbn.
  exists feed_one. split; [|done].
  exists [listing_row 0 1 (snapshot_with_image url_a (Some 500000))].
  split_and!; [done|repeat constructor|done].
Qed.

(** X18, witness: the feed of user 7 before any swipe. *)
Lemma feed_shows_only_matching_witness :
  getListingsForUser 7 None None no_filters env_ok app_world_one
    (mkAppWorld app_db_one 1, inr feed_one)
  ∧ (length feed_one ≤ 50)%nat
  ∧ ∀ r, r ∈ feed_one → l_is_active (fr_listing r) = true.
Proof.
  split; [exact feed_one_served|].
  destruct (feed_shows_only_matching 7 None None no_filters env_ok
              app_world_one _ feed_one feed_one_served)
    as (_ & Hlen & _ & Hrows).
  split; [exact Hlen|].
  intros r Hr. by destruct (Hrows r Hr) as (_ & Hact & _).
Defined.

(** The SELECT of the feed always has rows to return: the matching
    Listings can be put in the order asked for. *)
Lemma feed_rows_exist userId filters limit offset d :
  ∃ rows, feed_rows userId filters limit offset d rows.
Proof.
  eexists.
  exists (merge_sort feed_order
            (filter (λ l, feed_where userId filters d l = true)
               (listings (app_core d)))).
  split_and!; [apply merge_sort_Permutation
              |apply StronglySorted_merge_sort; apply _|done].
Qed.

Lemma recordSwipe_listings userId listingId direction env w :
  listings (app_core (aw_db (recordSwipe userId listingId direction env w).1))
  = listings (app_core (aw_db w))
  ∧ users (aw_db (recordSwipe userId listingId direction env w).1)
    = users (aw_db w)
  ∧ users_seq (aw_db (recordSwipe userId listingId direction env w).1)
    = users_seq (aw_db w).
Proof.
  unfold recordSwipe, mbind, App_bind.
  destruct (pool_query (upsert_swipe _ _ _) env w) as [w1 [err|[]]] eqn:H1.
  { apply pool_query_inl in H1 as ->. done. }
  apply pool_query_inr in H1
    as (_ & (_ & Hcore & Husers & Hseq & _)%upsert_swipe_inr & _).
  destruct (_ || _); [|cbn; by rewrite Hcore, Husers, Hseq].
  destruct (pool_query (insert_favorite _ _) env w1) as [w2 [err|[]]] eqn:H2.
  { apply pool_query_inl in H2 as ->. cbn. by rewrite Hcore, Husers, Hseq. }
  apply pool_query_inr in H2
    as (_ & (Husers2 & Hseq2 & _ & Hl2 & _)%insert_favorite_inr & _).
  cbn. by rewrite Hl2, Husers2, Hseq2, Hcore, Husers, Hseq.
Qed.

Lemma feed_rows_same_where userId filters limit offset d d' rows :
  listings (app_core d') = listings (app_core d) →
  (∀ l, feed_where userId filters d' l = feed_where userId filters d l) →
  feed_rows userId filters limit offset d rows →
  ∃ rows', feed_rows userId filters limit offset d' rows'
           ∧ fr_listing <$> rows' = fr_listing <$> rows.
Proof.
  intros Hl Hwhere (sorted & Hperm & Hsorted & ->).
  eexists. split.
  - exists sorted. split_and!; [|done|done].
    rewrite Hl, Hperm.
    by rewrite (list_filter_iff
                  (λ l, feed_where userId filters d' l = true)
                  (λ l, feed_where userId filters d l = true))
      by (intros l; by rewrite Hwhere).
  - by rewrite !fr_listing_feed_row.
Qed.

(** X20: once [recordSwipe] has resolved for a user and a listing, whatever
    the direction, no feed page of that user shows the listing again; the
    feed of every other user holds the same listings as before. *)
Theorem swipe_hides_listing (userId listingId : Z)
    (direction : option string) (env : Env) (w w1 : AppWorld) :
  recordSwipe userId listingId direction env w = (w1, inr tt) →
  (∀ limit offset filters w2 rows,
     getListingsForUser userId limit offset filters env w1 (w2, inr rows) →
     ∀ r, r ∈ rows → l_id (fr_listing r) ≠ listingId)
  ∧ (∀ u filters limit offset rows, u ≠ userId →
       feed_rows u filters limit offset (aw_db w) rows →
       ∃ rows1, feed_rows u filters limit offset (aw_db w1) rows1
                ∧ fr_listing <$> rows1 = fr_listing <$> rows).
Proof.
  intros Hswipe.
  pose proof (recordSwipe_swiped _ _ _ _ _ _ Hswipe) as Hswiped.
  pose proof (recordSwipe_listings userId listingId direction env w)
    as (Hl & _). rewrite Hswipe in Hl. cbn [fst] in Hl.
  split.
  - intros limit offset filters w2 rows Hfeed r Hr Hid.
    apply feed_shows_only_matching in Hfeed as (_ & _ & _ & Hrows).
    destruct (Hrows r Hr) as (_ & _ & Hnot & _).
    apply Hnot, Hswiped. right. by rewrite Hid.
  - intros u filters limit offset rows Hu.
    apply feed_rows_same_where; [done|].
    intros l. unfold feed_where, not_swiped. do 7 f_equal.
    apply bool_decide_ext. rewrite Hswiped. split; [|by left].
    by intros [?|[? _]].
Qed.

Lemma left_swipe_recorded :
  recordSwipe 7 1 (Some "left") env_ok app_world_one
  = (mkAppWorld
       (mkAppDb db_one [user_7] 7 [mkSwipe 7 1 (Some "left") 1000]) 1,
     inr tt).
Proof. reflexivity. Qed.

Lemma feed_after_left_swipe :
  getListingsForUser 7 None None no_filters env_ok
    (mkAppWorld
       (mkAppDb db_one [user_7] 7 [mkSwipe 7 1 (Some "left") 1000]) 1)
    (mkAppWorld
       (mkAppDb db_one [user_7] 7 [mkSwipe 7 1 (Some "left") 1000]) 2,
     inr []).
Proof.
  unfold getListingsForUser. cbn.
  exists []. split; [|done].
  exists []. split_and!; [done|constructor|done].
Qed.

(** X20, witness: user 7 swipes the one listing left. *)
Lemma swipe_hides_listing_witness :
  recordSwipe 7 1 (Some "left") env_ok app_world_one
  = (mkAppWorld
       (mkAppDb db_one [user_7] 7 [mkSwipe 7 1 (Some "left") 1000]) 1,
     inr tt)
  ∧ ∀ r : FeedRow, r ∈ [] → l_id (fr_listing r) ≠ 1.
Proof.
  split; [exact left_swipe_recorded|].
  destruct (swipe_hides_listing 7 1 (Some "left") env_ok app_world_one _
              left_swipe_recorded) as [Hhidden _].
  exact (Hhidden None None no_filters _ [] feed_after_left_swipe).
Defined.

(** ** [recordSwipe]: swipes and favorites *)

(** The ways a [recordSwipe] can go: the first call fails; or it goes through
    and either no favorite is due, or the second call fails, or it goes
    through as well. *)
Lemma recordSwipe_cases userId listingId direction env w :
  let n := aw_calls w in
  let favorite_due :=
    bool_decide (direction = Some "right")
    || bool_decide (direction = Some "super") in
  (∃ err, recordSwipe userId listingId direction env w
          = (mkAppWorld (aw_db w) (S n), inl err))
  ∨ ∃ d1,
      call_fault (store_call env n) = None
      ∧ upsert_swipe userId listingId direction (call_now (store_call env n))
          (aw_db w) = inr (d1, tt)
      ∧ ((favorite_due = false
          ∧ recordSwipe userId listingId direction env w
            = (mkAppWorld d1 (S n), inr tt))
         ∨ (favorite_due = true
            ∧ ∃ err, recordSwipe userId listingId direction env w
                     = (mkAppWorld d1 (S (S n)), inl err))
         ∨ (favorite_due = true
            ∧ call_fault (store_call env (S n)) = None
            ∧ ∃ d2, insert_favorite userId listingId
                      (call_now (store_call env (S n))) d1 = inr (d2, tt)
                    ∧ recordSwipe userId listingId direction env w
                      = (mkAppWorld d2 (S (S n)), inr tt))).
Proof.
  intros n favorite_due. unfold recordSwipe, mbind, App_bind.
  fold favorite_due.
  destruct (pool_query (upsert_swipe _ _ _) env w) as [w1 [err|[]]] eqn:H1.
  { apply pool_query_inl in H1 as ->. left. by exists err. }
  apply pool_query_inr in H1 as (Hok1 & Hq1 & Hc1).
  right. exists (aw_db w1). split_and!; [done..|].
  destruct favorite_due.
  - right.
    destruct (pool_query (insert_favorite _ _) env w1) as [w2 [err|[]]] eqn:H2.
    + apply pool_query_inl in H2 as ->. left. split; [done|].
      exists err. by rewrite Hc1.
    + apply pool_query_inr in H2 as (Hok2 & Hq2 & Hc2). rewrite Hc1 in *.
      right. split_and!; [done..|]. exists (aw_db w2). split; [done|].
      destruct w2; cbn in *. by subst.
  - left. split; [done|]. cbn. destruct w1; cbn in *. by subst.
Qed.

Lemma upsert_swipe_favorites userId listingId direction now d d' :
  upsert_swipe userId listingId direction now d = inr (d', tt) →
  favorites (app_core d') = favorites (app_core d).
Proof. by intros (_ & -> & _)%upsert_swipe_inr. Qed.

Lemma Exists_favorite_of userId listingId (fs : list Favorite) :
  Exists (favorite_of userId listingId) fs
  ↔ (userId, listingId) ∈ (λ f, (f_user_id f, f_listing_id f)) <$> fs.
Proof.
  rewrite Exists_exists, list_elem_of_fmap. unfold favorite_of.
  split.
  - intros (f & Hf & <- & <-). by exists f.
  - intros (f & [= -> ->] & Hf). by exists f.
Qed.

Lemma Exists_swipe_of userId listingId (ss : list Swipe) :
  Exists (swipe_of userId listingId) ss
  ↔ (userId, listingId) ∈ (λ s, (s_user_id s, s_listing_id s)) <$> ss.
Proof.
  rewrite Exists_exists, list_elem_of_fmap. unfold swipe_of.
  split.
  - intros (s & Hs & <- & <-). by exists s.
  - intros (s & [= -> ->] & Hs). by exists s.
Qed.

(** X21: [recordSwipe] never removes or rewrites a favorite, whatever its
    outcome: the favorites afterwards are those before, followed by at most
    one new favorite of that user and listing, added only for a swipe right
    or super and only when the user had none for the listing.  After a
    resolved swipe right or super the user has the listing in their
    favorites; a later swipe left leaves it there. *)
Theorem swipe_never_removes_favorite (userId listingId : Z)
    (direction : option string) (env : Env) (w : AppWorld) :
  let outcome := recordSwipe userId listingId direction env w in
  let before := favorites (app_core (aw_db w)) in
  let after := favorites (app_core (aw_db outcome.1)) in
  (after = before
   ∨ (after = before ++ [mkFavorite userId listingId]
      ∧ ¬ Exists (favorite_of userId listingId) before
      ∧ (direction = Some "right" ∨ direction = Some "super")))
  ∧ (outcome.2 = inr tt →
     direction = Some "right" ∨ direction = Some "super" →
     Exists (favorite_of userId listingId) after).
Proof.
  intros outcome before after. subst outcome before after.
  assert (∀ dir : option string,
            bool_decide (dir = Some "right") || bool_decide (dir = Some "super")
            = true ↔ dir = Some "right" ∨ dir = Some "super") as Hdue.
  { intros dir. by rewrite orb_true_iff, !bool_decide_eq_true. }
  destruct (recordSwipe_cases userId listingId direction env w)
    as [[err ->]|(d1 & _ & Hq1 & Hrest)]; cbn [fst snd aw_db].
  { split; [by left|done]. }
  apply upsert_swipe_favorites in Hq1.
  destruct Hrest as [[Hdir ->]|[(Hdir & err & ->)|(Hdir & _ & d2 & Hq2 & ->)]];
    cbn [fst snd aw_db].
  - split; [by left|]. intros _ Hd%Hdue. congruence.
  - split; [by left|done].
  - apply insert_favorite_inr in Hq2
      as (_ & _ & _ & _ & [[Hex ->]|(Hnex & _ & _ & Hfav)]).
    + rewrite Hq1 in *. split; [by left|done].
    + rewrite Hfav, Hq1 in *. split.
      * right. split_and!; [done|done|by apply Hdue].
      * intros _ _. apply Exists_app. right. by constructor.
Qed.

Lemma upsert_swipe_wf userId listingId direction now d d' :
  upsert_swipe userId listingId direction now d = inr (d', tt) →
  wf_app d → wf_app d'.
Proof.
  intros (_ & Hcore & Husers & Hseq & Hswipes)%upsert_swipe_inr [Hs Hf Hc Hi Hq].
  split; rewrite ?Hcore, ?Husers, ?Hseq; try done.
  destruct Hswipes as [[_ ->]|(Hnex & _ & _ & ->)].
  - rewrite <-list_fmap_compose.
    erewrite list_fmap_ext; [exact Hs|].
    intros i s _. apply reswipe_key.
  - rewrite fmap_app. apply NoDup_app. split_and!; [done| |apply NoDup_singleton].
    intros k Hk ->%list_elem_of_singleton.
    by apply Hnex, Exists_swipe_of.
Qed.

Lemma insert_favorite_wf userId listingId now d d' :
  insert_favorite userId listingId now d = inr (d', tt) →
  wf_app d → wf_app d'.
Proof.
  intros (Husers & Hseq & Hswipes & _ & Hfav)%insert_favorite_inr
         [Hs Hf Hc Hi Hq].
  destruct Hfav as [[_ ->]|(Hnex & _ & _ & Hfav)]; [done|].
  split; rewrite ?Husers, ?Hseq, ?Hswipes, ?Hfav; try done.
  rewrite fmap_app. apply NoDup_app. split_and!; [done| |apply NoDup_singleton].
  intros k Hk ->%list_elem_of_singleton.
  by apply Hnex, Exists_favorite_of.
Qed.

Lemma recordSwipe_wf userId listingId direction env w :
  wf_app (aw_db w) →
  wf_app (aw_db (recordSwipe userId listingId direction env w).1).
Proof.
  intros Hwf.
  destruct (recordSwipe_cases userId listingId direction env w)
    as [[err ->]|(d1 & _ & Hq1 & Hrest)]; [done|].
  apply upsert_swipe_wf in Hq1; [|done].
  destruct Hrest as [[_ ->]|[(_ & err & ->)|(_ & _ & d2 & Hq2 & ->)]];
    [done|done|].
  by apply insert_favorite_wf in Hq2.
Qed.

(** In a table with one swipe per user and listing, the swipes of a pair are
    the one swipe, if any. *)
Lemma filter_swipe_of_fresh userId listingId (ss : list Swipe) :
  ¬ Exists (swipe_of userId listingId) ss →
  filter (swipe_of userId listingId) ss = [].
Proof.
  intros Hnex. induction ss as [|s ss IH]; [done|].
  rewrite filter_cons. case_decide as Hs.
  - destruct Hnex. by left.
  - apply IH. intros Hex. apply Hnex. by right.
Qed.

Lemma filter_reswipe userId listingId direction now (ss : list Swipe) :
  NoDup ((λ s, (s_user_id s, s_listing_id s)) <$> ss) →
  Exists (swipe_of userId listingId) ss →
  filter (swipe_of userId listingId)
    (reswipe userId listingId direction now <$> ss)
  = [mkSwipe userId listingId direction now].
Proof.
  induction ss as [|s ss IH]; [by intros _ ?%Exists_nil|].
  rewrite fmap_cons, NoDup_cons. intros [Hs Hnd] Hex.
  cbn [fmap list_fmap]. rewrite filter_cons.
  destruct (decide (swipe_of userId listingId s)) as [Hof|Hnof].
  - rewrite decide_True by by apply reswipe_swipe_of.
    unfold reswipe at 1. rewrite decide_True by done.
    destruct Hof as [Hu Hl]. rewrite Hu, Hl in Hs |- *. f_equal.
    apply filter_swipe_of_fresh. rewrite Exists_fmap.
    intros Hex'. apply Hs, Exists_swipe_of.
    eapply Exists_impl; [exact Hex'|]. intros s' Hs'.
    by apply reswipe_swipe_of in Hs'.
  - rewrite decide_False by by rewrite reswipe_swipe_of.
    apply IH; [done|]. by apply Exists_cons in Hex as [?|?].
Qed.

Lemma filter_reswipe_others userId listingId direction now (ss : list Swipe) :
  filter (λ s, ¬ swipe_of userId listingId s)
    (reswipe userId listingId direction now <$> ss)
  = filter (λ s, ¬ swipe_of userId listingId s) ss.
Proof.
  induction ss as [|s ss IH]; [done|].
  cbn [fmap list_fmap]. rewrite !filter_cons.
  destruct (decide (swipe_of userId listingId s)) as [Hof|Hnof].
  - rewrite decide_False by (rewrite reswipe_swipe_of; tauto).
    by rewrite decide_False by tauto.
  - rewrite decide_True by by rewrite reswipe_swipe_of.
    rewrite decide_True by done.
    unfold reswipe at 1. rewrite decide_False by done. by f_equal.
Qed.

(** X22: [recordSwipe] keeps what the schema promises of the app's tables
    (one swipe and one favorite per user and listing, one user per Clerk id),
    whatever its outcome.  When it resolves, the user has exactly one swipe
    for the listing, which carries the direction given and the time of the
    call, so the last direction wins; every other swipe is as before, in the
    same order. *)
Theorem swipe_last_direction_wins (userId listingId : Z)
    (direction : option string) (env : Env) (w : AppWorld) :
  wf_app (aw_db w) →
  let outcome := recordSwipe userId listingId direction env w in
  wf_app (aw_db outcome.1)
  ∧ (outcome.2 = inr tt →
     filter (swipe_of userId listingId) (swipes (aw_db outcome.1))
     = [mkSwipe userId listingId direction
          (call_now (store_call env (aw_calls w)))]
     ∧ filter (λ s, ¬ swipe_of userId listingId s)
         (swipes (aw_db outcome.1))
       = filter (λ s, ¬ swipe_of userId listingId s) (swipes (aw_db w))).
Proof.
  intros Hwf outcome. subst outcome.
  split; [by apply recordSwipe_wf|].
  destruct (recordSwipe userId listingId direction env w) as [w' [err|[]]]
    eqn:Hswipe; [done|].
  intros _. cbn [fst].
  apply recordSwipe_inr in Hswipe as (d1 & _ & Hq1 & H2).
  assert (swipes (aw_db w') = swipes d1) as ->.
  { destruct (_ || _); [|by subst].
    by destruct H2 as (_ & (_ & _ & -> & _)%insert_favorite_inr & _). }
  apply upsert_swipe_inr in Hq1
    as (_ & _ & _ & _ & [[Hex ->]|(Hnex & _ & _ & ->)]).
  - split; [|apply filter_reswipe_others].
    apply filter_reswipe; [apply Hwf|done].
  - rewrite !filter_app, !filter_cons, !filter_nil.
    rewrite decide_True by done. rewrite decide_False by (intros []; done).
    rewrite filter_swipe_of_fresh by done. by rewrite app_nil_r.
Qed.

Lemma wf_app_one : wf_app app_db_one.
Proof.
  split; cbn; [constructor|apply NoDup_singleton..|].
  by repeat constructor.
Qed.

(** X22, witness: user 7 swipes the one listing right. *)
Lemma swipe_last_direction_wins_witness :
  wf_app (aw_db app_world_one)
  ∧ wf_app (aw_db (recordSwipe 7 1 (Some "right") env_ok app_world_one).1)
  ∧ filter (swipe_of 7 1)
      (swipes (aw_db (recordSwipe 7 1 (Some "right") env_ok app_world_one).1))
    = [mkSwipe 7 1 (Some "right") 1000].
Proof.
  split; [exact wf_app_one|].
  destruct (swipe_last_direction_wins 7 1 (Some "right") env_ok app_world_one
              wf_app_one) as [Hwf Hres].
  split; [exact Hwf|]. exact (proj1 (Hres eq_refl)).
Defined.

Lemma refs_ok_one : refs_ok app_db_one.
Proof. constructor. Qed.

(** X23: with the store accepting its calls and every swipe being of an
    existing user and listing, [recordSwipe] resolves exactly when the
    direction is [left], [right], [super] or missing and both the user and
    the listing exist; otherwise it rejects after one call and leaves every
    table as it was. *)
Theorem swipe_resolves_iff (userId listingId : Z) (direction : option string)
    (env : Env) (w : AppWorld) :
  refs_ok (aw_db w) →
  call_fault (store_call env (aw_calls w)) = None →
  call_fault (store_call env (S (aw_calls w))) = None →
  let outcome := recordSwipe userId listingId direction env w in
  let accepted :=
    direction_check direction = true
    ∧ userId ∈ u_id <$> users (aw_db w)
    ∧ listingId ∈ l_id <$> listings (app_core (aw_db w)) in
  (outcome.2 = inr tt ↔ accepted)
  ∧ (¬ accepted →
     outcome.1 = mkAppWorld (aw_db w) (S (aw_calls w))).
Proof.
  intros Hrefs Hok1 Hok2 outcome accepted. subst outcome accepted.
  assert (Exists (swipe_of userId listingId) (swipes (aw_db w)) →
          userId ∈ u_id <$> users (aw_db w)
          ∧ listingId ∈ l_id <$> listings (app_core (aw_db w))) as Hknown.
  { intros (s & Hs & <- & <-)%Exists_exists.
    unfold refs_ok in Hrefs. rewrite Forall_forall in Hrefs.
    by apply Hrefs. }
  unfold recordSwipe, mbind, App_bind.
  destruct (upsert_swipe userId listingId direction
              (call_now (store_call env (aw_calls w))) (aw_db w))
    as [err|[d1 []]] eqn:Hq1.
  { rewrite (pool_query_violation _ _ _ err Hok1 Hq1). cbn [fst snd].
    assert (¬ (direction_check direction = true
               ∧ userId ∈ u_id <$> users (aw_db w)
               ∧ listingId ∈ l_id <$> listings (app_core (aw_db w))))
      as Hrej.
    { intros (Hdir & Hu & Hl). unfold upsert_swipe in Hq1.
      rewrite Hdir in Hq1. cbn [negb] in Hq1.
      destruct (decide (Exists _ _)); [done|].
      by rewrite !decide_True in Hq1 by done. }
    split; [split; [done|by intros ?%Hrej]|done]. }
  rewrite (pool_query_ok _ _ _ d1 tt Hok1 Hq1).
  apply upsert_swipe_inr in Hq1
    as (Hdir & Hcore & Husers & _ & Hswipes).
  assert (userId ∈ u_id <$> users (aw_db w)
          ∧ listingId ∈ l_id <$> listings (app_core (aw_db w))) as [Hu Hl].
  { destruct Hswipes as [[Hex _]|(_ & Hu & Hl & _)]; [by apply Hknown|done]. }
  assert (∃ d2, insert_favorite userId listingId
                  (call_now (store_call env (S (aw_calls w)))) d1
                = inr (d2, tt)) as [d2 Hq2].
  { unfold insert_favorite. destruct (decide (Exists _ _)); [by eexists|].
    rewrite Hcore, Husers. rewrite !decide_True by done. by eexists. }
  destruct (_ || _).
  - rewrite (pool_query_ok _ _ _ d2 tt) by done. cbn [fst snd].
    split; [done|]. by intros [].
  - cbn [fst snd]. split; [done|]. by intros [].
Qed.

(** X23, witness: user 7 and listing 1 exist, listing 2 does not. *)
Lemma swipe_resolves_iff_witness :
  refs_ok (aw_db app_world_one)
  ∧ (recordSwipe 7 1 (Some "super") env_ok app_world_one).2 = inr tt
  ∧ (recordSwipe 7 2 (Some "super") env_ok app_world_one).1
    = mkAppWorld app_db_one 1.
Proof.
  split; [exact refs_ok_one|]. split.
  - apply (swipe_resolves_iff 7 1 (Some "super") env_ok app_world_one
             refs_ok_one eq_refl eq_refl).
    split_and!; [reflexivity|by apply list_elem_of_singleton..].
  - apply (swipe_resolves_iff 7 2 (Some "super") env_ok app_world_one
             refs_ok_one eq_refl eq_refl).
    intros (_ & _ & Hl). by apply list_elem_of_singleton in Hl.
Defined.

(** X24: [recordSwipe] is two store calls, not one transaction.  When the
    store accepts the swipe right or super of an existing user and listing
    and then rejects the second call, [recordSwipe] rejects with the store's
    message although the swipe is recorded: the favorites are as before, and
    the listing has left the user's feed. *)
Theorem swipe_recorded_without_favorite (userId listingId : Z)
    (direction : option string) (env : Env) (w : AppWorld) (err : string) :
  direction = Some "right" ∨ direction = Some "super" →
  userId ∈ u_id <$> users (aw_db w) →
  listingId ∈ l_id <$> listings (app_core (aw_db w)) →
  call_fault (store_call env (aw_calls w)) = None →
  call_fault (store_call env (S (aw_calls w))) = Some err →
  let outcome := recordSwipe userId listingId direction env w in
  outcome.2 = inl err
  ∧ Exists (swipe_of userId listingId) (swipes (aw_db outcome.1))
  ∧ favorites (app_core (aw_db outcome.1)) = favorites (app_core (aw_db w))
  ∧ ∀ limit offset filters w2 rows,
      getListingsForUser userId limit offset filters env outcome.1
        (w2, inr rows) →
      ∀ r, r ∈ rows → l_id (fr_listing r) ≠ listingId.
Proof.
  intros Hdir Hu Hl Hok1 Hfault outcome. subst outcome.
  assert (∃ d1, upsert_swipe userId listingId direction
                  (call_now (store_call env (aw_calls w))) (aw_db w)
                = inr (d1, tt)) as [d1 Hq1].
  { unfold upsert_swipe.
    assert (direction_check direction = true) as ->
      by (by destruct Hdir as [-> | ->]).
    cbn [negb]. destruct (decide (Exists _ _)); [by eexists|].
    rewrite !decide_True by done. by eexists. }
  unfold recordSwipe, mbind, App_bind.
  rewrite (pool_query_ok _ _ _ d1 tt Hok1 Hq1).
  assert (bool_decide (direction = Some "right")
          || bool_decide (direction = Some "super") = true) as ->
    by (by destruct Hdir as [-> | ->]).
  rewrite (pool_query_fault _ _ _ err) by done. cbn [fst snd aw_db].
  assert (Exists (swipe_of userId listingId) (swipes d1)) as Hswiped
    by (apply (upsert_swipe_Exists _ _ _ _ _ _ _ _ Hq1); by right).
  split_and!; [done|done|by apply upsert_swipe_favorites in Hq1|].
  intros limit offset filters w2 rows Hfeed r Hr Hid.
  apply feed_shows_only_matching in Hfeed as (_ & _ & _ & Hrows).
  destruct (Hrows r Hr) as (_ & _ & Hnot & _).
  apply Hnot. by rewrite Hid.
Qed.

(** X24, witness: the connection is lost after the swipe of user 7. *)
Lemma swipe_recorded_without_favorite_witness :
  (recordSwipe 7 1 (Some "right") env_second_call_fails app_world_one).2
  = inl "Connection terminated"
  ∧ Exists (swipe_of 7 1)
      (swipes (aw_db (recordSwipe 7 1 (Some "right") env_second_call_fails
                        app_world_one).1)).
Proof.
  destruct (swipe_recorded_without_favorite 7 1 (Some "right")
              env_second_call_fails app_world_one "Connection terminated")
    as (Hrej & Hswiped & _);
    [by left|by apply list_elem_of_singleton..|reflexivity|reflexivity|].
  split; [exact Hrej|exact Hswiped].
Defined.

(** ** [getOrCreateUser] *)

Lemma filter_clerk_id_nil clerkId (us : list User) :
  filter (λ u, u_clerk_id u = clerkId) us = []
  ↔ clerkId ∉ u_clerk_id <$> us.
Proof.
  rewrite list_elem_of_fmap. split.
  - intros Hnil (u & -> & Hu).
    by apply (filter_nil_not_elem_of _ _ u Hnil).
  - intros Hnot. induction us as [|u us IH]; [done|].
    rewrite filter_cons. case_decide as Hc.
    + destruct Hnot. exists u. split; [done|apply list_elem_of_here].
    + apply IH. intros (u' & ? & ?). apply Hnot. exists u'. split; [done|by right].
Qed.

(** The ways a [getOrCreateUser] can go: the lookup fails; it finds the
    user; or it finds none and the insert fails or goes through. *)
Lemma getOrCreateUser_cases clerkId userData env w :
  let n := aw_calls w in
  let d := aw_db w in
  let found := filter (λ u, u_clerk_id u = clerkId) (users d) in
  let row :=
    mkUser (users_seq d + 1) clerkId (email userData) (name userData)
      (avatarUrl userData) (call_now (store_call env (S n)))
      (call_now (store_call env (S n))) in
  (∃ err, call_fault (store_call env n) = Some err
          ∧ getOrCreateUser clerkId userData env w
            = (mkAppWorld d (S n), inl err))
  ∨ (∃ u rest, call_fault (store_call env n) = None
               ∧ found = u :: rest
               ∧ getOrCreateUser clerkId userData env w
                 = (mkAppWorld d (S n), inr (Some u)))
  ∨ (∃ err, call_fault (store_call env n) = None
            ∧ found = []
            ∧ call_fault (store_call env (S n)) = Some err
            ∧ getOrCreateUser clerkId userData env w
              = (mkAppWorld d (S (S n)), inl err))
  ∨ (call_fault (store_call env n) = None
     ∧ found = []
     ∧ call_fault (store_call env (S n)) = None
     ∧ getOrCreateUser clerkId userData env w
       = (mkAppWorld
            (mkAppDb (app_core d) (users d ++ [row]) (users_seq d + 1)
               (swipes d))
            (S (S n)),
          inr (Some row))).
Proof.
  intros n d found row. unfold getOrCreateUser, mbind, App_bind.
  destruct (call_fault (store_call env n)) as [err|] eqn:Hok1.
  { left. exists err. split; [done|].
    by rewrite (pool_query_fault _ _ _ err). }
  right.
  rewrite (pool_query_ok (select_user clerkId) env w d found) by done.
  destruct found as [|u rest] eqn:Hfound.
  2: { left. exists u, rest. split_and!; [done..|].
       rewrite decide_True by (cbn; lia). done. }
  right. rewrite decide_False by (cbn; lia).
  destruct (call_fault (store_call env (S n))) as [err|] eqn:Hok2.
  { left. exists err. split_and!; [done..|].
    by rewrite (pool_query_fault _ _ _ err). }
  right. split_and!; [done..|].
  rewrite (pool_query_ok (insert_user clerkId userData) env _
             (mkAppDb (app_core d) (users d ++ [row]) (users_seq d + 1)
                (swipes d)) [row]); [done|done|].
  cbn [aw_db aw_calls]. unfold insert_user.
  rewrite decide_False by by apply filter_clerk_id_nil.
  done.
Qed.

(** X25: [getOrCreateUser] never rewrites or removes a user and adds at most
    one.  It keeps one user per Clerk id and per id; when it resolves, it
    returns a row of the table with the Clerk id asked for; and for a Clerk
    id that is known already it changes nothing at all: the [userData]
    given are dropped, not written to the stored user. *)
Theorem getOrCreateUser_keeps_users (clerkId : string) (userData : UserData)
    (env : Env) (w : AppWorld) :
  wf_app (aw_db w) →
  let outcome := getOrCreateUser clerkId userData env w in
  wf_app (aw_db outcome.1)
  ∧ (∃ added, users (aw_db outcome.1) = users (aw_db w) ++ added
              ∧ (length added ≤ 1)%nat)
  ∧ (∀ result, outcome.2 = inr result →
       ∃ u, result = Some u ∧ u ∈ users (aw_db outcome.1)
            ∧ u_clerk_id u = clerkId)
  ∧ (clerkId ∈ u_clerk_id <$> users (aw_db w) →
     aw_db outcome.1 = aw_db w).
Proof.
  intros Hwf outcome. subst outcome.
  destruct (getOrCreateUser_cases clerkId userData env w)
    as [(err & _ & ->)
       |[(u & rest & _ & Hfound & ->)
        |[(err & _ & _ & _ & ->)|(_ & Hfound & _ & ->)]]];
    cbn [fst snd aw_db].
  - split_and!; [done|exists []; split; [by rewrite app_nil_r|cbn; lia]|done|done].
  - split_and!; [done|exists []; split; [by rewrite app_nil_r|cbn; lia]| |done].
    intros result [= <-]. exists u.
    pose proof (list_elem_of_here u rest) as Hu. rewrite <-Hfound in Hu.
    by apply list_elem_of_filter in Hu as [? ?].
  - split_and!; [done|exists []; split; [by rewrite app_nil_r|cbn; lia]|done|done].
  - apply filter_clerk_id_nil in Hfound.
    split_and!.
    + destruct Hwf as [Hs Hf Hc Hi Hq]. split; cbn; [done|done| | |].
      * rewrite fmap_app. apply NoDup_app.
        split_and!; [done| |apply NoDup_singleton].
        by intros c Hc' ->%list_elem_of_singleton.
      * rewrite fmap_app. apply NoDup_app.
        split_and!; [done| |apply NoDup_singleton].
        intros i (u & -> & Hu)%list_elem_of_fmap Hi'%list_elem_of_singleton.
        rewrite Forall_forall in Hq. specialize (Hq u Hu). cbn in Hi'. lia.
      * apply Forall_app. split; [|by repeat constructor; cbn; lia].
        eapply Forall_impl; [exact Hq|]. cbn. intros; lia.
    + eexists [_]. split; [done|cbn; lia].
    + intros result [= <-]. eexists. split; [done|].
      split; [|done]. apply elem_of_app. right. apply list_elem_of_here.
    + done.
Qed.

(** X25, witness: the Clerk id of user 7 is asked for with other data. *)
Lemma getOrCreateUser_keeps_users_witness :
  wf_app (aw_db app_world_one)
  ∧ aw_db (getOrCreateUser "user_2abc"
             (mkUserData (Some "new@example.com") (Some "Sam") None)
             env_ok app_world_one).1
    = app_db_one.
Proof.
  split; [exact wf_app_one|].
  destruct (getOrCreateUser_keeps_users "user_2abc"
              (mkUserData (Some "new@example.com") (Some "Sam") None)
              env_ok app_world_one wf_app_one) as (_ & _ & _ & Hsame).
  apply Hsame. by apply list_elem_of_singleton.
Defined.

(** X26: asking twice gives the same user.  After a resolved
    [getOrCreateUser], a second one for the same Clerk id, with any
    [userData], resolves in one store call with the very same row and leaves
    the tables as the first left them. *)
Theorem getOrCreateUser_twice (clerkId : string) (userData userData' : UserData)
    (env : Env) (w w1 : AppWorld) (user : option User) :
  getOrCreateUser clerkId userData env w = (w1, inr user) →
  call_fault (store_call env (aw_calls w1)) = None →
  getOrCreateUser clerkId userData' env w1
  = (mkAppWorld (aw_db w1) (S (aw_calls w1)), inr user).
Proof.
  intros Hfirst Hok.
  assert (∃ u rest,
            user = Some u
            ∧ filter (λ u, u_clerk_id u = clerkId) (users (aw_db w1))
              = u :: rest) as (u & rest & -> & Hfound).
  { destruct (getOrCreateUser_cases clerkId userData env w)
      as [(err & _ & Heq)
         |[(u & rest & _ & Hfound & Heq)
          |[(err & _ & _ & _ & Heq)|(_ & Hfound & _ & Heq)]]];
      rewrite Heq in Hfirst; try done; injection Hfirst as <- <-.
    - by exists u, rest.
    - eexists _, []. split; [done|]. cbn [aw_db users].
      rewrite filter_app, Hfound, filter_cons, filter_nil.
      by rewrite decide_True by done. }
  destruct (getOrCreateUser_cases clerkId userData' env w1)
    as [(err & Hfault & _)
       |[(u' & rest' & _ & Hfound' & ->)
        |[(err & _ & Hnone & _)|(_ & Hnone & _)]]];
    [congruence| |congruence..].
  rewrite Hfound in Hfound'. by injection Hfound' as <- _.
Qed.

(** X26, witness: a new Clerk id is asked for twice. *)
Lemma getOrCreateUser_twice_witness :
  ∃ w1 user,
    getOrCreateUser "user_9xyz" (mkUserData None (Some "Kim") None) env_ok
      app_world_one = (w1, inr (Some user))
    ∧ u_id user = 8
    ∧ getOrCreateUser "user_9xyz" (mkUserData None (Some "Lee") None) env_ok
        w1 = (mkAppWorld (aw_db w1) (S (aw_calls w1)), inr (Some user)).
Proof.
  eexists _, _. split; [reflexivity|]. split; [reflexivity|].
  apply (getOrCreateUser_twice "user_9xyz" (mkUserData None (Some "Kim") None)
           (mkUserData None (Some "Lee") None) env_ok app_world_one);
    reflexivity.
Defined.

(** ** The feed leaves nothing out *)

Lemma feed_where_true userId filters d l :
  l_is_active l = true →
  ¬ Exists (swipe_of userId (l_id l)) (swipes d) →
  (∀ p, minPrice filters = Some p → p ≠ 0 → ∃ v, l_price l = Some v ∧ p ≤ v) →
  (∀ p, maxPrice filters = Some p → p ≠ 0 → ∃ v, l_price l = Some v ∧ v ≤ p) →
  (∀ p, minBeds filters = Some p → p ≠ 0 → p ≤ l_beds l) →
  (∀ p, minBaths filters = Some p → p ≠ 0 → p ≤ l_baths l) →
  (∀ p, filters_province filters = Some p → p ≠ EmptyString →
     l_province l = Some p) →
  feed_where userId filters d l = true.
Proof.
  intros Hact Hsw Hmin Hmax Hbeds Hbaths Hprov.
  unfold feed_where, not_swiped.
  rewrite !andb_true_iff, negb_true_iff, bool_decide_eq_false.
  split_and!; [done|done| | | | |].
  - destruct (minPrice filters) as [p|]; [|done]. cbn.
    destruct (Z.eqb_spec p 0); [done|]. cbn.
    destruct (Hmin p) as (v & -> & Hv); [done..|]. by apply Z.leb_le.
  - destruct (maxPrice filters) as [p|]; [|done]. cbn.
    destruct (Z.eqb_spec p 0); [done|]. cbn.
    destruct (Hmax p) as (v & -> & Hv); [done..|]. by apply Z.leb_le.
  - destruct (minBeds filters) as [p|]; [|done]. cbn.
    destruct (Z.eqb_spec p 0); [done|]. cbn. apply Z.leb_le. by apply Hbeds.
  - destruct (minBaths filters) as [p|]; [|done]. cbn.
    destruct (Z.eqb_spec p 0); [done|]. cbn. apply Z.leb_le. by apply Hbaths.
  - destruct (filters_province filters) as [p|]; [|done].
    destruct p as [|c p]; [done|]. cbn. apply bool_decide_eq_true.
    by apply Hprov.
Qed.

(** X27: the feed leaves nothing out.  When no offset is given and the limit
    (50 if missing) is at least the number of Listings in the table, a
    resolved page shows every active Listing that the user has not swiped
    and that passes each filter that is given and not 0 (for the province:
    not empty): a filter of 0 or of the empty string excludes nothing. *)
Theorem feed_shows_all_matching (userId : Z) (limit : option Z)
    (filters : Filters) (env : Env) (w w' : AppWorld) (rows : list FeedRow)
    (l : Listing) :
  getListingsForUser userId limit None filters env w (w', inr rows) →
  (length (listings (app_core (aw_db w))) ≤ Z.to_nat (default 50%Z limit))%nat →
  l ∈ listings (app_core (aw_db w)) →
  l_is_active l = true →
  ¬ Exists (swipe_of userId (l_id l)) (swipes (aw_db w)) →
  (∀ p, minPrice filters = Some p → p ≠ 0 → ∃ v, l_price l = Some v ∧ p ≤ v) →
  (∀ p, maxPrice filters = Some p → p ≠ 0 → ∃ v, l_price l = Some v ∧ v ≤ p) →
  (∀ p, minBeds filters = Some p → p ≠ 0 → p ≤ l_beds l) →
  (∀ p, minBaths filters = Some p → p ≠ 0 → p ≤ l_baths l) →
  (∀ p, filters_province filters = Some p → p ≠ EmptyString →
     l_province l = Some p) →
  feed_row (aw_db w) l ∈ rows.
Proof.
  intros (_ & _ & _ & _ & sorted & Hperm & _ & ->)%getListingsForUser_inr
         Hlen Hl Hact Hsw Hmin Hmax Hbeds Hbaths Hprov.
  apply list_elem_of_fmap. exists l. split; [done|].
  cbn [default]. change (Z.to_nat 0) with 0%nat. rewrite drop_0.
  rewrite take_ge.
  - rewrite Hperm. apply list_elem_of_filter. split; [|done].
    by apply feed_where_true.
  - rewrite Hperm. etrans; [apply length_filter|done].
Qed.

Lemma feed_one_served_min_price_0 :
  getListingsForUser 7 None None (mkFilters (Some 0) None None None None)
    env_ok app_world_one (mkAppWorld app_db_one 1, inr feed_one).
Proof.
  unfold getListingsForUser. cbn.
  exists feed_one. split; [|done].
  exists [listing_row 0 1 (snapshot_with_image url_a (Some 500000))].
  split_and!; [done|repeat constructor|done].
Qed.

(** X27, witness: the one listing of [app_db_one], a minimum price of 0. *)
Lemma feed_shows_all_matching_witness :
  getListingsForUser 7 None None (mkFilters (Some 0) None None None None)
    env_ok app_world_one (mkAppWorld app_db_one 1, inr feed_one)
  ∧ feed_row app_db_one
      (listing_row 0 1 (snapshot_with_image url_a (Some 500000)))
    ∈ feed_one.
Proof.
  split; [exact feed_one_served_min_price_0|].
  apply (feed_shows_all_matching 7 None
           (mkFilters (Some 0) None None None None) env_ok app_world_one _
           feed_one _ feed_one_served_min_price_0);
    [cbn; lia|by apply list_elem_of_singleton|reflexivity
    |by intros ?%Exists_nil
    |intros p [= <-]; done|done..].
Defined.
